(** * Feature extraction and scoring of the digit-recognition demo

    A shallow embedding of the numeric core of the web application
    (src/lib/melSpectrogram.ts, src/lib/audio.ts, src/lib/preprocessMnist.ts,
    and the scoring, ranking, text and drawing code of the pages), with the
    properties of its specification proved or refuted on it, and further
    properties of the code.

    Conventions of the embedding.
    - A JavaScript number that holds a sample, a weight or a score is a real
      number: arithmetic is exact, there is no rounding to binary32 or
      binary64, no NaN and no infinity.
    - A number that holds a length or an index is an integer ([nat] where the
      code can only count upwards from 0, [Z] where a bit operator touches
      it).  The operators [>>], [<<], [&] and [^] work on 32-bit integers, as
      the language defines them: their operands pass through [toInt32].
    - A typed array is a list.  Writing outside its bounds does nothing, as
      for a Float32Array; reading outside gives [undefined], which the code
      either replaces ([?? 0]) or never meets.
    - A call that does not return is [None].
    - A string is the list of its UTF-16 code units.
    - What the browser does (contexts of canvases, drawing and scaling,
      decoding and recording of audio, the inference engine) is a parameter
      of the function that asks for it. *)

From Stdlib Require Import Reals ZArith Lia Lra Zfloor String Ascii.
From stdpp Require Import base list sorting.

Local Open Scope R_scope.

(* ================================================================== *)
(** * Part I: the program                                              *)
(* ================================================================== *)

(** ** Numbers and typed arrays *)

Module Js.

(** ToInt32 of the language: wrap modulo 2^32 into [-2^31, 2^31). *)
Definition toInt32 (z : Z) : Z := ((z + 2 ^ 31) mod 2 ^ 32 - 2 ^ 31)%Z.

(** [a >> b], [a << b], [a & b], [a ^ b]. *)
Definition shr (a b : Z) : Z := Z.shiftr (toInt32 a) (b mod 32).
Definition shl (a b : Z) : Z := toInt32 (Z.shiftl (toInt32 a) (b mod 32)).
Definition and (a b : Z) : Z := Z.land (toInt32 a) (toInt32 b).
Definition xor (a b : Z) : Z := Z.lxor (toInt32 a) (toInt32 b).

(** [Math.round]: the nearest integer, a half rounded upwards. *)
Definition Math_round (x : R) : Z := Zfloor (x + / 2).

(** [Math.floor]. *)
Definition Math_floor (x : R) : Z := Zfloor x.

(** [a[i]] for a number [i]: [undefined] outside the array. *)
Definition at_ (a : list R) (i : Z) : option R :=
  if (i <? 0)%Z then None else a !! Z.to_nat i.

(** [a[i]!] and [a[i] ?? 0] on a natural index. *)
Definition get (a : list R) (i : nat) : R := default 0 (a !! i).

(** [a[i] = v] on a typed array. *)
Definition set (a : list R) (i : nat) (v : R) : list R := <[i := v]> a.

(** [new Float32Array(n)]. *)
Definition zeros (n : nat) : list R := replicate n 0.

End Js.

(** ** src/lib/audio.ts *)

Module Audio.

(** The products and quotients are the exact ones.  Where the exact
    [input.length * ratio] lies half-way between two integers (or within a
    rounding error of it) the binary64 product of the code can round to the
    other neighbour: the properties of the length in Part II are bounds, or
    are stated for products away from such a point. *)
Definition resampleLinear (input : list R) (inputRate outputRate : R) : list R :=
  if Req_dec_T inputRate outputRate then input
  else
    let ratio := outputRate / inputRate in
    let outputLength := Z.max 1 (Js.Math_round (INR (length input) * ratio)) in
    (fun i : nat =>
       let pos := INR i / ratio in
       let idx := Js.Math_floor pos in
       let frac := pos - IZR idx in
       let a := default 0 (Js.at_ input idx) in
       let b := default a (Js.at_ input (idx + 1)) in
       a + (b - a) * frac) <$> seq 0 (Z.to_nat outputLength).

Definition takeOrPadToLength (input : list R) (targetLength : nat) : list R :=
  if decide (length input = targetLength) then input
  else if decide (targetLength <= length input)%nat
       then take targetLength input
       else input ++ Js.zeros (targetLength - length input).

Definition takeCenterSegment (input : list R) (targetLength : nat) : list R :=
  if decide (length input <= targetLength)%nat
  then takeOrPadToLength input targetLength
  else
    let start := ((length input - targetLength) / 2)%nat in
    take targetLength (drop start input).

End Audio.

(** ** The softmax of src/pages/VoicePage.tsx and src/pages/HandwritingPage.tsx
    (the two pages carry the same function) *)

Module Scoring.

(** [Math.max(...xs)]: [None] is the -Infinity of an empty argument list. *)
Definition Math_max (xs : list R) : option R :=
  match xs with
  | [] => None
  | x :: xs' => Some (foldl Rmax x xs')
  end.

(** [sum || 1]. *)
Definition or_one (sum : R) : R := if Req_dec_T sum 0 then 1 else sum.

(** [exps.reduce((a, b) => a + b, 0)]. *)
Definition reduce_add (xs : list R) : R := foldl Rplus 0 xs.

Definition softmax (logits : list R) : list R :=
  match Math_max logits with
  | None => []  (* no logit: [exps] is empty whatever [v - max] would be *)
  | Some max =>
      let exps := (fun v => exp (v - max)) <$> logits in
      let sum := reduce_add exps in
      (fun e => e / or_one sum) <$> exps
  end.

(** An entry of the list of probabilities that the pages show. *)
Record Prob := { digit : nat; p : R }.

(** [.sort((a, b) => b.p - a.p)].  The sort of the language is stable, and
    this comparator orders by descending [p]: the result is the one list in
    descending order of [p] in which entries of equal [p] keep the order
    they came in.  [insertDescending] puts an entry that came before those of
    the sorted list [l] at its place: before the first entry whose [p] is not
    larger. *)
Fixpoint insertDescending (x : Prob) (l : list Prob) : list Prob :=
  match l with
  | [] => [x]
  | y :: l' => if Rlt_dec (p x) (p y) then y :: insertDescending x l' else x :: y :: l'
  end.

Definition sortDescending (l : list Prob) : list Prob := foldr insertDescending [] l.

(** [p.map((v, d) => ({ digit: d, p: v })).sort(...).slice(0, 5)]. *)
Definition ranked (probs : list R) : list Prob :=
  take 5 (sortDescending (imap (fun d v => {| digit := d; p := v |}) probs)).

End Scoring.

(** ** src/pages/EvalPage.tsx *)

Module EvalPage.

(** A sample of the data set, its pixels already decoded by [b64ToU8] (the
    text is taken to be base64, so that [atob] returns), its label a
    natural number. *)
Record Sample := { label : nat; pixels : list Z }.

(** A row of the confusion matrix is a JavaScript array: a write past its
    end lengthens it and leaves holes ([None]) in between. *)
Abbreviation Row := (list (option nat)).
Abbreviation Matrix := (list (list (option nat))).

(** [Array.from({ length: 10 }, () => Array(10).fill(0))]. *)
Definition emptyConf : Matrix := replicate 10 (replicate 10 (Some 0%nat)).

(** [row[i] ?? 0]. *)
Definition cell (row : Row) (i : nat) : nat := default 0%nat (mjoin (row !! i)).

(** [row[i] = v]. *)
Definition row_set (row : Row) (i : nat) (v : nat) : Row :=
  if decide (i < length row)%nat then <[i := Some v]> row
  else row ++ replicate (i - length row) None ++ [Some v].

(** [argmax]: [best] is [None] for the -Infinity of an empty vector. *)
Definition argmax_step (logits : list R) (st : nat * option R) (i : nat) : nat * option R :=
  let '(bestIdx, best) := st in
  let v := Js.get logits i in
  match best with
  | None => (i, Some v)
  | Some b => if Rgt_dec v b then (i, Some v) else (bestIdx, best)
  end.

Definition argmax (logits : list R) : nat :=
  fst (foldl (argmax_step logits) (0%nat, logits !! 0%nat) (seq 1 (length logits - 1))).

(** The input tensor of one sample: [x[j] = (pixels[j] / 255 - 0.1307) / 0.3081]. *)
Definition normalize (pixels : list Z) : list R :=
  (fun j : nat => (IZR (default 0%Z (pixels !! j)) / 255 - 0.1307) / 0.3081) <$> seq 0 (28 * 28).

(** The state of the page that the run touches. *)
Record Ui := { done : nat; total : nat; correct : nat; conf : Matrix }.

(** The locals of [runEval]. *)
Record Locals := { localCorrect : nat; localConf : Matrix }.

(** [localConf[y]![pred] = (localConf[y]![pred] ?? 0) + 1]: a label with
    no row makes the access throw ([None]). *)
Definition accumulate (m : Matrix) (y pred : nat) : option Matrix :=
  match m !! y with
  | None => None
  | Some row => Some (<[y := row_set row pred (cell row pred + 1)]> m)
  end.

Section Run.

(** The inference engine: from the input tensor to the logits.  It is taken
    to answer every sample ([await session.run] does not reject). *)
Variable session : list R -> list R.

(** One turn of the loop of [runEval] over a data set of [n] samples. *)
Definition step (n : nat) (st : Locals * Ui) (i : nat) (s : Sample) : option (Locals * Ui) :=
  let '(loc, ui) := st in
  let x := normalize (pixels s) in
  let logits := session x in
  let pred := argmax logits in
  let y := label s in
  match accumulate (localConf loc) y pred with
  | None => None
  | Some c =>
      let k := if decide (pred = y) then S (localCorrect loc) else localCorrect loc in
      let loc' := {| localCorrect := k; localConf := c |} in
      if decide ((i + 1) mod 10 = 0 \/ i + 1 = n)%nat
      then Some (loc', {| done := i + 1; total := total ui; correct := k; conf := c |})
      else Some (loc', ui)
  end.

Fixpoint loop (n : nat) (i : nat) (rest : list Sample) (st : Locals * Ui) : option (Locals * Ui) :=
  match rest with
  | [] => Some st
  | s :: rest' =>
      match step n st i s with
      | None => None
      | Some st' => loop n (S i) rest' st'
      end
  end.

(** The state in which the loop starts: [setDone(0); setCorrect(0);
    setConf(zeros)], [total] as it was set when the data set was loaded. *)
Definition start (samples : list Sample) : Locals * Ui :=
  ({| localCorrect := 0; localConf := emptyConf |},
   {| done := 0; total := length samples; correct := 0; conf := emptyConf |}).

(** The run when its first [k] samples have been processed. *)
Definition runEval_upto (samples : list Sample) (k : nat) : option (Locals * Ui) :=
  loop (length samples) 0 (take k samples) (start samples).

Definition runEval (samples : list Sample) : option (Locals * Ui) :=
  runEval_upto samples (length samples).

End Run.

(** [const accuracy = total ? (correct / total) * 100 : 0]. *)
Definition accuracy (ui : Ui) : R :=
  if decide (total ui = 0%nat) then 0 else INR (correct ui) / INR (total ui) * 100.

(** The sums the specification speaks of. *)
Definition row_sum (row : Row) : nat := sum_list (default 0%nat <$> row).
Definition cells_sum (m : Matrix) : nat := sum_list (row_sum <$> m).
Definition diagonal_sum (m : Matrix) : nat :=
  sum_list ((fun i => cell (default [] (m !! i)) i) <$> seq 0 (length m)).

End EvalPage.

(** ** src/lib/melSpectrogram.ts *)

Module MelSpectrogram.

Definition SAMPLE_RATE : Z := 16000.
Definition N_FFT : nat := 1024.
Definition HOP_LENGTH : nat := 512.
Definition N_MELS : nat := 128.
Definition N_FRAMES : nat := 32.

(** [Math.log10]. *)
Definition Math_log10 (x : R) : R := ln x / ln 10.

Definition hzToMel (hz : R) : R := 2595 * Math_log10 (1 + hz / 700).

Definition melToHz (mel : R) : R := 700 * (Rpower 10 (mel / 2595) - 1).

Definition hannWindow (n : nat) : list R :=
  (fun i : nat => 0.5 - 0.5 * cos ((2 * PI * INR i) / (INR n - 1))) <$> seq 0 n.

(** The loops of the file, over the indices they visit; [forM] is the loop
    whose body may fail to return. *)
Fixpoint forM {S : Type} (body : S -> nat -> option S) (st : S) (indices : list nat) : option S :=
  match indices with
  | [] => Some st
  | i :: rest =>
      match body st i with
      | None => None
      | Some st' => forM body st' rest
      end
  end.

(** [while (j & bit) { j ^= bit; bit >>= 1; }].  A 32-bit [bit] is 0 or -1
    after 31 shifts, from where the test gives the same answer every other
    turn: a loop that has not stopped after 34 tests never stops. *)
Fixpoint carry (fuel : nat) (j bit : Z) : option (Z * Z) :=
  match fuel with
  | O => None
  | S fuel' =>
      if (Js.and j bit =? 0)%Z then Some (j, bit)
      else carry fuel' (Js.xor j bit) (Js.shr bit 1)
  end.

(** [const t = a[i]; a[i] = a[j]; a[j] = t]. *)
Definition swap (a : list R) (i j : nat) : list R :=
  let t := Js.get a i in
  let a := Js.set a i (Js.get a j) in
  Js.set a j t.

(** One turn of the loop of [bitReversePermutation]; the state is [j] and
    the two arrays. *)
Definition bitReverse_step (n : nat) (st : Z * list R * list R) (i : nat)
  : option (Z * list R * list R) :=
  let '(j, re, im) := st in
  let bit := Js.shr (Z.of_nat n) 1 in
  match carry 34 j bit with
  | None => None
  | Some (j, bit) =>
      let j := Js.xor j bit in
      if (Z.of_nat i <? j)%Z
      then Some (j, swap re i (Z.to_nat j), swap im i (Z.to_nat j))
      else Some (j, re, im)
  end.

Definition bitReversePermutation (re im : list R) : option (list R * list R) :=
  let n := length re in
  match forM (bitReverse_step n) (0%Z, re, im) (seq 1 (n - 1)) with
  | None => None
  | Some (_, re, im) => Some (re, im)
  end.

(** The body of the innermost loop of [fftInPlace]; the state is the two
    arrays and the running twiddle factor [(wRe, wIm)]. *)
Definition butterfly (i half : nat) (wLenRe wLenIm : R)
  (st : list R * list R * R * R) (j : nat) : list R * list R * R * R :=
  let '(re, im, wRe, wIm) := st in
  let uRe := Js.get re (i + j) in
  let uIm := Js.get im (i + j) in
  let vRe := Js.get re (i + j + half) * wRe - Js.get im (i + j + half) * wIm in
  let vIm := Js.get re (i + j + half) * wIm + Js.get im (i + j + half) * wRe in
  let re := Js.set re (i + j) (uRe + vRe) in
  let im := Js.set im (i + j) (uIm + vIm) in
  let re := Js.set re (i + j + half) (uRe - vRe) in
  let im := Js.set im (i + j + half) (uIm - vIm) in
  let nextWRe := wRe * wLenRe - wIm * wLenIm in
  let wIm := wRe * wLenIm + wIm * wLenRe in
  let wRe := nextWRe in
  (re, im, wRe, wIm).

(** The loop over [j] for the block that starts at [i]. *)
Definition block (half : nat) (wLenRe wLenIm : R) (st : list R * list R) (i : nat)
  : list R * list R :=
  let '(re, im) := st in
  let '(re, im, _, _) := foldl (butterfly i half wLenRe wLenIm) (re, im, 1, 0) (seq 0 half) in
  (re, im).

(** The body of the loop over [len], for a positive [len]: the blocks start
    at [0, len, 2 len, ...] below [n].  ([len] is even wherever the loop
    over [len] calls this, so [len / 2] is an integer.) *)
Definition stage (n len : nat) (st : list R * list R) : list R * list R :=
  let ang := (-2 * PI) / INR len in
  let wLenRe := cos ang in
  let wLenIm := sin ang in
  foldl (block (len / 2) wLenRe wLenIm) st ((fun b => b * len)%nat <$> seq 0 ((n + len - 1) / len)).

(** [for (let len = 2; len <= n; len <<= 1)].  With [len <= 0] the loop over
    the blocks ([i += len] from 0, while [i < n]) never ends.  [len] is a
    32-bit integer from its first shift on, so it is positive for at most 30
    turns: the counter [k] never runs out from 32. *)
Fixpoint stages (k : nat) (n : nat) (len : Z) (st : list R * list R) : option (list R * list R) :=
  if (len <=? Z.of_nat n)%Z then
    if (len <=? 0)%Z then None
    else
      match k with
      | O => None
      | S k' => stages k' n (Js.shl len 1) (stage n (Z.to_nat len) st)
      end
  else Some st.

Definition fftInPlace (re im : list R) : option (list R * list R) :=
  let n := length re in
  match bitReversePermutation re im with
  | None => None
  | Some st => stages 32 n 2 st
  end.

(** The two caches of the module. *)
Record Caches := { cachedWindow : option (list R); cachedFilters : option (list (list R)) }.

Definition noCaches : Caches := {| cachedWindow := None; cachedFilters := None |}.

Definition getWindow (c : Caches) : list R * Caches :=
  match cachedWindow c with
  | Some w => (w, c)
  | None =>
      let w := hannWindow N_FFT in
      (w, {| cachedWindow := Some w; cachedFilters := cachedFilters c |})
  end.

Definition nFftBins : nat := N_FFT / 2 + 1.

Definition melPoints : list R :=
  let mMin := hzToMel 0 in
  let mMax := hzToMel (IZR SAMPLE_RATE / 2) in
  (fun i : nat => mMin + (INR i * (mMax - mMin)) / INR (N_MELS + 1)) <$> seq 0 (N_MELS + 2).

Definition hzPoints : list R := melToHz <$> melPoints.

Definition bin : list Z :=
  (fun hz => Js.Math_floor (INR (N_FFT + 1) * hz / IZR SAMPLE_RATE)) <$> hzPoints.

(** [for (let k = from; k < to; k++) if (k >= 0 && k < nFftBins) f[k] = w(k)]. *)
Definition ramp (from to : Z) (w : Z -> R) (f : list R) : list R :=
  foldl (fun f k => if decide (0 <= k /\ k < Z.of_nat nFftBins)%Z
                    then Js.set f (Z.to_nat k) (w k) else f)
        f (seqZ from (to - from)).

(** The filter of band [m], for [m] from 1 to [N_MELS]. *)
Definition melFilter (m : nat) : list R :=
  let f := Js.zeros nFftBins in
  let left := default 0%Z (bin !! (m - 1)%nat) in
  let center := default 0%Z (bin !! m) in
  let right := default 0%Z (bin !! (m + 1)%nat) in
  if decide (right <= left)%Z then f
  else
    let f := ramp left center (fun k => IZR (k - left) / Rmax 1 (IZR (center - left))) f in
    ramp center right (fun k => IZR (right - k) / Rmax 1 (IZR (right - center))) f.

(** [for (let m = 1; m <= N_MELS; m++) { ...; filters.push(f); }]. *)
Definition buildMelFilters : list (list R) := melFilter <$> seq 1 N_MELS.

Definition getMelFilters (c : Caches) : list (list R) * Caches :=
  match cachedFilters c with
  | Some filters => (filters, c)
  | None =>
      let filters := buildMelFilters in
      (filters, {| cachedWindow := cachedWindow c; cachedFilters := Some filters |})
  end.

(** The caches are private to the module: the states they can be in are
    those that the two getters reach from the empty caches. *)
Inductive reachable : Caches -> Prop :=
| reachable_start : reachable noCaches
| reachable_getWindow (c : Caches) : reachable c -> reachable (getWindow c).2
| reachable_getMelFilters (c : Caches) : reachable c -> reachable (getMelFilters c).2.

(** [target.set(source, offset)] where the source fits. *)
Definition copy_into (target source : list R) (offset : nat) : list R :=
  take offset target ++ source ++ drop (offset + length source) target.

(** [frame[i] = (padded[start + i] ?? 0) * window[i]!] for every [i]. *)
Definition fill_frame (padded window : list R) (start : nat) (frame : list R) : list R :=
  foldl (fun frame i => Js.set frame i (Js.get padded (start + i) * Js.get window i))
        frame (seq 0 N_FFT).

(** [power[k] = r * r + ii * ii] for every bin [k]. *)
Definition fill_power (re im power : list R) : list R :=
  foldl (fun power k =>
           let r := Js.get re k in
           let ii := Js.get im k in
           Js.set power k (r * r + ii * ii))
        power (seq 0 nFftBins).

(** [let sum = 0; for (k ...) sum += power[k]! * filt[k]!]. *)
Definition weighted_sum (power filt : list R) : R :=
  foldl (fun sum k => sum + Js.get power k * Js.get filt k) 0 (seq 0 nFftBins).

(** [out[m * N_FRAMES + t] = sum] for every band [m]. *)
Definition project (filters : list (list R)) (power : list R) (t : nat) (out : list R) : list R :=
  foldl (fun out m =>
           let filt := default [] (filters !! m) in
           Js.set out (m * N_FRAMES + t) (weighted_sum power filt))
        out (seq 0 N_MELS).

(** The buffers that the frames share. *)
Record Buffers := { frame : list R; re : list R; im : list R; power : list R; out : list R }.

(** The body of the loop over the frames. *)
Definition frame_step (padded window : list R) (filters : list (list R))
  (b : Buffers) (t : nat) : option Buffers :=
  let start := (t * HOP_LENGTH)%nat in
  let frame := fill_frame padded window start (frame b) in
  let re := copy_into (re b) frame 0 in
  let im := replicate (length (im b)) 0 in
  match fftInPlace re im with
  | None => None
  | Some (re, im) =>
      let power := fill_power re im (power b) in
      let out := project filters power t (out b) in
      Some {| frame := frame; re := re; im := im; power := power; out := out |}
  end.

(** The buffers as they are allocated, and the loop over the frames. *)
Definition newBuffers : Buffers :=
  {| frame := Js.zeros N_FFT; re := Js.zeros N_FFT; im := Js.zeros N_FFT;
     power := Js.zeros nFftBins; out := Js.zeros (N_MELS * N_FRAMES) |}.

Definition frames (padded window : list R) (filters : list (list R)) : option Buffers :=
  forM (frame_step padded window filters) newBuffers (seq 0 N_FRAMES).

Definition melSpectrogram128x32From16k (samples16k : list R) (c : Caches) :=
  let pad := (N_FFT / 2)%nat in
  let padded := Js.zeros (length samples16k + pad * 2) in
  let padded := copy_into padded samples16k pad in
  let (window, c) := getWindow c in
  let (filters, c) := getMelFilters c in
  match frames padded window filters return option (list R * Caches) with
  | None => None
  | Some b => Some (out b, c)
  end.

End MelSpectrogram.

(** ** src/lib/preprocessMnist.ts *)

Module PreprocessMnist.

Definition MNIST_MEAN : R := 0.1307.
Definition MNIST_STD : R := 0.3081.

(** A canvas as the function sees it: its size, and what
    [getContext('2d')] gives, [None] for [null], otherwise a context, given
    by the bytes (RGBA) of the bitmap that it reads. *)
Record Canvas := { width : nat; height : nat; context2d : option (list Z) }.

(** What the function asks of the browser besides: whether a canvas it
    creates (of some width and height) gives a 2D context, and the bytes of
    the 28 x 28 preview once the crop (x, y, width, height) of the source has
    been scaled (to a width and height) and drawn at an offset. *)
Record Browser := {
  newContext2d : Z -> Z -> bool;
  composed : Canvas -> Z * Z * Z * Z -> Z * Z -> Z * Z -> list Z
}.

(** What the function throws: its own errors, and the [IndexSizeError] of
    [getImageData]. *)
Inductive Error :=
| CouldNotReadCanvas
| IndexSizeError
| CouldNotCreatePreviewCanvas
| CouldNotCreateCropCanvas
| CouldNotCreateScaledCanvas.

(** The preview canvas: filled black, or the composed image. *)
Inductive Preview :=
| BlackPreview
| ComposedPreview (data : list Z).

Record PreprocessResult := { tensorData : list R; previewCanvas : Preview; hasInk : bool }.

Inductive Outcome :=
| Throws (e : Error)
| Returns (r : PreprocessResult).

Definition clamp (v min max : Z) : Z := Z.max min (Z.min max v).

(** [srcCtx.getImageData(0, 0, sw, sh).data]: the call throws an
    [IndexSizeError] ([None]) when [sw] or [sh] is 0. *)
Definition getImageData (srcCtx : list Z) (sw sh : nat) : option (list Z) :=
  if ((sw =? 0) || (sh =? 0))%nat then None else Some srcCtx.

Definition threshold : R := 0.12.

Record Box := { minX : Z; minY : Z; maxX : Z; maxY : Z }.

(** The body of the loop over [x]; a byte outside the data is [undefined],
    its ink is NaN, and NaN is not above the threshold. *)
Definition scan_pixel (data : list Z) (width : nat) (y : nat) (b : Box) (x : nat) : Box :=
  let i := ((y * width + x) * 4)%nat in
  match data !! i with
  | None => b
  | Some v =>
      let r := IZR v / 255 in
      let ink := 1 - r in
      if Rgt_dec ink threshold then
        {| minX := if (Z.of_nat x <? minX b)%Z then Z.of_nat x else minX b;
           minY := if (Z.of_nat y <? minY b)%Z then Z.of_nat y else minY b;
           maxX := if (maxX b <? Z.of_nat x)%Z then Z.of_nat x else maxX b;
           maxY := if (maxY b <? Z.of_nat y)%Z then Z.of_nat y else maxY b |}
      else b
  end.

Definition scan_row (data : list Z) (width : nat) (b : Box) (y : nat) : Box :=
  foldl (scan_pixel data width y) b (seq 0 width).

Definition boundingBox (data : list Z) (width height : nat) : Box :=
  foldl (scan_row data width)
        {| minX := Z.of_nat width; minY := Z.of_nat height; maxX := -1; maxY := -1 |}
        (seq 0 height).

(** [tensorData[i / 4] = (ink - MNIST_MEAN) / MNIST_STD] for [i = 0, 4, 8, ...]. *)
Definition normalize (finalData : list Z) : list R :=
  foldl (fun tensorData p =>
           let i := (p * 4)%nat in
           let r := IZR (default 0%Z (finalData !! i)) / 255 in
           let ink := 1 - r in
           Js.set tensorData p ((ink - MNIST_MEAN) / MNIST_STD))
        (Js.zeros (28 * 28)) (seq 0 ((length finalData + 3) / 4)).

(** [margin], [scale], [scaledW] and [scaledH] come from the exact products;
    at a product half-way between two integers the code's binary64 product
    can round to the other neighbour, within the bounds proved below. *)
Definition preprocessMnistFromCanvas (env : Browser) (sourceCanvas : Canvas) : Outcome :=
  match context2d sourceCanvas with
  | None => Throws CouldNotReadCanvas
  | Some srcCtx =>
      let w := width sourceCanvas in
      let h := height sourceCanvas in
      match getImageData srcCtx w h with
      | None => Throws IndexSizeError
      | Some data =>
          let b := boundingBox data w h in
          if negb (newContext2d env 28 28) then Throws CouldNotCreatePreviewCanvas
          else if ((maxX b <? 0) || (maxY b <? 0))%Z then
            Returns {| tensorData := Js.zeros (28 * 28); previewCanvas := BlackPreview;
                       hasInk := false |}
          else
            let boxW := (maxX b - minX b + 1)%Z in
            let boxH := (maxY b - minY b + 1)%Z in
            let boxSize := Z.max boxW boxH in
            let margin := Js.Math_round (IZR boxSize * 0.2) in
            let cropX := clamp (minX b - margin) 0 (Z.of_nat w - 1) in
            let cropY := clamp (minY b - margin) 0 (Z.of_nat h - 1) in
            let cropMaxX := clamp (maxX b + margin) 0 (Z.of_nat w - 1) in
            let cropMaxY := clamp (maxY b + margin) 0 (Z.of_nat h - 1) in
            let cropW := (cropMaxX - cropX + 1)%Z in
            let cropH := (cropMaxY - cropY + 1)%Z in
            if negb (newContext2d env cropW cropH) then Throws CouldNotCreateCropCanvas
            else
              let targetInkSize := 20 in
              let scale := targetInkSize / IZR (Z.max cropW cropH) in
              let scaledW := Z.max 1 (Js.Math_round (IZR cropW * scale)) in
              let scaledH := Z.max 1 (Js.Math_round (IZR cropH * scale)) in
              if negb (newContext2d env scaledW scaledH) then Throws CouldNotCreateScaledCanvas
              else
                let offsetX := ((28 - scaledW) / 2)%Z in
                let offsetY := ((28 - scaledH) / 2)%Z in
                let finalData :=
                  composed env sourceCanvas (cropX, cropY, cropW, cropH)
                           (scaledW, scaledH) (offsetX, offsetY) in
                Returns {| tensorData := normalize finalData;
                           previewCanvas := ComposedPreview finalData;
                           hasInk := true |}
      end
  end.

End PreprocessMnist.

(** ** src/lib/audio.ts: the capture and the decoding *)

Module AudioCapture.

Record AudioCaptureResult := { samples : list R; sampleRate : R }.

(** [target.set(source, offset)]: a RangeError ([None]) when the source
    does not fit. *)
Definition typed_set (target source : list R) (offset : nat) : option (list R) :=
  if decide (offset + length source <= length target)%nat
  then Some (MelSpectrogram.copy_into target source offset)
  else None.

(** [for (const c of chunks) { samples.set(c, offset); offset += c.length; }]. *)
Fixpoint copyChunks (chunks : list (list R)) (samples : list R) (offset : nat)
  : option (list R) :=
  match chunks with
  | [] => Some samples
  | c :: rest =>
      match typed_set samples c offset with
      | None => None
      | Some samples' => copyChunks rest samples' (offset + length c)
      end
  end.

(** The end of [recordMono], once the recording has stopped: from the
    chunks that the processor has delivered and the rate of the audio
    context. *)
Definition recordMono (chunks : list (list R)) (contextRate : R) : option AudioCaptureResult :=
  let total := foldl (fun sum c => (sum + length c)%nat) 0%nat chunks in
  let samples := Js.zeros total in
  match copyChunks chunks samples 0 with
  | None => None
  | Some samples => Some {| samples := samples; sampleRate := contextRate |}
  end.

(** A decoded audio buffer: [decoded.length], [decoded.sampleRate], and the
    data of the channels [0 .. numberOfChannels - 1]. *)
Record AudioBuffer := { frameCount : nat; bufferRate : R; channelData : list (list R) }.

Definition numberOfChannels (decoded : AudioBuffer) : nat := length (channelData decoded).

(** [for (let i = 0; i < len; i++) out[i] += ch[i] ?? 0]. *)
Definition addChannel (len : nat) (out ch : list R) : list R :=
  foldl (fun out i => Js.set out i (Js.get out i + Js.get ch i)) out (seq 0 len).

(** [decodeAudioFileToMono], from the buffer that [decodeAudioData] gives. *)
Definition decodeAudioFileToMono (decoded : AudioBuffer) : AudioCaptureResult :=
  let channels := numberOfChannels decoded in
  let len := frameCount decoded in
  if decide (channels = 1%nat) then
    {| samples := default [] (channelData decoded !! 0%nat); sampleRate := bufferRate decoded |}
  else
    let out := Js.zeros len in
    let out := foldl (addChannel len) out (channelData decoded) in
    let out := foldl (fun out i => Js.set out i (Js.get out i / INR channels)) out (seq 0 len) in
    {| samples := out; sampleRate := bufferRate decoded |}.

End AudioCapture.

(** ** src/pages/VoicePage.tsx *)

Module VoicePage.

(** The input of the speech model as [runAiOnce] prepares it from a
    recording.  (The rate of an audio context is positive, so the length
    [Math.round(captured.sampleRate * 1.0)] is no negative number.) *)
Definition fixed16k_recorded (captured : AudioCapture.AudioCaptureResult) : list R :=
  let rate := AudioCapture.sampleRate captured in
  let oneSec :=
    Audio.takeOrPadToLength (AudioCapture.samples captured)
                            (Z.to_nat (Js.Math_round (rate * 1.0))) in
  let resampled := Audio.resampleLinear oneSec rate (IZR MelSpectrogram.SAMPLE_RATE) in
  Audio.takeOrPadToLength resampled (Z.to_nat MelSpectrogram.SAMPLE_RATE).

(** The same as [runAiFromFile] prepares it from a decoded file. *)
Definition fixed16k_decoded (decoded : AudioCapture.AudioCaptureResult) : list R :=
  let resampled :=
    Audio.resampleLinear (AudioCapture.samples decoded) (AudioCapture.sampleRate decoded)
                         (IZR MelSpectrogram.SAMPLE_RATE) in
  let centered := Audio.takeCenterSegment resampled (Z.to_nat MelSpectrogram.SAMPLE_RATE) in
  Audio.takeOrPadToLength centered (Z.to_nat MelSpectrogram.SAMPLE_RATE).

(** A string of the language is the list of its UTF-16 code units. *)
Definition units (s : string) : list N := N_of_ascii <$> list_ascii_of_string s.

(** The own properties of [map], in the order in which [Object.keys] lists
    them (the keys that are integers in ascending order, then the others as
    they are written): the digits, the ten numerals U+96F6, U+4E00, U+4E8C,
    U+4E09, U+56DB, U+4E94, U+516D, U+4E03, U+516B, U+4E5D, and the English
    words. *)
Definition map : list (list N * nat) :=
  [ (units "0", 0); (units "1", 1); (units "2", 2); (units "3", 3); (units "4", 4);
    (units "5", 5); (units "6", 6); (units "7", 7); (units "8", 8); (units "9", 9);
    ([0x96F6%N], 0); ([0x4E00%N], 1); ([0x4E8C%N], 2); ([0x4E09%N], 3); ([0x56DB%N], 4);
    ([0x4E94%N], 5); ([0x516D%N], 6); ([0x4E03%N], 7); ([0x516B%N], 8); ([0x4E5D%N], 9);
    (units "zero", 0); (units "one", 1); (units "two", 2); (units "three", 3);
    (units "four", 4); (units "five", 5); (units "six", 6); (units "seven", 7);
    (units "eight", 8); (units "nine", 9) ]%nat.

(** The properties that [map], an object literal, inherits from
    [Object.prototype]; none of them is null or undefined. *)
Definition inherited : list (list N) :=
  units <$> [ "constructor"; "__defineGetter__"; "__defineSetter__"; "hasOwnProperty";
              "__lookupGetter__"; "__lookupSetter__"; "isPrototypeOf";
              "propertyIsEnumerable"; "toString"; "valueOf"; "__proto__";
              "toLocaleString" ]%string.

(** What [extractDigit] returns: a number, [null], or at run time (the
    type says number) a property inherited from [Object.prototype]. *)
Inductive Value :=
| Number (n : nat)
| Null
| Inherited (name : list N).

(** [map[k]] for an own property. *)
Fixpoint own (m : list (list N * nat)) (k : list N) : option nat :=
  match m with
  | [] => None
  | (k', v) :: m' => if decide (k' = k) then Some v else own m' k
  end.

(** [k in map]. *)
Definition has (k : list N) : bool :=
  bool_decide (is_Some (own map k)) || bool_decide (k ∈ inherited).

(** [map[k] ?? null]. *)
Definition lookup_or_null (k : list N) : Value :=
  match own map k with
  | Some v => Number v
  | None => if bool_decide (k ∈ inherited) then Inherited k else Null
  end.

(** [normalized.match(/[0-9]/)], then [Number(m[0])]. *)
Fixpoint matchDigit (s : list N) : option nat :=
  match s with
  | [] => None
  | c :: s' =>
      if ((48 <=? c) && (c <=? 57))%N then Some (N.to_nat (c - 48)) else matchDigit s'
  end.

(** [s.includes(k)]: [k] stands in [s] at some position. *)
Fixpoint startsWith (s k : list N) : bool :=
  match k, s with
  | [], _ => true
  | _ :: _, [] => false
  | a :: k', b :: s' => bool_decide (a = b) && startsWith s' k'
  end.

Fixpoint includes (s k : list N) : bool :=
  startsWith s k ||
  match s with
  | [] => false
  | _ :: s' => includes s' k
  end.

(** [for (const k of Object.keys(map)) if (k.length === 1 &&
    normalized.includes(k)) return map[k] ?? null]. *)
Fixpoint firstKeyIncluded (keys : list (list N)) (normalized : list N) : option (list N) :=
  match keys with
  | [] => None
  | k :: keys' =>
      if (length k =? 1)%nat && includes normalized k then Some k
      else firstKeyIncluded keys' normalized
  end.

Section ExtractDigit.

(** [String.prototype.trim] and [String.prototype.toLowerCase]. *)
Variable trim toLowerCase : list N -> list N.

Definition extractDigit (text : list N) : Value :=
  let normalized := toLowerCase (trim text) in
  if has normalized then lookup_or_null normalized
  else
    match matchDigit normalized with
    | Some d => Number d
    | None =>
        match firstKeyIncluded (fst <$> map) normalized with
        | Some k => lookup_or_null k
        | None => Null
        end
    end.

End ExtractDigit.

End VoicePage.

(** ** src/pages/HandwritingPage.tsx *)

Module HandwritingPage.

(** Where [loadImageToCanvas] draws an image of [iw] by [ih] pixels on a
    canvas of [cw] by [ch]: [(x, y, w, h)]. *)
Definition imagePlacement (cw ch iw ih : Z) : Z * Z * Z * Z :=
  let pad := Js.Math_round (IZR cw * 0.1) in
  let maxW := (cw - pad * 2)%Z in
  let maxH := (ch - pad * 2)%Z in
  let scale := Rmin (IZR maxW / IZR iw) (IZR maxH / IZR ih) in
  let w := Z.max 1 (Js.Math_round (IZR iw * scale)) in
  let h := Z.max 1 (Js.Math_round (IZR ih * scale)) in
  let x := Js.Math_floor (IZR (cw - w) / 2) in
  let y := Js.Math_floor (IZR (ch - h) / 2) in
  (x, y, w, h).

Section Drawing.

(** The pixels of the canvas, as [getImageData] reads and [putImageData]
    writes them. *)
Variable ImageData : Type.

(** The canvas filled white. *)
Variable white : ImageData.

(** The canvas and [historyRef.current], the oldest snapshot first. *)
Record Drawing := { canvas : ImageData; history : list ImageData }.

Definition snapshotForUndo (d : Drawing) : Drawing :=
  let h := history d ++ [canvas d] in
  {| canvas := canvas d;
     history := if decide (20 < length h)%nat then drop 1 h else h |}.

(** [const prev = historyRef.current.pop(); if (!prev) return;
    ctx.putImageData(prev, 0, 0)]. *)
Definition undo (d : Drawing) : Drawing :=
  match last (history d) with
  | None => d
  | Some prev => {| canvas := prev; history := take (length (history d) - 1) (history d) |}
  end.

Definition clearCanvas (d : Drawing) : Drawing := {| canvas := white; history := [] |}.

(** What the user does: press the pointer ([onPointerDown] takes a
    snapshot), move it ([onPointerMove] draws a segment, which changes the
    pixels in some way), load an image ([loadImageToCanvas] takes a snapshot,
    fills the canvas white and draws the image), undo, clear. *)
Inductive Action :=
| PointerDown
| PointerMove (stroke : ImageData -> ImageData)
| LoadImage (draw : ImageData -> ImageData)
| Undo
| Clear.

Definition perform (d : Drawing) (a : Action) : Drawing :=
  match a with
  | PointerDown => snapshotForUndo d
  | PointerMove stroke => {| canvas := stroke (canvas d); history := history d |}
  | LoadImage draw =>
      let d := snapshotForUndo d in
      {| canvas := draw white; history := history d |}
  | Undo => undo d
  | Clear => clearCanvas d
  end.

(** The page when it has been mounted: a white canvas, no snapshot. *)
Definition mounted : Drawing := {| canvas := white; history := [] |}.

End Drawing.

Arguments canvas {ImageData} _.
Arguments history {ImageData} _.
Arguments snapshotForUndo {ImageData} _.
Arguments undo {ImageData} _.
Arguments clearCanvas {ImageData} _ _.
Arguments PointerDown {ImageData}.
Arguments PointerMove {ImageData} _.
Arguments LoadImage {ImageData} _.
Arguments Undo {ImageData}.
Arguments Clear {ImageData}.
Arguments perform {ImageData} _ _ _.
Arguments mounted {ImageData} _.

End HandwritingPage.

(** ** The vocabulary of the specification *)

(** Complex numbers as pairs, for the discrete Fourier transform. *)
Module Cx.

Definition C : Type := R * R.

Definition zero : C := (0, 0).
Definition add (a b : C) : C := (a.1 + b.1, a.2 + b.2).
Definition sub (a b : C) : C := (a.1 - b.1, a.2 - b.2).
Definition mul (a b : C) : C := (a.1 * b.1 - a.2 * b.2, a.1 * b.2 + a.2 * b.1).

(** [exp (i t)]. *)
Definition cis (t : R) : C := (cos t, sin t).

(** The sum of [f 0 .. f (n - 1)]. *)
Fixpoint sum (n : nat) (f : nat -> C) : C :=
  match n with
  | O => zero
  | S n' => add (sum n' f) (f n')
  end.

End Cx.

(** [exp (-2 pi i k / len)]. *)
Definition twiddle (len k : nat) : Cx.C := Cx.cis (INR k * (-2 * PI / INR len)).

(** The unnormalized forward transform of the first [n] values of [x]:
    [dft x n k] is the sum over [t < n] of [x t * exp (-2 pi i k t / n)]. *)
Definition dft (x : nat -> Cx.C) (n k : nat) : Cx.C :=
  Cx.sum n (fun t => Cx.mul (x t) (twiddle n (t * k))).

(** The same transform in real and imaginary parts, on a pair of arrays:
    with [theta = -2 pi k t / n], the real part of entry [k] is the sum over
    [t] of [re[t] cos theta - im[t] sin theta], the imaginary part the sum
    of [re[t] sin theta + im[t] cos theta]. *)
Fixpoint real_sum (n : nat) (f : nat -> R) : R :=
  match n with
  | O => 0
  | S n' => real_sum n' f + f n'
  end.

Definition dft_angle (n k t : nat) : R := -2 * PI * INR k * INR t / INR n.

Definition dft_re (re im : list R) (k : nat) : R :=
  real_sum (length re)
    (fun t => Js.get re t * cos (dft_angle (length re) k t)
              - Js.get im t * sin (dft_angle (length re) k t)).

Definition dft_im (re im : list R) (k : nat) : R :=
  real_sum (length re)
    (fun t => Js.get re t * sin (dft_angle (length re) k t)
              + Js.get im t * cos (dft_angle (length re) k t)).

(** The complex value at an index of a pair of arrays. *)
Definition cget (re im : list R) (x : nat) : Cx.C := (Js.get re x, Js.get im x).

(** The mel spectrogram, entry by entry: the signal padded with [N_FFT / 2]
    zeros on both sides, the windowed sample [i] of frame [t], the power of
    bin [k] of that frame, and the energy of band [m] (from 0) in frame [t]. *)
Definition padded_signal (samples : list R) : list R :=
  Js.zeros (MelSpectrogram.N_FFT / 2) ++ samples ++ Js.zeros (MelSpectrogram.N_FFT / 2).

Definition frame_at (samples : list R) (t i : nat) : R :=
  Js.get (padded_signal samples) (t * MelSpectrogram.HOP_LENGTH + i)
  * Js.get (MelSpectrogram.hannWindow MelSpectrogram.N_FFT) i.

Definition power_at (samples : list R) (t k : nat) : R :=
  let z := dft (fun i => (frame_at samples t i, 0)) MelSpectrogram.N_FFT k in
  z.1 * z.1 + z.2 * z.2.

Definition mel_value (samples : list R) (m t : nat) : R :=
  real_sum MelSpectrogram.nFftBins
    (fun k => power_at samples t k * Js.get (MelSpectrogram.melFilter (m + 1)) k).

(** The number whose [p] low bits are those of [i] in reverse order. *)
Fixpoint bitrev (p : nat) (i : nat) : nat :=
  match p with
  | O => 0
  | S q => ((i mod 2) * 2 ^ q + bitrev q (i / 2))%nat
  end.

(** The sum of a vector, as the specification means it. *)
Definition vector_sum (xs : list R) : R := foldr Rplus 0 xs.

(** The label the engine [session] predicts for a sample, the number of
    samples of a list that it predicts right, and the matrix accumulated
    over a list. *)
Definition predicted (session : list R -> list R) (s : EvalPage.Sample) : nat :=
  EvalPage.argmax (session (EvalPage.normalize (EvalPage.pixels s))).

Definition correct_count (session : list R -> list R) (l : list EvalPage.Sample) : nat :=
  length (filter (fun s => predicted session s = EvalPage.label s) l).

Definition conf_after (session : list R -> list R) (l : list EvalPage.Sample)
  : EvalPage.Matrix :=
  foldl (fun m s => default m (EvalPage.accumulate m (EvalPage.label s) (predicted session s)))
        EvalPage.emptyConf l.

(** The number of samples processed when the page was last refreshed: every
    tenth sample and the last one refresh it. *)
Definition last_refresh (n k : nat) : nat :=
  if decide (k = n) then k else (10 * (k / 10))%nat.

(** The state of the run when the samples [pre], of a data set of [n]
    samples, have been processed. *)
Definition state_after (session : list R -> list R) (n : nat) (pre : list EvalPage.Sample)
  : EvalPage.Locals * EvalPage.Ui :=
  let shown := take (last_refresh n (length pre)) pre in
  ({| EvalPage.localCorrect := correct_count session pre;
      EvalPage.localConf := conf_after session pre |},
   {| EvalPage.done := last_refresh n (length pre); EvalPage.total := n;
      EvalPage.correct := correct_count session shown;
      EvalPage.conf := conf_after session shown |}).

(** A blank canvas: no pixel of the grid has ink above the threshold. *)
Definition blank (w h : nat) (data : list Z) : Prop :=
  forall (x y : nat) (v : Z),
    (x < w)%nat -> (y < h)%nat ->
    data !! ((y * w + x) * 4)%nat = Some v ->
    ~ (1 - IZR v / 255 > PreprocessMnist.threshold).

(** The arrays when the indices up to [m] have been visited: the entries
    of a pair of indices [x], [bitrev p x] are exchanged when the smaller of
    the two is at most [m]. *)
Definition partly_reversed (p m : nat) (a a' : list R) : Prop :=
  length a' = length a /\
  forall x, (x < 2 ^ p)%nat ->
    Js.get a' x = Js.get a (if decide (Nat.min x (bitrev p x) <= m)%nat then bitrev p x else x).

(** What one stage of block length [len] makes of the values [a]: the
    lower half of each block receives [u + w v], the upper half [u - w v]. *)
Definition stage_fn (len : nat) (a : nat -> Cx.C) (x : nat) : Cx.C :=
  let half := (len / 2)%nat in
  let j := (x mod len)%nat in
  if decide (j < half)%nat
  then Cx.add (a x) (Cx.mul (twiddle len j) (a (x + half)%nat))
  else Cx.sub (a (x - half)%nat) (Cx.mul (twiddle len (j - half)) (a x)).

(** The value that the block starting at [i] leaves at an index of the
    block. *)
Definition block_value (len i : nat) (a : nat -> Cx.C) (x : nat) : Cx.C :=
  if decide (x < i + len / 2)%nat
  then Cx.add (a x) (Cx.mul (twiddle len (x - i)) (a (x + len / 2)%nat))
  else Cx.sub (a (x - len / 2)%nat) (Cx.mul (twiddle len (x - i - len / 2)) (a x)).

(** The arrays after the stages of block length [2, 4, ..., 2^s], of a
    transform of [2^p] values [a]: block [b] holds the transform of the
    [2^s] values of [a] whose indices end in the [p - s] bits of [b]
    reversed. *)
Definition transformed (p s : nat) (a A : nat -> Cx.C) : Prop :=
  forall b k, (b < 2 ^ (p - s))%nat -> (k < 2 ^ s)%nat ->
    A (b * 2 ^ s + k)%nat
    = dft (fun u => a (u * 2 ^ (p - s) + bitrev (p - s) b)%nat) (2 ^ s) k.

(** The bin boundary [bin[i]] in closed form. *)
Definition mel_point (i : nat) : R :=
  let mMin := MelSpectrogram.hzToMel 0 in
  let mMax := MelSpectrogram.hzToMel (IZR MelSpectrogram.SAMPLE_RATE / 2) in
  mMin + (INR i * (mMax - mMin)) / INR (MelSpectrogram.N_MELS + 1).

Definition bin_of (i : nat) : Z :=
  Js.Math_floor (INR (MelSpectrogram.N_FFT + 1) * MelSpectrogram.melToHz (mel_point i)
                 / IZR MelSpectrogram.SAMPLE_RATE).

(** *** For the further properties of the code *)

(** The mean of the samples [i] of the channels. *)
Definition channel_mean (channels : list (list R)) (i : nat) : R :=
  vector_sum ((fun ch => Js.get ch i) <$> channels) / INR (length channels).

(** A pixel of the grid with ink above the threshold. *)
Definition inked (w h : nat) (data : list Z) (x y : nat) : Prop :=
  (x < w)%nat /\ (y < h)%nat /\
  exists v, data !! ((y * w + x) * 4)%nat = Some v /\
            1 - IZR v / 255 > PreprocessMnist.threshold.

(** The box before the scan, a box whose four bounds are each the
    coordinate of some pixel with ink, and a box with a pixel inside. *)
Definition empty_box (w h : nat) : PreprocessMnist.Box :=
  {| PreprocessMnist.minX := Z.of_nat w; PreprocessMnist.minY := Z.of_nat h;
     PreprocessMnist.maxX := -1; PreprocessMnist.maxY := -1 |}.

Definition attained (w h : nat) (data : list Z) (b : PreprocessMnist.Box) : Prop :=
  (exists x y, inked w h data x y /\ PreprocessMnist.minX b = Z.of_nat x) /\
  (exists x y, inked w h data x y /\ PreprocessMnist.maxX b = Z.of_nat x) /\
  (exists x y, inked w h data x y /\ PreprocessMnist.minY b = Z.of_nat y) /\
  (exists x y, inked w h data x y /\ PreprocessMnist.maxY b = Z.of_nat y).

Definition encloses (b : PreprocessMnist.Box) (x y : nat) : Prop :=
  (PreprocessMnist.minX b <= Z.of_nat x <= PreprocessMnist.maxX b)%Z /\
  (PreprocessMnist.minY b <= Z.of_nat y <= PreprocessMnist.maxY b)%Z.

(** The box when the pixels [seen] have been scanned. *)
Definition scanned (w h : nat) (data : list Z) (seen : nat -> nat -> Prop)
  (b : PreprocessMnist.Box) : Prop :=
  (forall x y, seen x y -> inked w h data x y -> encloses b x y) /\
  (b = empty_box w h \/ attained w h data b).

(** The number of samples of a list with the label [y] that the engine
    takes for [p]. *)
Definition hits (session : list R -> list R) (l : list EvalPage.Sample) (y p : nat) : nat :=
  length (filter (fun s => EvalPage.label s = y /\ predicted session s = p) l).

(** The order of the list that the pages show: the larger probability
    first, and of two equal probabilities the smaller digit. *)
Definition ranks_before (a b : Scoring.Prob) : Prop :=
  Scoring.p a > Scoring.p b \/
  (Scoring.p a = Scoring.p b /\ (Scoring.digit a < Scoring.digit b)%nat).

(** The entries that are sorted: the probabilities with their indices. *)
Definition indexed (probs : list R) : list Scoring.Prob :=
  imap (fun d v => {| Scoring.digit := d; Scoring.p := v |}) probs.

(** A code unit that is an ASCII digit, and the ten numerals with their
    values. *)
Definition isDigit (c : N) : Prop := (48 <= c <= 57)%N.

Definition numerals : list (N * nat) :=
  [ (0x96F6%N, 0); (0x4E00%N, 1); (0x4E8C%N, 2); (0x4E09%N, 3); (0x56DB%N, 4);
    (0x4E94%N, 5); (0x516D%N, 6); (0x4E03%N, 7); (0x516B%N, 8); (0x4E5D%N, 9) ]%nat.

(** The actions of one stroke: the pointer pressed, then moved. *)
Definition stroke_actions {ImageData : Type} (moves : list (ImageData -> ImageData))
  : list (HandwritingPage.Action ImageData) :=
  HandwritingPage.PointerDown :: (HandwritingPage.PointerMove <$> moves).

(** ** Inputs of the examples *)

(** An array of [2^30] zeros. *)
Definition zeros_2_30 : list R := replicate (2 ^ 30) 0.

(** An engine that always answers with the same scores, the first the
    largest, and a data set of twenty samples of the digit 0. *)
Definition always_zero (x : list R) : list R := [1; 0; 0; 0; 0; 0; 0; 0; 0; 0].

Definition twenty_zeros : list EvalPage.Sample :=
  replicate 20 {| EvalPage.label := 0; EvalPage.pixels := [] |}.

(** A sample with a label that is no digit. *)
Definition label_ten : EvalPage.Sample := {| EvalPage.label := 10; EvalPage.pixels := [] |}.

(** A white canvas of one pixel, and a browser in which every new canvas
    gives a context ([ok]), or none does. *)
Definition white_pixel : PreprocessMnist.Canvas :=
  {| PreprocessMnist.width := 1; PreprocessMnist.height := 1;
     PreprocessMnist.context2d := Some [255; 255; 255; 255]%Z |}.

Definition plain_browser (ok : bool) : PreprocessMnist.Browser :=
  {| PreprocessMnist.newContext2d := fun _ _ => ok;
     PreprocessMnist.composed := fun _ _ _ _ => replicate (28 * 28 * 4) 255%Z |}.


(** A canvas of one black pixel. *)
Definition dark_pixel : PreprocessMnist.Canvas :=
  {| PreprocessMnist.width := 1; PreprocessMnist.height := 1;
     PreprocessMnist.context2d := Some [0; 0; 0; 255]%Z |}.

(* ================================================================== *)
(** * Part II: the properties                                          *)
(* ================================================================== *)

Section AudioProperties.

Import Audio.

Lemma resampleLinear_same_rate (input : list R) (rate : R) :
  resampleLinear input rate rate = input.
Proof.
  unfold resampleLinear. destruct (Req_dec_T rate rate); [reflexivity | contradiction].
Qed.

Lemma resampleLinear_length_diff (input : list R) (inputRate outputRate : R) :
  inputRate <> outputRate ->
  length (resampleLinear input inputRate outputRate) =
  Z.to_nat (Z.max 1 (Js.Math_round (INR (length input) * (outputRate / inputRate)))).
Proof.
  intros Hne. unfold resampleLinear.
  destruct (Req_dec_T inputRate outputRate) as [e | _]; [contradiction |].
  cbv zeta. rewrite length_fmap, length_seq. reflexivity.
Qed.





(** Two samples resampled to twice the rate. *)
Example resampleLinear_doubling : resampleLinear [0; 1] 1 2 = [0; 1 / 2; 1; 1].
Proof.
  unfold resampleLinear.
  destruct (Req_dec_T 1 2) as [E | _]; [lra |]. cbv zeta.
  assert (Hn : Js.Math_round (INR (length [0; 1]) * (2 / 1)) = 4%Z).
  { unfold Js.Math_round. apply Zfloor_eq. simpl. lra. }
  rewrite Hn. change (Z.to_nat (Z.max 1 4)) with 4%nat.
  cbn [seq fmap list_fmap].
  assert (F0 : Js.Math_floor (INR 0 / (2 / 1)) = 0%Z) by (apply Zfloor_eq; simpl; lra).
  assert (F1 : Js.Math_floor (INR 1 / (2 / 1)) = 0%Z) by (apply Zfloor_eq; simpl; lra).
  assert (F2 : Js.Math_floor (INR 2 / (2 / 1)) = 1%Z) by (apply Zfloor_eq; simpl; lra).
  assert (F3 : Js.Math_floor (INR 3 / (2 / 1)) = 1%Z) by (apply Zfloor_eq; simpl; lra).
  rewrite F0, F1, F2, F3. unfold Js.at_. simpl.
  repeat f_equal; lra.
Qed.

End AudioProperties.

Section ScoringProperties.

Import Scoring.

Lemma foldl_Rplus_shift (xs : list R) (a : R) : foldl Rplus a xs = a + foldl Rplus 0 xs.
Proof.
  revert a. induction xs as [| x xs IH]; intros a; simpl.
  - lra.
  - rewrite IH, (IH (0 + x)). lra.
Qed.

Lemma reduce_add_sum (xs : list R) : reduce_add xs = vector_sum xs.
Proof.
  unfold reduce_add. induction xs as [| x xs IH]; simpl; [reflexivity |].
  rewrite foldl_Rplus_shift, IH. lra.
Qed.

Lemma foldl_Rmax_ge_init (xs : list R) (a : R) : a <= foldl Rmax a xs.
Proof.
  revert a. induction xs as [| x xs IH]; intros a; simpl; [lra |].
  eapply Rle_trans; [apply (Rmax_l a x) | apply IH].
Qed.

Lemma foldl_Rmax_ge_elem (xs : list R) (a v : R) : In v xs -> v <= foldl Rmax a xs.
Proof.
  revert a. induction xs as [| x xs IH]; intros a; simpl; [tauto |].
  intros [-> | Hin].
  - eapply Rle_trans; [apply (Rmax_r a v) | apply foldl_Rmax_ge_init].
  - apply IH, Hin.
Qed.

Lemma foldl_Rmax_in (xs : list R) (a : R) : foldl Rmax a xs = a \/ In (foldl Rmax a xs) xs.
Proof.
  revert a. induction xs as [| x xs IH]; intros a; simpl; [tauto |].
  destruct (IH (Rmax a x)) as [E | Hin]; [| tauto].
  rewrite E. unfold Rmax. destruct (Rle_dec a x); tauto.
Qed.

(** The maximum that [softmax] subtracts is an entry of the vector and
    bounds every entry. *)
Lemma Math_max_spec (logits : list R) (m : R) :
  Math_max logits = Some m -> In m logits /\ forall v, In v logits -> v <= m.
Proof.
  destruct logits as [| x xs]; simpl; [discriminate |].
  intros [= <-]. split.
  - destruct (foldl_Rmax_in xs x) as [-> | H]; tauto.
  - intros v [<- | Hv]; [apply foldl_Rmax_ge_init | apply foldl_Rmax_ge_elem, Hv].
Qed.

Lemma Math_max_nonempty (logits : list R) :
  logits <> [] -> exists m, Math_max logits = Some m.
Proof. destruct logits; [congruence | eexists; reflexivity]. Qed.

Lemma Math_max_shift (logits : list R) (c m : R) :
  Math_max logits = Some m ->
  Math_max ((fun v => v + c) <$> logits) = Some (m + c).
Proof.
  destruct logits as [| x xs]; simpl; [discriminate |].
  intros [= <-]. f_equal. revert x.
  induction xs as [| y ys IH]; intros x; simpl; [reflexivity |].
  rewrite <- IH. f_equal.
  unfold Rmax. destruct (Rle_dec (x + c) (y + c)), (Rle_dec x y); lra.
Qed.

Lemma vector_sum_nonneg (xs : list R) : Forall (fun e => 0 <= e) xs -> 0 <= vector_sum xs.
Proof. induction 1; simpl; lra. Qed.

Lemma vector_sum_ge_elem (xs : list R) (e : R) :
  Forall (fun e => 0 <= e) xs -> In e xs -> e <= vector_sum xs.
Proof.
  induction 1 as [| x xs Hx Hxs IH]; simpl; [tauto |].
  pose proof (vector_sum_nonneg xs Hxs).
  intros [-> | Hin]; [lra | specialize (IH Hin); lra].
Qed.

Lemma vector_sum_div (xs : list R) (d : R) :
  vector_sum ((fun e => e / d) <$> xs) = vector_sum xs / d.
Proof.
  induction xs as [| x xs IH]; [simpl; lra |].
  rewrite fmap_cons. unfold vector_sum in *. cbn [foldr]. rewrite IH. lra.
Qed.

(** The exponentials that [softmax] sums: each is positive, and the one of
    the maximal logit is [exp 0 = 1]. *)
Lemma exps_positive (logits : list R) (m : R) :
  Forall (fun e => 0 <= e) ((fun v => exp (v - m)) <$> logits).
Proof.
  apply Forall_fmap, Forall_forall. intros v _. simpl. left. apply exp_pos.
Qed.

Lemma softmax_denominator_ge_1 (logits : list R) (m : R) :
  Math_max logits = Some m ->
  1 <= reduce_add ((fun v => exp (v - m)) <$> logits).
Proof.
  intros Hm. destruct (Math_max_spec _ _ Hm) as [Hin _].
  rewrite reduce_add_sum.
  apply vector_sum_ge_elem; [apply exps_positive |].
  apply list_elem_of_In, list_elem_of_fmap. exists m. split.
  - replace (m - m) with 0 by lra. symmetry. apply exp_0.
  - apply list_elem_of_In, Hin.
Qed.

Lemma or_one_nonzero (sum : R) : sum <> 0 -> or_one sum = sum.
Proof. intros H. unfold or_one. destruct (Req_dec_T sum 0); [contradiction | reflexivity]. Qed.

Lemma softmax_unfold (logits : list R) (m : R) :
  Math_max logits = Some m ->
  softmax logits =
  (fun e => e / reduce_add ((fun v => exp (v - m)) <$> logits)) <$>
    ((fun v => exp (v - m)) <$> logits).
Proof.
  intros Hm. unfold softmax. rewrite Hm. cbv zeta.
  pose proof (softmax_denominator_ge_1 _ _ Hm).
  rewrite or_one_nonzero by lra. reflexivity.
Qed.

Lemma softmax_sums_to_1 (logits : list R) :
  logits <> [] -> vector_sum (softmax logits) = 1.
Proof.
  intros Hne. destruct (Math_max_nonempty _ Hne) as [m Hm].
  rewrite (softmax_unfold _ _ Hm), vector_sum_div, <- reduce_add_sum.
  pose proof (softmax_denominator_ge_1 _ _ Hm). field. lra.
Qed.

Lemma softmax_shift (logits : list R) (c : R) :
  softmax ((fun v => v + c) <$> logits) = softmax logits.
Proof.
  destruct logits as [| x xs] eqn:E; [reflexivity |]. rewrite <- E.
  destruct (Math_max_nonempty logits) as [m Hm]; [subst; discriminate |].
  rewrite (softmax_unfold _ _ (Math_max_shift _ c _ Hm)), (softmax_unfold _ _ Hm).
  assert (Hexps : (fun v => exp (v - (m + c))) <$> ((fun v => v + c) <$> logits)
                  = (fun v => exp (v - m)) <$> logits).
  { rewrite <- list_fmap_compose. apply list_fmap_ext. intros _ v _. simpl. f_equal. lra. }
  rewrite Hexps. reflexivity.
Qed.

(** C2.  For every vector of ten logits the output of [softmax] sums to 1
    (exactly 1 in real arithmetic), and adding one constant to every logit
    leaves the output unchanged. *)
Theorem softmax_sum_and_shift (logits : list R) :
  length logits = 10%nat ->
  vector_sum (softmax logits) = 1 /\
  forall c : R, softmax ((fun v => v + c) <$> logits) = softmax logits.
Proof.
  intros Hlen. split.
  - apply softmax_sums_to_1. intros ->. discriminate.
  - intros c. apply softmax_shift.
Qed.

Lemma softmax_sum_and_shift_witness :
  vector_sum (softmax [5; 1; 0; 0; 0; 0; 0; 0; 0; 0]) = 1 /\
  forall c : R, softmax ((fun v => v + c) <$> [5; 1; 0; 0; 0; 0; 0; 0; 0; 0])
                = softmax [5; 1; 0; 0; 0; 0; 0; 0; 0; 0].
Proof. apply softmax_sum_and_shift. reflexivity. Defined.

(** C10.  For every non-empty vector of logits the denominator computed
    inside [softmax] is at least 1, so that [sum || 1] is [sum] (the
    fallback is not taken and no division by zero produces a NaN), and every
    probability returned lies between 0 and 1. *)
Theorem softmax_denominator_safe (logits : list R) :
  logits <> [] ->
  exists max : R,
    Math_max logits = Some max /\
    let sum := reduce_add ((fun v => exp (v - max)) <$> logits) in
    1 <= sum /\ or_one sum = sum /\
    Forall (fun p => 0 <= p <= 1) (softmax logits).
Proof.
  intros Hne. destruct (Math_max_nonempty _ Hne) as [m Hm].
  exists m. split; [exact Hm |]. cbv zeta.
  pose proof (softmax_denominator_ge_1 _ _ Hm) as Hge.
  split; [exact Hge |]. split; [apply or_one_nonzero; lra |].
  rewrite (softmax_unfold _ _ Hm).
  apply Forall_fmap, Forall_forall. intros e He. simpl.
  assert (Hpos : Forall (fun e => 0 <= e) ((fun v => exp (v - m)) <$> logits))
    by apply exps_positive.
  assert (0 <= e) by (rewrite Forall_forall in Hpos; apply Hpos, He).
  assert (e <= reduce_add ((fun v => exp (v - m)) <$> logits)).
  { rewrite reduce_add_sum. apply vector_sum_ge_elem; [exact Hpos |].
    apply list_elem_of_In, He. }
  split.
  - apply Rmult_le_pos; [assumption |]. left. apply Rinv_0_lt_compat. lra.
  - apply Rmult_le_reg_r with (r := reduce_add ((fun v => exp (v - m)) <$> logits)); [lra |].
    unfold Rdiv. rewrite Rmult_assoc, Rinv_l by lra. lra.
Qed.

Lemma softmax_denominator_safe_witness :
  exists max : R,
    Math_max [5; 1] = Some max /\
    let sum := reduce_add ((fun v => exp (v - max)) <$> [5; 1]) in
    1 <= sum /\ or_one sum = sum /\
    Forall (fun p => 0 <= p <= 1) (softmax [5; 1]).
Proof. apply softmax_denominator_safe. discriminate. Defined.

(** Two equal logits share the probability. *)
Example softmax_two_equal : softmax [0; 0] = [1 / 2; 1 / 2].
Proof.
  assert (Hm : Math_max [0; 0] = Some 0).
  { simpl. f_equal. unfold Rmax. destruct (Rle_dec 0 0); reflexivity. }
  rewrite (softmax_unfold _ _ Hm). unfold reduce_add. simpl.
  replace (0 - 0) with 0 by lra. rewrite exp_0.
  repeat f_equal; lra.
Qed.

End ScoringProperties.

Section EvalProperties.

Import EvalPage.

Variable session : list R -> list R.

Lemma sum_list_append (l k : list nat) :
  sum_list (l ++ k) = (sum_list l + sum_list k)%nat.
Proof. induction l as [| x l IH]; simpl; [reflexivity | rewrite IH; lia]. Qed.

Lemma sum_list_insert (l : list nat) (i x a : nat) :
  l !! i = Some a -> (sum_list (<[i := x]> l) + a = sum_list l + x)%nat.
Proof.
  intros Hi.
  assert (Hlt : (i < length l)%nat) by (apply lookup_lt_is_Some; eauto).
  rewrite insert_take_drop by exact Hlt.
  rewrite <- (take_drop_middle l i a Hi) at 3.
  rewrite !sum_list_append. simpl. lia.
Qed.

Lemma sum_list_seq_bump (f g : nat -> nat) (n y d : nat) :
  (y < n)%nat ->
  (forall i, i <> y -> g i = f i) -> g y = (f y + d)%nat ->
  sum_list (g <$> seq 0 n) = (sum_list (f <$> seq 0 n) + d)%nat.
Proof.
  intros Hy Hne Hy'. induction n as [| n IH]; [lia |].
  rewrite seq_S, !fmap_app, !sum_list_append. simpl.
  destruct (decide (y = n)) as [-> | Hyn].
  - rewrite Hy'.
    assert (E : g <$> seq 0 n = f <$> seq 0 n).
    { apply list_fmap_ext. intros j i Hi. apply lookup_seq in Hi. apply Hne. lia. }
    rewrite E. lia.
  - rewrite IH by lia. rewrite (Hne n) by congruence. lia.
Qed.

Lemma cell_row_set (row : Row) (p v q : nat) :
  cell (row_set row p v) q = if decide (p = q) then v else cell row q.
Proof.
  unfold cell, row_set. destruct (decide (p < length row)%nat) as [Hlt | Hge].
  - rewrite list_lookup_insert.
    destruct (decide (p = q)) as [-> | Hne].
    + rewrite decide_True by (split; [reflexivity | exact Hlt]). reflexivity.
    + rewrite decide_False by (intros [? _]; contradiction). reflexivity.
  - destruct (decide (p = q)) as [<- | Hne].
    + rewrite lookup_app_r by lia.
      rewrite lookup_app_r by (rewrite length_replicate; lia).
      rewrite length_replicate.
      replace (p - length row - (p - length row))%nat with 0%nat by lia. reflexivity.
    + destruct (decide (q < length row)%nat) as [Hq | Hq].
      * rewrite lookup_app_l by exact Hq. reflexivity.
      * rewrite (proj2 (lookup_ge_None row q)) by lia.
        rewrite lookup_app_r by lia.
        destruct (decide (q - length row < p - length row)%nat) as [Hq' | Hq'].
        -- rewrite lookup_app_l by (rewrite length_replicate; exact Hq').
           rewrite lookup_replicate_2 by exact Hq'. reflexivity.
        -- rewrite lookup_app_r by (rewrite length_replicate; lia).
           rewrite length_replicate.
           destruct (q - length row - (p - length row))%nat as [| k] eqn:E; [lia |].
           reflexivity.
Qed.

Lemma row_sum_row_set (row : Row) (p : nat) :
  row_sum (row_set row p (cell row p + 1)) = (row_sum row + 1)%nat.
Proof.
  unfold row_sum, row_set. destruct (decide (p < length row)%nat) as [Hlt | Hge].
  - destruct (lookup_lt_is_Some_2 row p Hlt) as [o Ho].
    rewrite list_fmap_insert.
    assert (Hc : (default 0%nat <$> row) !! p = Some (cell row p)).
    { rewrite list_lookup_fmap. unfold cell. rewrite Ho. reflexivity. }
    pose proof (sum_list_insert _ p (cell row p + 1)%nat _ Hc) as H.
    change (default 0%nat (Some (cell row p + 1)%nat)) with (cell row p + 1)%nat. lia.
  - assert (Hc : cell row p = 0%nat).
    { unfold cell. rewrite (proj2 (lookup_ge_None row p)) by lia. reflexivity. }
    rewrite !fmap_app, !sum_list_append, fmap_replicate, sum_list_replicate, Hc. simpl. lia.
Qed.

Lemma accumulate_spec (m : Matrix) (y pred : nat) :
  (y < length m)%nat ->
  exists m', accumulate m y pred = Some m' /\
             length m' = length m /\
             cells_sum m' = (cells_sum m + 1)%nat /\
             diagonal_sum m' = (diagonal_sum m + if decide (pred = y) then 1 else 0)%nat.
Proof.
  intros Hy. destruct (lookup_lt_is_Some_2 m y Hy) as [row Hrow].
  unfold accumulate. rewrite Hrow. eexists. split; [reflexivity |].
  split; [apply length_insert |]. split.
  - unfold cells_sum. rewrite list_fmap_insert.
    assert (Hc : (row_sum <$> m) !! y = Some (row_sum row))
      by (rewrite list_lookup_fmap, Hrow; reflexivity).
    pose proof (sum_list_insert _ y (row_sum (row_set row pred (cell row pred + 1))) _ Hc) as H.
    rewrite row_sum_row_set in H |- *. lia.
  - unfold diagonal_sum. rewrite length_insert.
    apply sum_list_seq_bump with (y := y); [exact Hy | |].
    + intros i Hi. rewrite list_lookup_insert_ne by congruence. reflexivity.
    + rewrite list_lookup_insert_eq by exact Hy. rewrite Hrow. simpl.
      rewrite cell_row_set. destruct (decide (pred = y)); subst; lia.
Qed.

Lemma correct_count_snoc (l : list Sample) (s : Sample) :
  correct_count session (l ++ [s]) =
  (correct_count session l + if decide (predicted session s = label s) then 1 else 0)%nat.
Proof.
  unfold correct_count. rewrite filter_app, length_app. f_equal.
  rewrite filter_cons. destruct (decide (predicted session s = label s)); reflexivity.
Qed.

(** The matrix accumulated over a list of samples with labels from 0 to 9. *)
Lemma conf_after_spec (l : list Sample) :
  Forall (fun s => (label s < 10)%nat) l ->
  length (conf_after session l) = 10%nat /\
  cells_sum (conf_after session l) = length l /\
  diagonal_sum (conf_after session l) = correct_count session l.
Proof.
  induction l as [| s l IH] using rev_ind; intros Hl.
  - repeat split.
  - apply Forall_app in Hl as [Hl Hs]. rewrite Forall_singleton in Hs.
    destruct (IH Hl) as (Hlen & Hsum & Hdiag).
    destruct (accumulate_spec (conf_after session l) (label s) (predicted session s))
      as (m' & E & Hlen' & Hsum' & Hdiag'); [rewrite Hlen; exact Hs |].
    assert (Em : conf_after session (l ++ [s]) = m').
    { unfold conf_after. rewrite foldl_snoc. fold (conf_after session l). rewrite E. reflexivity. }
    rewrite Em, Hlen', Hsum', Hdiag', Hlen, Hsum, Hdiag, correct_count_snoc, length_app.
    simpl. repeat split; lia.
Qed.

Lemma conf_after_snoc (l : list Sample) (s : Sample) :
  Forall (fun s => (label s < 10)%nat) l -> (label s < 10)%nat ->
  accumulate (conf_after session l) (label s) (predicted session s) = Some (conf_after session (l ++ [s])).
Proof.
  intros Hl Hs. destruct (conf_after_spec l Hl) as (Hlen & _).
  destruct (accumulate_spec (conf_after session l) (label s) (predicted session s)) as (m' & E & _);
    [rewrite Hlen; exact Hs |].
  unfold conf_after at 2. rewrite foldl_snoc. fold (conf_after session l). rewrite E. reflexivity.
Qed.

Lemma last_refresh_le (n k : nat) : (last_refresh n k <= k)%nat.
Proof.
  unfold last_refresh. destruct (decide (k = n)); [lia |].
  pose proof (Nat.Div0.mul_div_le k 10). lia.
Qed.

Lemma step_state_after (n : nat) (pre : list Sample) (s : Sample) :
  Forall (fun s => (label s < 10)%nat) pre -> (label s < 10)%nat ->
  (length pre < n)%nat ->
  step session n (state_after session n pre) (length pre) s = Some (state_after session n (pre ++ [s])).
Proof.
  intros Hpre Hs Hlt. unfold step, state_after. cbv zeta.
  fold (predicted session s). cbn [localConf localCorrect total].
  rewrite (conf_after_snoc pre s Hpre Hs).
  rewrite length_app. simpl length.
  assert (Hk : (if decide (predicted session s = label s) then S (correct_count session pre) else correct_count session pre)
               = correct_count session (pre ++ [s])).
  { rewrite correct_count_snoc. destruct (decide (predicted session s = label s)); lia. }
  rewrite Hk.
  destruct (decide ((length pre + 1) mod 10 = 0 \/ length pre + 1 = n)%nat) as [Hup | Hno].
  - assert (E : last_refresh n (length pre + 1) = (length pre + 1)%nat).
    { unfold last_refresh. destruct (decide (length pre + 1 = n)%nat); [reflexivity |].
      destruct Hup as [Hup | Hup]; [| contradiction].
      pose proof (Nat.div_mod_eq (length pre + 1) 10). lia. }
    rewrite E. rewrite firstn_all2 by (rewrite length_app; simpl; lia). reflexivity.
  - assert (E : last_refresh n (length pre + 1) = last_refresh n (length pre)).
    { unfold last_refresh.
      destruct (decide (length pre + 1 = n)%nat); [tauto |].
      destruct (decide (length pre = n)); [lia |].
      pose proof (Nat.div_mod_eq (length pre + 1) 10).
      pose proof (Nat.div_mod_eq (length pre) 10).
      pose proof (Nat.mod_upper_bound (length pre + 1) 10).
      pose proof (Nat.mod_upper_bound (length pre) 10).
      assert ((length pre + 1) mod 10 <> 0)%nat by tauto. lia. }
    rewrite E. rewrite take_app_le by apply last_refresh_le. reflexivity.
Qed.

Lemma loop_state_after (n : nat) (rest pre : list Sample) :
  Forall (fun s => (label s < 10)%nat) (pre ++ rest) ->
  (length (pre ++ rest) <= n)%nat ->
  loop session n (length pre) rest (state_after session n pre) = Some (state_after session n (pre ++ rest)).
Proof.
  revert pre. induction rest as [| s rest IH]; intros pre Hl Hn.
  - rewrite app_nil_r. reflexivity.
  - cbn [loop].
    apply Forall_app in Hl as Hl'. destruct Hl' as [Hpre Hrest].
    apply Forall_cons in Hrest as [Hs Hrest].
    rewrite length_app in Hn. simpl in Hn.
    rewrite step_state_after by (try assumption; lia).
    replace (S (length pre)) with (length (pre ++ [s])) by (rewrite length_app; simpl; lia).
    replace (pre ++ s :: rest) with ((pre ++ [s]) ++ rest) in * by (rewrite <- app_assoc; reflexivity).
    apply IH; [exact Hl |]. rewrite !length_app. simpl. lia.
Qed.

(** The run in closed form. *)
Lemma runEval_upto_state (samples : list Sample) (k : nat) :
  Forall (fun s => (label s < 10)%nat) samples -> (k <= length samples)%nat ->
  runEval_upto session samples k = Some (state_after session (length samples) (take k samples)).
Proof.
  intros Hl Hk. unfold runEval_upto.
  assert (E : start samples = state_after session (length samples) []).
  { unfold start, state_after, last_refresh. simpl length.
    destruct (decide (0%nat = length samples)); reflexivity. }
  rewrite E.
  apply (loop_state_after (length samples) (take k samples) []).
  - simpl. apply Forall_take, Hl.
  - simpl. rewrite length_take. lia.
Qed.

(** C4.  From the all-zero 10 x 10 matrix that a run starts with, when [k]
    samples (with labels from 0 to 9) have been accumulated the cells of the
    matrix sum to [k], and its diagonal sums to the number of those samples
    whose predicted label equals the true one. *)
Theorem confusion_matrix_sums (samples : list Sample) (k : nat) :
  Forall (fun s => (label s < 10)%nat) samples -> (k <= length samples)%nat ->
  exists loc ui,
    runEval_upto session samples k = Some (loc, ui) /\
    cells_sum (localConf loc) = k /\
    diagonal_sum (localConf loc) = correct_count session (take k samples).
Proof.
  intros Hl Hk. rewrite (runEval_upto_state samples k Hl Hk).
  eexists _, _. split; [reflexivity |]. cbn [localConf].
  destruct (conf_after_spec (take k samples)) as (_ & Hsum & Hdiag);
    [apply Forall_take, Hl |].
  rewrite Hsum, Hdiag, length_take. split; [lia | reflexivity].
Qed.

(** C5, as amended.  When [k >= 1] samples of a data set of [n] have been
    processed, the accuracy that the page reports is 100 times the diagonal
    sum of the matrix it shows, divided by [n], the size of the data set; the
    matrix it shows is the one accumulated when the page was last refreshed
    (every tenth sample, and the last).  Once the run is complete the
    reported accuracy is 100 times the diagonal sum of the confusion matrix
    divided by the number of samples processed. *)
Theorem accuracy_reported (samples : list Sample) (k : nat) :
  Forall (fun s => (label s < 10)%nat) samples -> (1 <= k <= length samples)%nat ->
  exists loc ui,
    runEval_upto session samples k = Some (loc, ui) /\
    conf ui = conf_after session (take (last_refresh (length samples) k) samples) /\
    accuracy ui = INR (diagonal_sum (conf ui)) / INR (length samples) * 100 /\
    (k = length samples ->
     accuracy ui = INR (diagonal_sum (localConf loc)) / INR k * 100).
Proof.
  intros Hl [Hk1 Hk]. rewrite (runEval_upto_state samples k Hl Hk).
  eexists _, _. split; [reflexivity |]. cbn [localConf conf].
  rewrite length_take, Nat.min_l by exact Hk.
  pose proof (last_refresh_le (length samples) k) as Hr.
  rewrite take_take, Nat.min_l by exact Hr.
  split; [reflexivity |].
  assert (Hacc : forall shown,
             Forall (fun s => (label s < 10)%nat) shown ->
             accuracy {| done := last_refresh (length samples) k; total := length samples;
                         correct := correct_count session shown; conf := conf_after session shown |}
             = INR (diagonal_sum (conf_after session shown)) / INR (length samples) * 100).
  { intros shown Hshown. unfold accuracy. cbn [total correct].
    destruct (decide (length samples = 0%nat)); [lia |].
    destruct (conf_after_spec shown Hshown) as (_ & _ & ->). reflexivity. }
  split.
  - apply Hacc, Forall_take, Hl.
  - intros ->. rewrite Hacc by apply Forall_take, Hl.
    unfold last_refresh. rewrite decide_True by reflexivity.
    rewrite firstn_all. reflexivity.
Qed.

End EvalProperties.

Lemma argmax_always_zero (x : list R) : EvalPage.argmax (always_zero x) = 0%nat.
Proof.
  unfold EvalPage.argmax, always_zero. simpl.
  unfold EvalPage.argmax_step, Js.get. simpl.
  repeat (destruct (Rgt_dec 0 1) as [H | _]; [lra |]). reflexivity.
Qed.

Lemma twenty_zeros_labels :
  Forall (fun s => (EvalPage.label s < 10)%nat) twenty_zeros.
Proof. apply Forall_replicate. simpl. lia. Qed.

Lemma correct_count_always_zero (k : nat) :
  correct_count always_zero (replicate k {| EvalPage.label := 0; EvalPage.pixels := [] |}) = k.
Proof.
  unfold correct_count. induction k as [| k IH]; [reflexivity |].
  simpl replicate. rewrite filter_cons.
  rewrite decide_True by (unfold predicted; apply argmax_always_zero).
  simpl length. rewrite IH. reflexivity.
Qed.

Lemma confusion_matrix_sums_witness :
  exists loc ui,
    EvalPage.runEval_upto always_zero twenty_zeros 10 = Some (loc, ui) /\
    EvalPage.cells_sum (EvalPage.localConf loc) = 10%nat /\
    EvalPage.diagonal_sum (EvalPage.localConf loc)
    = correct_count always_zero (take 10 twenty_zeros).
Proof.
  apply (confusion_matrix_sums always_zero twenty_zeros 10).
  - exact twenty_zeros_labels.
  - simpl. lia.
Defined.

Lemma accuracy_reported_witness :
  exists loc ui,
    EvalPage.runEval_upto always_zero twenty_zeros 10 = Some (loc, ui) /\
    EvalPage.conf ui
    = conf_after always_zero (take (last_refresh (length twenty_zeros) 10) twenty_zeros) /\
    EvalPage.accuracy ui
    = INR (EvalPage.diagonal_sum (EvalPage.conf ui)) / INR (length twenty_zeros) * 100 /\
    (10%nat = length twenty_zeros ->
     EvalPage.accuracy ui
     = INR (EvalPage.diagonal_sum (EvalPage.localConf loc)) / INR 10 * 100).
Proof.
  apply (accuracy_reported always_zero twenty_zeros 10).
  - exact twenty_zeros_labels.
  - simpl. lia.
Defined.

(** C5, as stated, fails: when ten of twenty samples have been processed,
    all of them predicted right, the diagonal of the confusion matrix sums
    to 10, and the page reports 50 (per cent, of the whole data set), which
    is neither 10 / 10 nor 100 times that. *)
Lemma accuracy_divides_by_dataset_size :
  exists loc ui,
    EvalPage.runEval_upto always_zero twenty_zeros 10 = Some (loc, ui) /\
    EvalPage.diagonal_sum (EvalPage.localConf loc) = 10%nat /\
    EvalPage.accuracy ui = 50 /\
    EvalPage.accuracy ui <> INR (EvalPage.diagonal_sum (EvalPage.localConf loc)) / INR 10 /\
    EvalPage.accuracy ui
    <> INR (EvalPage.diagonal_sum (EvalPage.localConf loc)) / INR 10 * 100.
Proof.
  rewrite (runEval_upto_state always_zero twenty_zeros 10 twenty_zeros_labels)
    by (simpl; lia).
  change (take 10 twenty_zeros)
    with (replicate 10 {| EvalPage.label := 0%nat; EvalPage.pixels := [] |}).
  set (ten := replicate 10 {| EvalPage.label := 0%nat; EvalPage.pixels := [] |}).
  assert (Hdiag : EvalPage.diagonal_sum
                    (EvalPage.localConf (state_after always_zero (length twenty_zeros) ten).1)
                  = 10%nat).
  { cbn [state_after fst EvalPage.localConf].
    destruct (conf_after_spec always_zero ten) as (_ & _ & ->);
      [apply Forall_replicate; simpl; lia |].
    apply correct_count_always_zero. }
  assert (Hacc : EvalPage.accuracy (state_after always_zero (length twenty_zeros) ten).2 = 50).
  { unfold state_after, EvalPage.accuracy. cbn [snd EvalPage.total EvalPage.correct].
    change (length twenty_zeros) with 20%nat.
    change (length ten) with 10%nat.
    change (last_refresh 20 10) with 10%nat.
    change (take 10 ten) with ten.
    unfold ten. rewrite correct_count_always_zero.
    rewrite decide_False by lia. simpl INR. lra. }
  exists (state_after always_zero (length twenty_zeros) ten).1,
         (state_after always_zero (length twenty_zeros) ten).2.
  split; [reflexivity |]. rewrite Hdiag, Hacc. simpl INR.
  split; [reflexivity |]. split; [reflexivity |]. split; lra.
Qed.


Section PreprocessProperties.

Import PreprocessMnist.

Lemma getImageData_positive (srcCtx : list Z) (sw sh : nat) :
  (0 < sw)%nat -> (0 < sh)%nat -> getImageData srcCtx sw sh = Some srcCtx.
Proof.
  intros Hw Hh. unfold getImageData.
  destruct sw; [lia |]. destruct sh; [lia |]. reflexivity.
Qed.

Lemma foldl_fixed {A B : Type} (f : A -> B -> A) (a : A) (l : list B) :
  (forall x, In x l -> f a x = a) -> foldl f a l = a.
Proof.
  induction l as [| x l IH]; intros H; simpl; [reflexivity |].
  rewrite (H x) by (left; reflexivity). apply IH. intros y Hy. apply H. right. exact Hy.
Qed.

Lemma scan_pixel_blank (w h : nat) (data : list Z) (b : Box) (x y : nat) :
  blank w h data -> (x < w)%nat -> (y < h)%nat -> scan_pixel data w y b x = b.
Proof.
  intros Hblank Hx Hy. unfold scan_pixel. cbv zeta.
  destruct (data !! ((y * w + x) * 4)%nat) as [v |] eqn:Hv; [| reflexivity].
  destruct (Rgt_dec (1 - IZR v / 255) threshold) as [Hink | _]; [| reflexivity].
  exfalso. exact (Hblank x y v Hx Hy Hv Hink).
Qed.

Lemma boundingBox_blank (w h : nat) (data : list Z) :
  blank w h data ->
  boundingBox data w h =
  {| minX := Z.of_nat w; minY := Z.of_nat h; maxX := -1; maxY := -1 |}.
Proof.
  intros Hblank. unfold boundingBox. apply foldl_fixed.
  intros y Hy. apply in_seq in Hy. unfold scan_row. apply foldl_fixed.
  intros x Hx. apply in_seq in Hx. apply (scan_pixel_blank w h); [assumption | lia | lia].
Qed.

(** On a canvas of no width or of no height [getImageData] throws, whatever
    the canvas holds. *)
Lemma preprocess_zero_area_canvas (env : Browser) (c : Canvas) (srcCtx : list Z) :
  context2d c = Some srcCtx -> width c = 0%nat \/ height c = 0%nat ->
  preprocessMnistFromCanvas env c = Throws IndexSizeError.
Proof.
  intros Hctx Hzero. unfold preprocessMnistFromCanvas, getImageData.
  rewrite Hctx. cbv zeta.
  destruct Hzero as [-> | ->]; [reflexivity |].
  rewrite orb_true_r. reflexivity.
Qed.

(** The blank canvas with pixels.  For a source canvas of positive width
    and height whose 2D context is given and which is blank, the function
    returns (it does not throw) a tensor of 784 zeros with [hasInk = false].
    The 28 x 28 preview canvas that the function creates is taken to give
    its 2D context, as the specification takes every canvas to do. *)
Theorem preprocess_blank_canvas (env : Browser) (c : Canvas) (data : list Z) :
  context2d c = Some data ->
  (0 < width c)%nat -> (0 < height c)%nat ->
  blank (width c) (height c) data ->
  newContext2d env 28 28 = true ->
  preprocessMnistFromCanvas env c =
  Returns {| tensorData := replicate 784 0; previewCanvas := BlackPreview; hasInk := false |}.
Proof.
  intros Hctx Hw Hh Hblank Hpreview. unfold preprocessMnistFromCanvas.
  rewrite Hctx. cbv zeta.
  rewrite (getImageData_positive data (width c) (height c) Hw Hh).
  rewrite Hpreview, (boundingBox_blank _ _ _ Hblank). reflexivity.
Qed.

End PreprocessProperties.

Lemma white_pixel_blank : blank 1 1 [255; 255; 255; 255]%Z.
Proof.
  intros x y v Hx Hy Hv.
  assert (x = 0%nat) by lia. assert (y = 0%nat) by lia. subst x y.
  simpl in Hv. injection Hv as <-. unfold PreprocessMnist.threshold. lra.
Qed.

Lemma preprocess_blank_canvas_witness :
  PreprocessMnist.preprocessMnistFromCanvas (plain_browser true) white_pixel =
  PreprocessMnist.Returns
    {| PreprocessMnist.tensorData := replicate 784 0;
       PreprocessMnist.previewCanvas := PreprocessMnist.BlackPreview;
       PreprocessMnist.hasInk := false |}.
Proof.
  apply (preprocess_blank_canvas (plain_browser true) white_pixel [255; 255; 255; 255]%Z).
  - reflexivity.
  - simpl. lia.
  - simpl. lia.
  - exact white_pixel_blank.
  - reflexivity.
Defined.



(** ** The discrete Fourier transform *)

Section DftAlgebra.

Import Cx.

Lemma pair_eq (a b : C) : a.1 = b.1 -> a.2 = b.2 -> a = b.
Proof. destruct a, b. simpl. intros -> ->. reflexivity. Qed.

Ltac cx_ring := apply pair_eq; simpl; ring.

Lemma add_zero_l (a : C) : add zero a = a.
Proof. cx_ring. Qed.

Lemma mul_add_r (a b c : C) : mul a (add b c) = add (mul a b) (mul a c).
Proof. cx_ring. Qed.

Lemma mul_assoc (a b c : C) : mul a (mul b c) = mul (mul a b) c.
Proof. cx_ring. Qed.

Lemma mul_comm (a b : C) : mul a b = mul b a.
Proof. cx_ring. Qed.

Lemma mul_one_r (a : C) : mul a (1, 0) = a.
Proof. cx_ring. Qed.

Lemma sum_ext (n : nat) (f g : nat -> C) :
  (forall t, (t < n)%nat -> f t = g t) -> sum n f = sum n g.
Proof.
  induction n as [| n IH]; intros H; simpl; [reflexivity |].
  rewrite IH by (intros t Ht; apply H; lia). rewrite H by lia. reflexivity.
Qed.

Lemma sum_add (n : nat) (f g : nat -> C) :
  sum n (fun t => add (f t) (g t)) = add (sum n f) (sum n g).
Proof. induction n as [| n IH]; simpl; [cx_ring | rewrite IH; cx_ring]. Qed.

Lemma sum_sub (n : nat) (f g : nat -> C) :
  sum n (fun t => sub (f t) (g t)) = sub (sum n f) (sum n g).
Proof. induction n as [| n IH]; simpl; [cx_ring | rewrite IH; cx_ring]. Qed.

Lemma sum_scale (n : nat) (c : C) (f : nat -> C) :
  sum n (fun t => mul c (f t)) = mul c (sum n f).
Proof. induction n as [| n IH]; simpl; [cx_ring | rewrite IH; cx_ring]. Qed.

Lemma sum_S (n : nat) (f : nat -> C) : sum (S n) f = add (sum n f) (f n).
Proof. reflexivity. Qed.

(** A sum over [2 h] indices, split into its even and its odd indices. *)
Lemma sum_even_odd (h : nat) (f : nat -> C) :
  sum (2 * h) f = add (sum h (fun u => f (2 * u)%nat)) (sum h (fun u => f (2 * u + 1)%nat)).
Proof.
  induction h as [| h IH]; [cx_ring |].
  replace (2 * S h)%nat with (S (S (2 * h))) by lia.
  rewrite !sum_S, IH.
  replace (S (2 * h)) with (2 * h + 1)%nat by lia. cx_ring.
Qed.

Lemma cis_add (a b : R) : cis (a + b) = mul (cis a) (cis b).
Proof. unfold cis, mul. simpl. rewrite cos_plus, sin_plus. f_equal; ring. Qed.

Lemma cis_0 : cis 0 = (1, 0).
Proof. unfold cis. rewrite cos_0, sin_0. reflexivity. Qed.

Lemma cis_turns (u : nat) : cis (INR u * (-2 * PI)) = (1, 0).
Proof.
  unfold cis. replace (INR u * (-2 * PI)) with (- (0 + 2 * INR u * PI)) by ring.
  rewrite cos_neg, sin_neg, cos_period, sin_period, cos_0, sin_0.
  f_equal. ring.
Qed.

Lemma cis_half_turn : cis (- PI) = (-1, 0).
Proof.
  unfold cis. rewrite cos_neg, sin_neg, cos_PI, sin_PI. f_equal. ring.
Qed.

Lemma twiddle_0 (len : nat) : twiddle len 0 = (1, 0).
Proof. unfold twiddle. simpl INR. rewrite Rmult_0_l. apply cis_0. Qed.

Lemma twiddle_succ (len k : nat) :
  twiddle len (S k) = mul (twiddle len k) (cis (-2 * PI / INR len)).
Proof.
  unfold twiddle. rewrite <- cis_add. f_equal. rewrite S_INR. ring.
Qed.

Section Halving.

Variable h : nat.
Hypothesis h_pos : (0 < h)%nat.

Let h_neq : INR h <> 0.
Proof. apply not_0_INR. lia. Qed.

Lemma twiddle_even (u j : nat) : twiddle (2 * h) (2 * u * j) = twiddle h (u * j).
Proof.
  unfold twiddle. f_equal. rewrite !mult_INR. simpl INR. field. exact h_neq.
Qed.

Lemma twiddle_odd (u j : nat) :
  twiddle (2 * h) ((2 * u + 1) * j) = mul (twiddle (2 * h) j) (twiddle h (u * j)).
Proof.
  unfold twiddle. rewrite <- cis_add. f_equal.
  rewrite !mult_INR, plus_INR, !mult_INR. simpl INR. field. exact h_neq.
Qed.

Lemma twiddle_even_upper (u j : nat) :
  twiddle (2 * h) (2 * u * (j + h)) = twiddle h (u * j).
Proof.
  rewrite <- (mul_one_r (twiddle h (u * j))), <- (cis_turns u).
  unfold twiddle. rewrite <- cis_add. f_equal.
  rewrite !mult_INR, plus_INR. simpl INR. field. exact h_neq.
Qed.

Lemma twiddle_odd_upper (u j : nat) :
  twiddle (2 * h) ((2 * u + 1) * (j + h))
  = mul (-1, 0) (mul (twiddle (2 * h) j) (twiddle h (u * j))).
Proof.
  rewrite <- cis_half_turn.
  rewrite <- (mul_one_r (twiddle h (u * j))), <- (cis_turns u).
  unfold twiddle. rewrite <- !cis_add. f_equal.
  rewrite !mult_INR, !plus_INR, !mult_INR. simpl INR. field. exact h_neq.
Qed.

(** The butterfly: the transform of [2 h] values from the transforms of
    the [h] values at even indices and of the [h] values at odd indices. *)
Lemma dft_butterfly_lower (f : nat -> C) (j : nat) :
  dft f (2 * h) j
  = add (dft (fun u => f (2 * u)%nat) h j)
        (mul (twiddle (2 * h) j) (dft (fun u => f (2 * u + 1)%nat) h j)).
Proof.
  unfold dft. rewrite sum_even_odd. f_equal.
  - apply sum_ext. intros u _. rewrite twiddle_even. reflexivity.
  - rewrite <- sum_scale. apply sum_ext. intros u _.
    rewrite twiddle_odd. cx_ring.
Qed.

Lemma dft_butterfly_upper (f : nat -> C) (j : nat) :
  dft f (2 * h) (j + h)
  = sub (dft (fun u => f (2 * u)%nat) h j)
        (mul (twiddle (2 * h) j) (dft (fun u => f (2 * u + 1)%nat) h j)).
Proof.
  unfold dft. rewrite sum_even_odd.
  replace (sub (sum h (fun t => mul (f (2 * t)%nat) (twiddle h (t * j))))
               (mul (twiddle (2 * h) j)
                    (sum h (fun t => mul (f (2 * t + 1)%nat) (twiddle h (t * j))))))
    with (add (sum h (fun t => mul (f (2 * t)%nat) (twiddle h (t * j))))
              (mul (mul (-1, 0) (twiddle (2 * h) j))
                   (sum h (fun t => mul (f (2 * t + 1)%nat) (twiddle h (t * j))))))
    by cx_ring.
  f_equal.
  - apply sum_ext. intros u _. rewrite twiddle_even_upper. reflexivity.
  - rewrite <- sum_scale. apply sum_ext. intros u _.
    rewrite twiddle_odd_upper. cx_ring.
Qed.

End Halving.

End DftAlgebra.

(** ** Bit reversal *)

Section BitReversal.

Lemma pow2_pos (p : nat) : (0 < 2 ^ p)%nat.
Proof. induction p; simpl; lia. Qed.

Lemma bitrev_S (q i : nat) :
  bitrev (S q) i = ((i mod 2) * 2 ^ q + bitrev q (i / 2))%nat.
Proof. reflexivity. Qed.

Lemma bitrev_lt (p i : nat) : (bitrev p i < 2 ^ p)%nat.
Proof.
  revert i. induction p as [| q IH]; intros i; [simpl; lia |].
  cbn [bitrev]. rewrite Nat.pow_succ_r'.
  specialize (IH (i / 2)%nat). pose proof (Nat.mod_upper_bound i 2 ltac:(lia)).
  assert (i mod 2 * 2 ^ q <= 2 ^ q)%nat by nia. lia.
Qed.

Lemma bitrev_double (q b : nat) : bitrev (S q) (2 * b) = bitrev q b.
Proof.
  cbn [bitrev].
  replace ((2 * b) mod 2)%nat with 0%nat
    by (apply Nat.mod_unique with (q := b); lia).
  replace (2 * b / 2)%nat with b by (apply Nat.div_unique with (r := 0%nat); lia).
  lia.
Qed.

Lemma bitrev_double_1 (q b : nat) : bitrev (S q) (2 * b + 1) = (2 ^ q + bitrev q b)%nat.
Proof.
  cbn [bitrev].
  replace ((2 * b + 1) mod 2)%nat with 1%nat
    by (apply Nat.mod_unique with (q := b); lia).
  replace ((2 * b + 1) / 2)%nat with b by (apply Nat.div_unique with (r := 1%nat); lia).
  lia.
Qed.

Lemma parity_split (i : nat) : i = (2 * (i / 2) + i mod 2)%nat /\ (i mod 2 < 2)%nat.
Proof.
  split; [apply Nat.div_mod_eq | apply Nat.mod_upper_bound; lia].
Qed.

(** The reversal read from the other end: the top bit of [i] becomes the
    lowest bit. *)
Lemma bitrev_top (q i : nat) :
  bitrev (S q) i = (2 * bitrev q (i mod 2 ^ q) + (i / 2 ^ q) mod 2)%nat.
Proof.
  revert i. induction q as [| q IH]; intros i.
  - cbn [bitrev]. rewrite Nat.pow_0_r, Nat.div_1_r. lia.
  - rewrite (bitrev_S (S q) i), (IH (i / 2)%nat), (bitrev_S q (i mod 2 ^ S q)).
    pose proof (pow2_pos q) as Hq.
    assert (Hmod : (i mod 2 ^ S q = i mod 2 + 2 * ((i / 2) mod 2 ^ q))%nat).
    { rewrite Nat.pow_succ_r'. apply Nat.Div0.mod_mul_r. }
    pose proof (Nat.mod_upper_bound i 2 ltac:(lia)) as Hr.
    assert (Hm1 : ((i mod 2 ^ S q) mod 2 = i mod 2)%nat).
    { rewrite Hmod. symmetry. apply Nat.mod_unique with (q := ((i / 2) mod 2 ^ q)%nat); lia. }
    assert (Hm2 : ((i mod 2 ^ S q) / 2 = (i / 2) mod 2 ^ q)%nat).
    { rewrite Hmod. symmetry. apply Nat.div_unique with (r := (i mod 2)%nat); lia. }
    assert (Hd : (i / 2 / 2 ^ q = i / 2 ^ S q)%nat).
    { rewrite Nat.pow_succ_r'. apply Nat.Div0.div_div. }
    rewrite Hm1, Hm2, Hd. rewrite Nat.pow_succ_r'. lia.
Qed.

Lemma bitrev_involutive (p i : nat) : (i < 2 ^ p)%nat -> bitrev p (bitrev p i) = i.
Proof.
  revert i. induction p as [| q IH]; intros i Hi.
  - simpl in *. lia.
  - rewrite bitrev_top. cbn [bitrev].
    pose proof (pow2_pos q) as Hq.
    pose proof (bitrev_lt q (i / 2)) as Ht.
    destruct (parity_split i) as [Hi2 Hr].
    rewrite Nat.pow_succ_r' in Hi.
    assert (Hm : ((i mod 2 * 2 ^ q + bitrev q (i / 2)) mod 2 ^ q = bitrev q (i / 2))%nat).
    { symmetry. apply Nat.mod_unique with (q := (i mod 2)%nat); lia. }
    assert (Hd : ((i mod 2 * 2 ^ q + bitrev q (i / 2)) / 2 ^ q = i mod 2)%nat).
    { symmetry. apply Nat.div_unique with (r := bitrev q (i / 2)); lia. }
    rewrite Hm, Hd, IH by lia.
    rewrite Nat.Div0.mod_mod. lia.
Qed.

(** The reversal of the successor, as the loop of [bitReversePermutation]
    computes it: clear the set bits from the top, then set the first clear
    one. *)
Lemma bitrev_succ_even (q i : nat) :
  (i mod 2 = 0)%nat -> bitrev (S q) (i + 1) = (bitrev (S q) i + 2 ^ q)%nat.
Proof.
  intros He. destruct (parity_split i) as [Hi _]. rewrite He in Hi.
  rewrite Hi at 1. replace (2 * (i / 2) + 0 + 1)%nat with (2 * (i / 2) + 1)%nat by lia.
  rewrite bitrev_double_1. cbn [bitrev]. rewrite He. lia.
Qed.

Lemma bitrev_succ_odd (q i : nat) :
  (i mod 2 = 1)%nat ->
  bitrev (S q) i = (2 ^ q + bitrev q (i / 2))%nat /\
  bitrev (S q) (i + 1) = bitrev q (i / 2 + 1).
Proof.
  intros Ho. destruct (parity_split i) as [Hi _]. rewrite Ho in Hi. split.
  - cbn [bitrev]. rewrite Ho. lia.
  - rewrite Hi at 1. replace (2 * (i / 2) + 1 + 1)%nat with (2 * (i / 2 + 1))%nat by lia.
    apply bitrev_double.
Qed.

End BitReversal.

(** ** The 32-bit operators on the values the transform meets *)

Section Int32.

Local Open Scope Z_scope.

Lemma toInt32_small (z : Z) : - 2 ^ 31 <= z < 2 ^ 31 -> Js.toInt32 z = z.
Proof.
  intros H. unfold Js.toInt32. rewrite Z.mod_small; lia.
Qed.

Lemma pow2_below_31 (q : Z) : 0 <= q <= 30 -> 0 < 2 ^ q < 2 ^ 31.
Proof.
  intros H. split; [apply Z.pow_pos_nonneg; lia |].
  apply Z.pow_lt_mono_r; lia.
Qed.

Lemma land_pow2_low (t q : Z) : 0 <= q -> 0 <= t < 2 ^ q -> Z.land t (2 ^ q) = 0.
Proof.
  intros Hq Ht. apply Z.bits_inj'. intros n Hn.
  rewrite Z.land_spec, Z.bits_0, Z.pow2_bits_eqb by lia.
  destruct (Z.eqb_spec q n) as [<- | _]; [| apply andb_false_r].
  rewrite andb_true_r. apply Z.testbit_false; [lia |].
  rewrite Z.div_small by lia. reflexivity.
Qed.

Lemma lxor_pow2_low (t q : Z) : 0 <= q -> 0 <= t < 2 ^ q -> Z.lxor t (2 ^ q) = t + 2 ^ q.
Proof.
  intros Hq Ht. symmetry. apply Z.add_nocarry_lxor. apply land_pow2_low; assumption.
Qed.

Lemma land_pow2_high (t q : Z) :
  0 <= q -> 0 <= t < 2 ^ q -> Z.land (t + 2 ^ q) (2 ^ q) = 2 ^ q.
Proof.
  intros Hq Ht. rewrite <- lxor_pow2_low by assumption.
  apply Z.bits_inj'. intros n Hn.
  rewrite Z.land_spec, Z.lxor_spec, Z.pow2_bits_eqb by lia.
  destruct (Z.eqb_spec q n) as [<- | _]; [| apply andb_false_r].
  rewrite andb_true_r.
  assert (Z.testbit t q = false) as ->.
  { apply Z.testbit_false; [lia |]. rewrite Z.div_small by lia. reflexivity. }
  reflexivity.
Qed.

Lemma lxor_pow2_high (t q : Z) :
  0 <= q -> 0 <= t < 2 ^ q -> Z.lxor (t + 2 ^ q) (2 ^ q) = t.
Proof.
  intros Hq Ht. rewrite <- lxor_pow2_low by assumption.
  rewrite Z.lxor_assoc, Z.lxor_nilpotent, Z.lxor_0_r. reflexivity.
Qed.

Lemma Js_and_low (t q : Z) : 0 <= q <= 30 -> 0 <= t < 2 ^ q -> Js.and t (2 ^ q) = 0.
Proof.
  intros Hq Ht. pose proof (pow2_below_31 q Hq). unfold Js.and.
  rewrite !toInt32_small by lia. apply land_pow2_low; lia.
Qed.

Lemma Js_xor_low (t q : Z) : 0 <= q <= 30 -> 0 <= t < 2 ^ q -> Js.xor t (2 ^ q) = t + 2 ^ q.
Proof.
  intros Hq Ht. pose proof (pow2_below_31 q Hq). unfold Js.xor.
  rewrite !toInt32_small by lia. apply lxor_pow2_low; lia.
Qed.

Lemma Js_and_high (t q : Z) :
  0 <= q <= 29 -> 0 <= t < 2 ^ q -> Js.and (t + 2 ^ q) (2 ^ q) = 2 ^ q.
Proof.
  intros Hq Ht. pose proof (pow2_below_31 q ltac:(lia)).
  pose proof (pow2_below_31 (q + 1) ltac:(lia)) as H1.
  rewrite Z.pow_add_r, Z.pow_1_r in H1 by lia.
  unfold Js.and. rewrite !toInt32_small by lia. apply land_pow2_high; lia.
Qed.

Lemma Js_xor_high (t q : Z) :
  0 <= q <= 29 -> 0 <= t < 2 ^ q -> Js.xor (t + 2 ^ q) (2 ^ q) = t.
Proof.
  intros Hq Ht. pose proof (pow2_below_31 q ltac:(lia)).
  pose proof (pow2_below_31 (q + 1) ltac:(lia)) as H1.
  rewrite Z.pow_add_r, Z.pow_1_r in H1 by lia.
  unfold Js.xor. rewrite !toInt32_small by lia. apply lxor_pow2_high; lia.
Qed.

Lemma Js_shr_1 (n : Z) : 0 <= n < 2 ^ 31 -> Js.shr n 1 = n / 2.
Proof.
  intros Hn. unfold Js.shr. rewrite toInt32_small by lia.
  change (1 mod 32) with 1. rewrite Z.shiftr_div_pow2 by lia. reflexivity.
Qed.

Lemma Js_shr_pow2 (q : Z) : 0 <= q <= 29 -> Js.shr (2 ^ (q + 1)) 1 = 2 ^ q.
Proof.
  intros Hq. pose proof (pow2_below_31 (q + 1) ltac:(lia)).
  rewrite Js_shr_1 by lia.
  rewrite Z.pow_add_r, Z.pow_1_r by lia. apply Z.div_mul. lia.
Qed.

Lemma Js_shl_1 (len : Z) : 0 <= len < 2 ^ 30 -> Js.shl len 1 = 2 * len.
Proof.
  intros Hn. unfold Js.shl. rewrite (toInt32_small len) by lia.
  change (1 mod 32) with 1. rewrite Z.shiftl_mul_pow2 by lia.
  rewrite toInt32_small; lia.
Qed.

(** The shift that leaves the 32-bit range: [2^30 << 1] is [-2^31]. *)
Lemma Js_shl_wraps : Js.shl (2 ^ 30) 1 = - 2 ^ 31.
Proof. reflexivity. Qed.

End Int32.

(** ** Typed arrays *)

Section Arrays.

Lemma get_set_eq (a : list R) (i : nat) (v : R) :
  (i < length a)%nat -> Js.get (Js.set a i v) i = v.
Proof.
  intros H. unfold Js.get, Js.set. rewrite list_lookup_insert_eq by exact H. reflexivity.
Qed.

Lemma get_set_ne (a : list R) (i j : nat) (v : R) :
  i <> j -> Js.get (Js.set a i v) j = Js.get a j.
Proof.
  intros H. unfold Js.get, Js.set. rewrite list_lookup_insert_ne by exact H. reflexivity.
Qed.

Lemma length_set (a : list R) (i : nat) (v : R) : length (Js.set a i v) = length a.
Proof. apply length_insert. Qed.

Lemma get_zeros (n i : nat) : Js.get (Js.zeros n) i = 0.
Proof.
  unfold Js.get, Js.zeros. destruct (decide (i < n)%nat) as [H | H].
  - rewrite lookup_replicate_2 by exact H. reflexivity.
  - rewrite (proj2 (lookup_ge_None _ _)) by (rewrite length_replicate; lia). reflexivity.
Qed.

Lemma length_swap (a : list R) (i j : nat) : length (MelSpectrogram.swap a i j) = length a.
Proof. unfold MelSpectrogram.swap. rewrite !length_set. reflexivity. Qed.

Lemma get_swap (a : list R) (i j x : nat) :
  (i < length a)%nat -> (j < length a)%nat -> i <> j ->
  Js.get (MelSpectrogram.swap a i j) x =
  if decide (x = i) then Js.get a j else if decide (x = j) then Js.get a i else Js.get a x.
Proof.
  intros Hi Hj Hij. unfold MelSpectrogram.swap. cbv zeta.
  destruct (decide (x = j)) as [-> | Hxj].
  - rewrite get_set_eq by (rewrite length_set; exact Hj).
    rewrite decide_False by congruence. reflexivity.
  - rewrite get_set_ne by congruence.
    destruct (decide (x = i)) as [-> | Hxi].
    + apply get_set_eq, Hi.
    + apply get_set_ne. congruence.
Qed.

(** Two arrays of one length with the same entries are the same array. *)
Lemma array_ext (a b : list R) :
  length a = length b ->
  (forall x, (x < length a)%nat -> Js.get a x = Js.get b x) -> a = b.
Proof.
  intros Hlen H. apply list_eq. intros x.
  destruct (decide (x < length a)%nat) as [Hx | Hx].
  - specialize (H x Hx). unfold Js.get in H.
    destruct (lookup_lt_is_Some_2 a x Hx) as [u Hu].
    destruct (lookup_lt_is_Some_2 b x ltac:(lia)) as [v Hv].
    rewrite Hu, Hv in *. simpl in H. congruence.
  - rewrite (proj2 (lookup_ge_None a x)) by lia.
    rewrite (proj2 (lookup_ge_None b x)) by lia. reflexivity.
Qed.

(** The loop whose body may not return, by its invariant. *)
Lemma forM_invariant {S : Type} (body : S -> nat -> option S) (P : nat -> S -> Prop)
  (len start : nat) (st : S) :
  P start st ->
  (forall i s, (start <= i < start + len)%nat -> P i s ->
               exists s', body s i = Some s' /\ P (Datatypes.S i) s') ->
  exists st', MelSpectrogram.forM body st (seq start len) = Some st' /\ P (start + len)%nat st'.
Proof.
  revert start st. induction len as [| len IH]; intros start st H0 Hstep.
  - exists st. split; [reflexivity |]. rewrite Nat.add_0_r. exact H0.
  - simpl seq. cbn [MelSpectrogram.forM].
    destruct (Hstep start st ltac:(lia) H0) as (s1 & -> & H1).
    destruct (IH (Datatypes.S start) s1 H1) as (st' & E & H').
    { intros i s Hi. apply Hstep. lia. }
    exists st'. split; [exact E |]. replace (start + Datatypes.S len)%nat
      with (Datatypes.S start + len)%nat by lia. exact H'.
Qed.

(** The loop whose body always returns, by its invariant. *)
Lemma foldl_invariant {S : Type} (body : S -> nat -> S) (P : nat -> S -> Prop)
  (len start : nat) (st : S) :
  P start st ->
  (forall i s, (start <= i < start + len)%nat -> P i s -> P (Datatypes.S i) (body s i)) ->
  P (start + len)%nat (foldl body st (seq start len)).
Proof.
  revert start st. induction len as [| len IH]; intros start st H0 Hstep.
  - rewrite Nat.add_0_r. exact H0.
  - simpl seq. cbn [foldl].
    replace (start + Datatypes.S len)%nat with (Datatypes.S start + len)%nat by lia.
    apply IH.
    + apply Hstep; [lia | exact H0].
    + intros i s Hi. apply Hstep. lia.
Qed.

End Arrays.

(** ** [bitReversePermutation] *)

Section BitReversePermutation.

Import MelSpectrogram.

Lemma bitrev_0 (p : nat) : bitrev p 0 = 0%nat.
Proof.
  induction p as [| q IH]; [reflexivity |].
  rewrite bitrev_S, Nat.Div0.div_0_l, Nat.Div0.mod_0_l, IH. lia.
Qed.

Lemma pow2_nat_Z (q : nat) : Z.of_nat (2 ^ q) = (2 ^ Z.of_nat q)%Z.
Proof. rewrite Nat2Z.inj_pow. reflexivity. Qed.

(** The loop [while (j & bit)] and the [j ^= bit] after it turn the
    reversal of [i] into the reversal of [i + 1]. *)
Lemma carry_bitrev (q i fuel : nat) :
  (q <= 29)%nat -> (i + 1 < 2 ^ S q)%nat -> (q < fuel)%nat ->
  exists j' bit',
    carry fuel (Z.of_nat (bitrev (S q) i)) (2 ^ Z.of_nat q) = Some (j', bit') /\
    Js.xor j' bit' = Z.of_nat (bitrev (S q) (i + 1)).
Proof.
  revert i fuel. induction q as [| q IH]; intros i fuel Hq Hi Hf;
    (destruct fuel as [| fuel]; [lia |]); cbn [carry];
    pose proof (Nat.mod_upper_bound i 2 ltac:(lia)) as Hr;
    destruct (decide (i mod 2 = 0)%nat) as [He | Ho].
  - (* q = 0, i even *)
    pose proof (bitrev_lt 0 (i / 2)) as Ht. pose proof (pow2_nat_Z 0) as H2.
    rewrite bitrev_succ_even by exact He. rewrite bitrev_S, He.
    rewrite Nat.mul_0_l, Nat.add_0_l.
    rewrite Js_and_low by lia. rewrite Z.eqb_refl.
    eexists _, _. split; [reflexivity |]. rewrite Js_xor_low by lia. lia.
  - (* q = 0, i odd: there is no such [i] *)
    simpl in Hi. assert (i = 0%nat) by lia. subst i. simpl in Ho. lia.
  - (* i even *)
    pose proof (bitrev_lt (S q) (i / 2)) as Ht. pose proof (pow2_nat_Z (S q)) as H2.
    rewrite bitrev_succ_even by exact He. rewrite (bitrev_S (S q) i), He.
    rewrite Nat.mul_0_l, Nat.add_0_l.
    rewrite Js_and_low by lia. rewrite Z.eqb_refl.
    eexists _, _. split; [reflexivity |]. rewrite Js_xor_low by lia. lia.
  - (* i odd *)
    assert (Ho' : (i mod 2 = 1)%nat) by lia.
    destruct (bitrev_succ_odd (S q) i Ho') as [E1 E2].
    pose proof (bitrev_lt (S q) (i / 2)) as Ht. pose proof (pow2_nat_Z (S q)) as H2.
    rewrite E1, E2.
    replace (Z.of_nat (2 ^ S q + bitrev (S q) (i / 2)))
      with (Z.of_nat (bitrev (S q) (i / 2)) + 2 ^ Z.of_nat (S q))%Z by lia.
    rewrite Js_and_high by lia.
    pose proof (pow2_below_31 (Z.of_nat (S q)) ltac:(lia)) as Hpos.
    rewrite (proj2 (Z.eqb_neq _ _)) by lia.
    rewrite Js_xor_high by lia.
    replace (Z.of_nat (S q)) with (Z.of_nat q + 1)%Z by lia.
    rewrite Js_shr_pow2 by lia.
    apply IH; [lia | | lia].
    destruct (parity_split i) as [Hi2 _]. rewrite Nat.pow_succ_r' in Hi. lia.
Qed.

Lemma partly_reversed_0 (p : nat) (a : list R) : partly_reversed p 0 a a.
Proof.
  split; [reflexivity |]. intros x Hx.
  destruct (decide (Nat.min x (bitrev p x) <= 0)%nat) as [H | H]; [| reflexivity].
  pose proof (bitrev_involutive p x Hx) as Hxx.
  destruct (decide (x = 0%nat)) as [-> | Hx0]; [rewrite bitrev_0; reflexivity |].
  assert (E : bitrev p x = 0%nat) by lia.
  rewrite E, bitrev_0 in Hxx. lia.
Qed.

Lemma partly_reversed_keep (p i : nat) (a a' : list R) :
  (0 < i < 2 ^ p)%nat -> (bitrev p i <= i)%nat ->
  partly_reversed p (i - 1) a a' -> partly_reversed p i a a'.
Proof.
  intros Hi Hj [Hlen H]. split; [exact Hlen |]. intros x Hx. rewrite (H x Hx).
  pose proof (bitrev_involutive p x Hx) as Hxx.
  pose proof (bitrev_involutive p i ltac:(lia)) as Hii.
  destruct (decide (Nat.min x (bitrev p x) <= i - 1)%nat) as [H1 | H1];
    destruct (decide (Nat.min x (bitrev p x) <= i)%nat) as [H2 | H2];
    try reflexivity; try lia.
  (* the smaller of [x] and its reversal is [i]: then [x] is its own reversal *)
  destruct (decide (x = i)) as [-> | Hxi]; [f_equal; lia |].
  assert (E : bitrev p x = i) by lia.
  rewrite E in Hxx. f_equal. lia.
Qed.

Lemma partly_reversed_swap (p i : nat) (a a' : list R) :
  length a = (2 ^ p)%nat -> (0 < i < 2 ^ p)%nat -> (i < bitrev p i)%nat ->
  partly_reversed p (i - 1) a a' ->
  partly_reversed p i a (swap a' i (bitrev p i)).
Proof.
  intros Hn Hi Hj [Hlen H]. split; [rewrite length_swap; exact Hlen |]. intros x Hx.
  pose proof (bitrev_lt p i) as Hjn.
  pose proof (bitrev_involutive p x Hx) as Hxx.
  pose proof (bitrev_involutive p i ltac:(lia)) as Hii.
  rewrite get_swap by lia.
  destruct (decide (x = i)) as [-> | Hxi].
  - rewrite (H _ Hjn), Hii.
    rewrite decide_False by lia. rewrite decide_True by lia. reflexivity.
  - destruct (decide (x = bitrev p i)) as [-> | Hxj].
    + rewrite (H i ltac:(lia)), Hii.
      rewrite decide_False by lia. rewrite decide_True by lia. reflexivity.
    + rewrite (H x Hx).
      assert (bitrev p x <> i) by (intros E; rewrite E in Hxx; congruence).
      destruct (decide (Nat.min x (bitrev p x) <= i - 1)%nat) as [H1 | H1];
        destruct (decide (Nat.min x (bitrev p x) <= i)%nat) as [H2 | H2];
        try reflexivity; lia.
Qed.

Lemma bitReverse_step_spec (p i : nat) (re im re' im' : list R) :
  (1 <= p <= 30)%nat ->
  length re = (2 ^ p)%nat -> length im = (2 ^ p)%nat ->
  (0 < i < 2 ^ p)%nat ->
  partly_reversed p (i - 1) re re' -> partly_reversed p (i - 1) im im' ->
  exists re'' im'',
    bitReverse_step (2 ^ p) (Z.of_nat (bitrev p (i - 1)), re', im') i
    = Some (Z.of_nat (bitrev p i), re'', im'') /\
    partly_reversed p i re re'' /\ partly_reversed p i im im''.
Proof.
  intros Hp Hre Him Hi Pre Pim.
  destruct p as [| q]; [lia |].
  unfold bitReverse_step.
  rewrite pow2_nat_Z.
  replace (Z.of_nat (S q)) with (Z.of_nat q + 1)%Z by lia.
  rewrite Js_shr_pow2 by lia.
  destruct (carry_bitrev q (i - 1) 34) as (j' & bit' & -> & Hx); [lia | lia | lia |].
  replace (i - 1 + 1)%nat with i in Hx by lia. rewrite Hx.
  rewrite Nat2Z.id.
  destruct (Z.ltb_spec (Z.of_nat i) (Z.of_nat (bitrev (S q) i))) as [Hlt | Hge].
  - eexists _, _. split; [reflexivity |].
    split; apply partly_reversed_swap; (assumption || lia).
  - eexists _, _. split; [reflexivity |].
    split; apply partly_reversed_keep; (assumption || lia).
Qed.

(** [bitReversePermutation] returns, and it puts at every index the entry
    of the reversed index. *)
Lemma bitReversePermutation_spec (p : nat) (re im : list R) :
  (p <= 30)%nat -> length re = (2 ^ p)%nat -> length im = (2 ^ p)%nat ->
  exists re' im',
    bitReversePermutation re im = Some (re', im') /\
    length re' = (2 ^ p)%nat /\ length im' = (2 ^ p)%nat /\
    forall x, (x < 2 ^ p)%nat -> cget re' im' x = cget re im (bitrev p x).
Proof.
  intros Hp Hre Him. unfold bitReversePermutation. rewrite Hre.
  pose proof (pow2_pos p) as Hpos.
  destruct (forM_invariant (bitReverse_step (2 ^ p))
              (fun i st => st.1.1 = Z.of_nat (bitrev p (i - 1)) /\
                           partly_reversed p (i - 1) re st.1.2 /\
                           partly_reversed p (i - 1) im st.2)
              (2 ^ p - 1) 1 (0%Z, re, im))
    as ([[j re'] im'] & -> & Hj & [Hlre Pre] & [Hlim Pim]).
  - simpl. rewrite bitrev_0. repeat split; try reflexivity; apply partly_reversed_0.
  - intros i [[j re'] im'] Hi (Hj & Pre & Pim). simpl in Hj, Pre, Pim. subst j.
    assert (Hp1 : (1 <= p)%nat).
    { destruct p; [simpl in Hi; lia | lia]. }
    destruct (bitReverse_step_spec p i re im re' im') as (re'' & im'' & -> & Pre' & Pim');
      try assumption; try lia.
    eexists. split; [reflexivity |]. simpl.
    replace (i - 0)%nat with i by lia. auto.
  - simpl in Pre, Pim, Hlre, Hlim.
    exists re', im'. split; [reflexivity |].
    split; [lia |]. split; [lia |]. intros x Hx.
    unfold cget. rewrite (Pre x Hx), (Pim x Hx).
    rewrite decide_True by lia. reflexivity.
Qed.

End BitReversePermutation.

(** ** The stages of [fftInPlace] *)

Section Stages.

Import MelSpectrogram.

Lemma butterfly_spec (i half j : nat) (c s : R) (re im : list R) (wRe wIm : R) :
  (0 < half)%nat -> length im = length re -> (i + j + half < length re)%nat ->
  exists re' im' wRe' wIm',
    butterfly i half c s (re, im, wRe, wIm) j = (re', im', wRe', wIm') /\
    length re' = length re /\ length im' = length re /\
    (wRe', wIm') = Cx.mul (wRe, wIm) (c, s) /\
    forall x,
      cget re' im' x =
      if decide (x = i + j)%nat
      then Cx.add (cget re im (i + j)) (Cx.mul (wRe, wIm) (cget re im (i + j + half)))
      else if decide (x = i + j + half)%nat
           then Cx.sub (cget re im (i + j)) (Cx.mul (wRe, wIm) (cget re im (i + j + half)))
           else cget re im x.
Proof.
  intros Hh Hlen Hin. unfold butterfly. cbv zeta.
  eexists _, _, _, _. split; [reflexivity |].
  rewrite !length_set. split; [reflexivity |]. split; [exact Hlen |].
  split; [reflexivity |]. intros x. unfold cget.
  destruct (decide (x = i + j)%nat) as [-> | H1].
  - rewrite !(get_set_ne _ (i + j + half)) by lia.
    rewrite !get_set_eq by lia. unfold Cx.add, Cx.mul. simpl. f_equal; ring.
  - destruct (decide (x = i + j + half)%nat) as [-> | H2].
    + rewrite !get_set_eq by (rewrite length_set; lia).
      unfold Cx.sub, Cx.mul. simpl. f_equal; ring.
    + rewrite !get_set_ne by lia. reflexivity.
Qed.

Lemma block_spec (half i : nat) (re im : list R) :
  (0 < half)%nat -> length im = length re -> (i + 2 * half <= length re)%nat ->
  let len := (2 * half)%nat in
  let ang := -2 * PI / INR len in
  exists re' im',
    block half (cos ang) (sin ang) (re, im) i = (re', im') /\
    length re' = length re /\ length im' = length re /\
    forall x,
      cget re' im' x =
      if decide (i <= x < i + len)%nat then block_value len i (cget re im) x
      else cget re im x.
Proof.
  intros Hh Hlen Hin len ang.
  assert (Hhalf : (len / 2 = half)%nat).
  { unfold len. symmetry. apply Nat.div_unique with (r := 0%nat); lia. }
  pose (P := fun (m : nat) (st : list R * list R * R * R) =>
               length st.1.1.1 = length re /\ length st.1.1.2 = length re /\
               (st.1.2, st.2) = twiddle len m /\
               forall x,
                 cget st.1.1.1 st.1.1.2 x =
                 if decide (i <= x < i + m \/ i + half <= x < i + half + m)%nat
                 then block_value len i (cget re im) x
                 else cget re im x).
  assert (HP : P (0 + half)%nat
                 (foldl (butterfly i half (cos ang) (sin ang)) (re, im, 1, 0) (seq 0 half))).
  { apply foldl_invariant.
    - unfold P. simpl. split; [reflexivity |]. split; [exact Hlen |].
      split; [symmetry; apply twiddle_0 |]. intros x.
      rewrite decide_False by lia. reflexivity.
    - intros m [[[re1 im1] wRe] wIm] Hm (Hl1 & Hl2 & Hw & Hx). simpl in Hl1, Hl2, Hw, Hx.
      destruct (butterfly_spec i half m (cos ang) (sin ang) re1 im1 wRe wIm)
        as (re2 & im2 & wRe2 & wIm2 & -> & Hl1' & Hl2' & Hw' & Hx'); [lia | lia | lia |].
      unfold P. simpl. split; [lia |]. split; [lia |]. split.
      + rewrite Hw', Hw. symmetry. apply twiddle_succ.
      + intros x. rewrite Hx', !Hx, Hw.
        rewrite (decide_False (P := (i <= i + m < i + m \/ _)%nat)) by lia.
        rewrite (decide_False (P := (i <= i + m + half < i + m \/ _)%nat)) by lia.
        destruct (decide (x = i + m)%nat) as [-> | H1].
        * rewrite decide_True by lia.
          unfold block_value. rewrite Hhalf. rewrite decide_True by lia.
          replace (i + m - i)%nat with m by lia. reflexivity.
        * destruct (decide (x = i + m + half)%nat) as [-> | H2].
          -- rewrite decide_True by lia.
             unfold block_value. rewrite Hhalf. rewrite decide_False by lia.
             replace (i + m + half - half)%nat with (i + m)%nat by lia.
             replace (i + m + half - i - half)%nat with m by lia. reflexivity.
          -- destruct (decide (i <= x < i + m \/ i + half <= x < i + half + m)%nat);
               destruct (decide (i <= x < i + S m \/ i + half <= x < i + half + S m)%nat);
               try reflexivity; lia. }
  unfold block.
  destruct (foldl (butterfly i half (cos ang) (sin ang)) (re, im, 1, 0) (seq 0 half))
    as [[[re' im'] wRe] wIm].
  destruct HP as (Hl1 & Hl2 & _ & Hx). simpl in Hl1, Hl2, Hx.
  exists re', im'. split; [reflexivity |]. split; [exact Hl1 |]. split; [exact Hl2 |].
  intros x. rewrite Hx.
  destruct (decide (i <= x < i + len)%nat);
    [rewrite decide_True by (unfold len in *; lia)
    | rewrite decide_False by (unfold len in *; lia)]; reflexivity.
Qed.

Lemma block_value_stage_fn (half b x : nat) (a : nat -> Cx.C) :
  (0 < half)%nat ->
  (b * (2 * half) <= x < b * (2 * half) + 2 * half)%nat ->
  block_value (2 * half) (b * (2 * half)) a x = stage_fn (2 * half) a x.
Proof.
  intros Hh Hx. unfold block_value, stage_fn. cbv zeta.
  assert (Hhalf : (2 * half / 2 = half)%nat).
  { symmetry. apply Nat.div_unique with (r := 0%nat); lia. }
  assert (Hmod : (x mod (2 * half) = x - b * (2 * half))%nat).
  { symmetry. apply Nat.mod_unique with (q := b); lia. }
  rewrite Hhalf, Hmod.
  destruct (decide (x < b * (2 * half) + half)%nat);
    destruct (decide (x - b * (2 * half) < half)%nat); try lia; reflexivity.
Qed.

(** One stage, on arrays of [blocks] blocks of length [2 half]. *)
Lemma stage_spec (half blocks : nat) (re im : list R) :
  (0 < half)%nat ->
  let len := (2 * half)%nat in
  length re = (blocks * len)%nat -> length im = (blocks * len)%nat ->
  exists re' im',
    stage (blocks * len) len (re, im) = (re', im') /\
    length re' = length re /\ length im' = length re /\
    forall x, (x < blocks * len)%nat -> cget re' im' x = stage_fn len (cget re im) x.
Proof.
  intros Hh len Hre Him. unfold stage. cbv zeta.
  assert (Hhalf : (len / 2 = half)%nat).
  { unfold len. symmetry. apply Nat.div_unique with (r := 0%nat); lia. }
  assert (Hblocks : ((blocks * len + len - 1) / len = blocks)%nat).
  { symmetry. apply Nat.div_unique with (r := (len - 1)%nat); unfold len; lia. }
  rewrite Hhalf, Hblocks, foldl_fmap.
  set (ang := -2 * PI / INR len).
  pose (Q := fun (b : nat) (st : list R * list R) =>
               length st.1 = length re /\ length st.2 = length re /\
               forall x,
                 cget st.1 st.2 x =
                 if decide (x < b * len)%nat then stage_fn len (cget re im) x
                 else cget re im x).
  assert (HQ : Q (0 + blocks)%nat
                 (foldl (fun st b => block half (cos ang) (sin ang) st (b * len)%nat)
                        (re, im) (seq 0 blocks))).
  { apply foldl_invariant.
    - unfold Q. simpl. split; [reflexivity |]. split; [lia |]. reflexivity.
    - intros b [re1 im1] Hb (Hl1 & Hl2 & Hx). simpl in Hl1, Hl2, Hx.
      destruct (block_spec half (b * len) re1 im1) as (re2 & im2 & E & Hl1' & Hl2' & Hx');
        [lia | lia | unfold len in *; nia |].
      fold len in E, Hx'. fold ang in E. rewrite E.
      unfold Q. cbn [fst snd]. split; [lia |]. split; [lia |]. intros x. rewrite Hx'.
      destruct (decide (b * len <= x < b * len + len)%nat) as [Hin | Hout].
      + rewrite decide_True by lia.
        unfold len. rewrite block_value_stage_fn by (fold len; lia). fold len.
        unfold stage_fn. cbv zeta. rewrite Hhalf.
        assert (Hmod : (x mod len = x - b * len)%nat).
        { symmetry. apply Nat.mod_unique with (q := b); unfold len in *; lia. }
        rewrite Hmod, !Hx.
        destruct (decide (x - b * len < half)%nat).
        * rewrite !decide_False by (unfold len in *; lia). reflexivity.
        * rewrite !decide_False by (unfold len in *; lia). reflexivity.
      + rewrite Hx.
        destruct (decide (x < b * len)%nat); destruct (decide (x < S b * len)%nat);
          try reflexivity; unfold len in *; lia. }
  destruct (foldl (fun st b => block half (cos ang) (sin ang) st (b * len)%nat)
                  (re, im) (seq 0 blocks)) as [re' im'].
  destruct HQ as (Hl1 & Hl2 & Hx). simpl in Hl1, Hl2, Hx.
  exists re', im'. split; [reflexivity |]. split; [exact Hl1 |]. split; [exact Hl2 |].
  intros x Hlt. rewrite Hx, decide_True by lia. reflexivity.
Qed.

End Stages.

(** ** [fftInPlace] computes the discrete Fourier transform *)

Section FftCorrect.

Import MelSpectrogram.

Lemma dft_ext (f g : nat -> Cx.C) (n k : nat) :
  (forall t, (t < n)%nat -> f t = g t) -> dft f n k = dft g n k.
Proof.
  intros H. unfold dft. apply sum_ext. intros t Ht. rewrite H by exact Ht. reflexivity.
Qed.

Lemma transformed_0 (p : nat) (a A : nat -> Cx.C) :
  (forall x, (x < 2 ^ p)%nat -> A x = a (bitrev p x)) -> transformed p 0 a A.
Proof.
  intros H b k Hb Hk. rewrite Nat.sub_0_r in *. simpl in Hk.
  assert (k = 0%nat) by lia. subst k.
  rewrite H by (simpl; lia).
  unfold dft. simpl. rewrite twiddle_0.
  replace (b * 1 + 0)%nat with b by lia.
  apply pair_eq; simpl; ring.
Qed.

Lemma transformed_step (p s : nat) (a A A' : nat -> Cx.C) :
  (s < p)%nat -> transformed p s a A ->
  (forall x, (x < 2 ^ p)%nat -> A' x = stage_fn (2 ^ S s) A x) ->
  transformed p (S s) a A'.
Proof.
  intros Hs HA HA' b k Hb Hk.
  set (q := (p - S s)%nat) in *.
  assert (Eq : (p - s)%nat = S q) by (unfold q; lia).
  assert (Ep : (2 ^ p = 2 ^ q * (2 * 2 ^ s))%nat).
  { replace p with (q + S s)%nat by (unfold q; lia).
    rewrite Nat.pow_add_r, Nat.pow_succ_r'. reflexivity. }
  pose proof (pow2_pos s) as Hh.
  set (f := fun v => a (v * 2 ^ q + bitrev q b)%nat).
  assert (Heven : forall j, (j < 2 ^ s)%nat ->
                    A (2 * b * 2 ^ s + j)%nat = dft (fun u => f (2 * u)%nat) (2 ^ s) j).
  { intros j Hj. rewrite (HA (2 * b)%nat j) by (rewrite ?Eq, ?Nat.pow_succ_r'; lia).
    rewrite Eq. apply dft_ext. intros u _. unfold f.
    rewrite bitrev_double, Nat.pow_succ_r'. f_equal. lia. }
  assert (Hodd : forall j, (j < 2 ^ s)%nat ->
                   A ((2 * b + 1) * 2 ^ s + j)%nat
                   = dft (fun u => f (2 * u + 1)%nat) (2 ^ s) j).
  { intros j Hj. rewrite (HA (2 * b + 1)%nat j) by (rewrite ?Eq, ?Nat.pow_succ_r'; lia).
    rewrite Eq. apply dft_ext. intros u _. unfold f.
    rewrite bitrev_double_1, Nat.pow_succ_r'. f_equal. lia. }
  clear HA. rewrite Nat.pow_succ_r' in *.
  set (h := (2 ^ s)%nat) in *.
  rewrite HA' by nia.
  unfold stage_fn. cbv zeta.
  assert (Hhalf : (2 * h / 2 = h)%nat).
  { symmetry. apply Nat.div_unique with (r := 0%nat); lia. }
  assert (Hmod : ((b * (2 * h) + k) mod (2 * h) = k)%nat).
  { symmetry. apply Nat.mod_unique with (q := b); lia. }
  rewrite Hhalf, Hmod.
  change (dft (fun u => a (u * 2 ^ q + bitrev q b)%nat) (2 * h) k) with (dft f (2 * h) k).
  destruct (decide (k < h)%nat) as [Hlow | Hhigh].
  - replace (b * (2 * h) + k)%nat with (2 * b * h + k)%nat by lia.
    replace (2 * b * h + k + h)%nat with ((2 * b + 1) * h + k)%nat by lia.
    rewrite Heven, Hodd by exact Hlow.
    symmetry. apply dft_butterfly_lower. exact Hh.
  - assert (Ek : exists j, k = (j + h)%nat) by (exists (k - h)%nat; lia).
    destruct Ek as [j ->].
    replace (b * (2 * h) + (j + h) - h)%nat with (2 * b * h + j)%nat by lia.
    replace (b * (2 * h) + (j + h))%nat with ((2 * b + 1) * h + j)%nat by lia.
    replace (j + h - h)%nat with j by lia.
    rewrite Heven, Hodd by lia.
    symmetry. apply dft_butterfly_upper. exact Hh.
Qed.

Lemma transformed_final (p : nat) (a A : nat -> Cx.C) :
  transformed p p a A -> forall k, (k < 2 ^ p)%nat -> A k = dft a (2 ^ p) k.
Proof.
  intros H k Hk. specialize (H 0%nat k). rewrite Nat.sub_diag in H.
  specialize (H ltac:(simpl; lia) Hk). rewrite Nat.mul_0_l, Nat.add_0_l in H.
  rewrite H. apply dft_ext. intros u _. simpl. f_equal. lia.
Qed.

(** The loop over [len], entered with [len = 2^s] after [s - 1] stages. *)
Lemma stages_spec (p : nat) (a : nat -> Cx.C) (d : nat) :
  (p <= 29)%nat ->
  forall (s k : nat) (re im : list R),
    (1 <= s)%nat -> (s + d = p + 1)%nat -> (d <= k)%nat ->
    length re = (2 ^ p)%nat -> length im = (2 ^ p)%nat ->
    transformed p (s - 1) a (cget re im) ->
    exists re' im',
      stages k (2 ^ p) (2 ^ Z.of_nat s) (re, im) = Some (re', im') /\
      length re' = (2 ^ p)%nat /\ length im' = (2 ^ p)%nat /\
      transformed p p a (cget re' im').
Proof.
  intros Hp. induction d as [| d IH]; intros s k re im Hs Hd Hk Hre Him HA.
  - (* [len = 2^(p+1)] is above [n]: the loop ends *)
    assert (s = S p) by lia. subst s.
    assert (Hgt : (2 ^ Z.of_nat p < 2 ^ Z.of_nat (S p))%Z)
      by (apply Z.pow_lt_mono_r; lia).
    destruct k; cbn [stages]; rewrite pow2_nat_Z;
      rewrite (proj2 (Z.leb_gt _ _)) by exact Hgt;
      (exists re, im; repeat split; try assumption;
       replace (S p - 1)%nat with p in HA by lia; apply HA).
  - destruct k as [| k]; [lia |]. cbn [stages].
    pose proof (pow2_below_31 (Z.of_nat s) ltac:(lia)) as Hlen.
    assert (Hle : (2 ^ Z.of_nat s <= 2 ^ Z.of_nat p)%Z)
      by (apply Z.pow_le_mono_r; lia).
    rewrite pow2_nat_Z, (proj2 (Z.leb_le _ _)) by exact Hle.
    rewrite (proj2 (Z.leb_gt _ _)) by lia.
    assert (Hshl : Js.shl (2 ^ Z.of_nat s) 1 = (2 ^ Z.of_nat (S s))%Z).
    { rewrite Js_shl_1.
      - rewrite Nat2Z.inj_succ, Z.pow_succ_r by lia. reflexivity.
      - split; [lia |]. apply Z.pow_lt_mono_r; lia. }
    rewrite Hshl, <- (pow2_nat_Z s), Nat2Z.id.
    destruct s as [| s']; [lia |].
    assert (Ep : (2 ^ p = 2 ^ (p - S s') * (2 * 2 ^ s'))%nat).
    { rewrite <- Nat.pow_succ_r', <- Nat.pow_add_r. f_equal. lia. }
    pose proof (pow2_pos s') as Hh.
    destruct (stage_spec (2 ^ s') (2 ^ (p - S s')) re im) as (re1 & im1 & E & Hl1 & Hl2 & Hx);
      [exact Hh | lia | lia |].
    cbv zeta in E, Hx. rewrite <- Ep, <- Nat.pow_succ_r' in E, Hx. rewrite E.
    apply (IH (S (S s')) k re1 im1); try lia.
    replace (S (S s') - 1)%nat with (S s') by lia.
    apply (transformed_step p s' a (cget re im)); [lia | |].
    + replace (S s' - 1)%nat with s' in HA by lia. exact HA.
    + exact Hx.
Qed.

(** [fftInPlace] on arrays of [2^p] entries, [p <= 29]: it returns, and
    the arrays then hold the transform of the complex input. *)
Lemma fftInPlace_spec (p : nat) (re im : list R) :
  (p <= 29)%nat -> length re = (2 ^ p)%nat -> length im = (2 ^ p)%nat ->
  exists re' im',
    fftInPlace re im = Some (re', im') /\
    length re' = (2 ^ p)%nat /\ length im' = (2 ^ p)%nat /\
    forall k, (k < 2 ^ p)%nat -> cget re' im' k = dft (cget re im) (2 ^ p) k.
Proof.
  intros Hp Hre Him. unfold fftInPlace.
  destruct (bitReversePermutation_spec p re im) as (re0 & im0 & -> & Hl1 & Hl2 & Hrev);
    [lia | exact Hre | exact Him |].
  rewrite Hre.
  destruct (stages_spec p (cget re im) p Hp 1 32 re0 im0) as (re' & im' & E & Hl1' & Hl2' & HT);
    try lia.
  { simpl. apply transformed_0. exact Hrev. }
  exists re', im'. split; [exact E |]. split; [exact Hl1' |]. split; [exact Hl2' |].
  apply transformed_final. exact HT.
Qed.

Lemma sum_components (n : nat) (f : nat -> Cx.C) :
  Cx.sum n f = (real_sum n (fun t => (f t).1), real_sum n (fun t => (f t).2)).
Proof.
  induction n as [| n IH]; [reflexivity |]. cbn [Cx.sum real_sum]. rewrite IH. reflexivity.
Qed.

Lemma real_sum_ext (n : nat) (f g : nat -> R) :
  (forall t, (t < n)%nat -> f t = g t) -> real_sum n f = real_sum n g.
Proof.
  induction n as [| n IH]; intros H; [reflexivity |]. cbn [real_sum].
  rewrite IH by (intros t Ht; apply H; lia). rewrite H by lia. reflexivity.
Qed.

Lemma dft_components (re im : list R) (k : nat) :
  (0 < length re)%nat ->
  dft (cget re im) (length re) k = (dft_re re im k, dft_im re im k).
Proof.
  intros Hn. unfold dft, dft_re, dft_im. rewrite sum_components.
  assert (Hang : forall t, INR (t * k) * (-2 * PI / INR (length re))
                           = dft_angle (length re) k t).
  { intros t. unfold dft_angle. rewrite mult_INR. field. apply not_0_INR. lia. }
  f_equal; apply real_sum_ext; intros t _; unfold twiddle, Cx.cis, Cx.mul, cget;
    rewrite Hang; simpl; ring.
Qed.

(** C1.  For arrays of the real and the imaginary parts of one length
    [N = 2^p], [fftInPlace] (after its [bitReversePermutation]) returns, and
    it has then overwritten both arrays with the unnormalized forward
    discrete Fourier transform of the complex input: entry [k] is the sum
    over [t] of [x[t] exp (-2 pi i k t / N)], with no normalization factor.
    The lengths covered are the powers of two up to [2^29]; the function is
    private to its module, which calls it on buffers of [N_FFT = 1024]
    entries only. *)
Theorem fftInPlace_dft (p : nat) (re im : list R) :
  (p <= 29)%nat -> length re = (2 ^ p)%nat -> length im = (2 ^ p)%nat ->
  exists re' im',
    fftInPlace re im = Some (re', im') /\
    length re' = length re /\ length im' = length im /\
    forall k, (k < length re)%nat ->
      Js.get re' k = dft_re re im k /\ Js.get im' k = dft_im re im k.
Proof.
  intros Hp Hre Him.
  destruct (fftInPlace_spec p re im Hp Hre Him) as (re' & im' & E & Hl1 & Hl2 & H).
  exists re', im'. split; [exact E |]. split; [lia |]. split; [lia |].
  intros k Hk. rewrite Hre in Hk. specialize (H k Hk).
  rewrite <- Hre, dft_components in H by (rewrite Hre; apply pow2_pos).
  unfold cget in H. injection H as H1 H2. split; assumption.
Qed.

Lemma fftInPlace_dft_witness :
  exists re' im',
    fftInPlace [1; 2; 3; 4] [0; 0; 0; 0] = Some (re', im') /\
    length re' = length [1; 2; 3; 4] /\ length im' = length [0; 0; 0; 0] /\
    forall k, (k < length [1; 2; 3; 4])%nat ->
      Js.get re' k = dft_re [1; 2; 3; 4] [0; 0; 0; 0] k /\
      Js.get im' k = dft_im [1; 2; 3; 4] [0; 0; 0; 0] k.
Proof. apply (fftInPlace_dft 2); [lia | reflexivity | reflexivity]. Defined.

(** With [len = 2^s] on arrays of [2^30] entries, the loop over [len]
    does not end: [len] reaches [2^30], is shifted to [-2^31], and the loop
    over the blocks then never advances. *)
Lemma stages_hang (n : nat) (d : nat) :
  Z.of_nat n = (2 ^ 30)%Z ->
  forall (s : Z) (k : nat) (st : list R * list R),
    (1 <= s)%Z -> (s + Z.of_nat d = 30)%Z -> stages k n (2 ^ s) st = None.
Proof.
  intros Hn. induction d as [| d IH]; intros s k st Hs Hd.
  - assert (s = 30%Z) by lia. subst s.
    destruct k as [| k]; cbn [stages]; rewrite Hn; [reflexivity |].
    change ((2 ^ 30 <=? 2 ^ 30)%Z) with true. change ((2 ^ 30 <=? 0)%Z) with false.
    cbv iota. rewrite Js_shl_wraps.
    destruct k; cbn [stages]; rewrite Hn; reflexivity.
  - destruct k as [| k]; cbn [stages]; rewrite Hn;
      pose proof (pow2_below_31 s ltac:(lia)) as Hlen;
      (assert (Hle : (2 ^ s <= 2 ^ 30)%Z) by (apply Z.pow_le_mono_r; lia));
      rewrite (proj2 (Z.leb_le _ _)) by exact Hle;
      rewrite (proj2 (Z.leb_gt _ _)) by lia; [reflexivity |].
    rewrite Js_shl_1 by (split; [lia | apply Z.pow_lt_mono_r; lia]).
    replace (2 * 2 ^ s)%Z with (2 ^ (s + 1))%Z by (rewrite Z.pow_add_r by lia; lia).
    apply IH; lia.
Qed.

Lemma fftInPlace_hangs (re im : list R) :
  Z.of_nat (length re) = (2 ^ 30)%Z -> fftInPlace re im = None.
Proof.
  intros Hn. unfold fftInPlace.
  destruct (bitReversePermutation re im) as [st |]; [| reflexivity].
  apply (stages_hang (length re) 29 Hn 1%Z 32 st); lia.
Qed.

(** Below [2^30] entries the call returns, whatever the length: [None]
    stands for the loop over [len] that does not end, never for a counter of
    the model that ran out. *)
Lemma carry_returns (k fuel : nat) (j bit : Z) :
  (k <= 31)%nat -> (0 <= bit < 2 ^ Z.of_nat k)%Z -> (k < fuel)%nat ->
  exists r, carry fuel j bit = Some r.
Proof.
  revert fuel j bit. induction k as [| k IH]; intros fuel j bit Hk Hbit Hf;
    (destruct fuel as [| fuel]; [lia |]); cbn [carry].
  - assert (bit = 0%Z) by (simpl in Hbit; lia). subst bit.
    unfold Js.and. change (Js.toInt32 0) with 0%Z. rewrite Z.land_0_r. simpl. eauto.
  - destruct (Js.and j bit =? 0)%Z; [eauto |].
    assert (Hlt : (2 ^ Z.of_nat (S k) <= 2 ^ 31)%Z) by (apply Z.pow_le_mono_r; lia).
    apply IH; [lia | | lia].
    rewrite Js_shr_1 by lia.
    rewrite Nat2Z.inj_succ, Z.pow_succ_r in Hbit by lia.
    split; [apply Z.div_pos; lia | apply Z.div_lt_upper_bound; lia].
Qed.

Lemma forM_returns {S : Type} (body : S -> nat -> option S) (indices : list nat) :
  (forall s i, exists s', body s i = Some s') ->
  forall st, exists st', forM body st indices = Some st'.
Proof.
  intros Hbody. induction indices as [| i rest IH]; intros st; cbn [forM]; [eauto |].
  destruct (Hbody st i) as [s' ->]. apply IH.
Qed.

Lemma bitReversePermutation_returns (re im : list R) :
  (Z.of_nat (length re) < 2 ^ 31)%Z -> exists st, bitReversePermutation re im = Some st.
Proof.
  intros Hn. unfold bitReversePermutation.
  destruct (forM_returns (bitReverse_step (length re)) (seq 1 (length re - 1)))
    with (st := (0%Z, re, im)) as [[[j re'] im'] ->]; [| eauto].
  intros [[j re'] im'] i. unfold bitReverse_step.
  destruct (carry_returns 30 34 j (Js.shr (Z.of_nat (length re)) 1)) as [[j' bit'] ->];
    [lia | | lia |].
  - rewrite Js_shr_1 by lia.
    split; [apply Z.div_pos; lia | apply Z.div_lt_upper_bound; lia].
  - destruct (Z.of_nat i <? Js.xor j' bit')%Z; eauto.
Qed.

Lemma stages_returns (n d : nat) :
  (Z.of_nat n < 2 ^ 30)%Z ->
  forall (s : Z) (k : nat) (st : list R * list R),
    (1 <= s)%Z -> (s + Z.of_nat d = 30)%Z -> (d < k)%nat ->
    exists st', stages k n (2 ^ s) st = Some st'.
Proof.
  intros Hn. induction d as [| d IH]; intros s k st Hs Hd Hk;
    (destruct k as [| k]; [lia |]); cbn [stages].
  - assert (s = 30%Z) by lia. subst s.
    rewrite (proj2 (Z.leb_gt _ _)) by lia. eauto.
  - pose proof (pow2_below_31 s ltac:(lia)) as Hlen.
    destruct (Z.leb_spec (2 ^ s) (Z.of_nat n)) as [Hle | Hgt]; [| eauto].
    rewrite (proj2 (Z.leb_gt _ _)) by lia.
    rewrite Js_shl_1 by (split; [lia | apply Z.pow_lt_mono_r; lia]).
    replace (2 * 2 ^ s)%Z with (2 ^ (s + 1))%Z by (rewrite Z.pow_add_r by lia; lia).
    apply IH; lia.
Qed.

Lemma fftInPlace_returns (re im : list R) :
  (Z.of_nat (length re) < 2 ^ 30)%Z -> exists st, fftInPlace re im = Some st.
Proof.
  intros Hn. unfold fftInPlace.
  destruct (bitReversePermutation_returns re im) as [st ->]; [lia |].
  apply (stages_returns (length re) 29 Hn 1%Z 32 st); lia.
Qed.

(** The transform of two samples, and the permutation of eight. *)
Example fftInPlace_two_samples : fftInPlace [1; 1] [0; 0] = Some ([2; 0], [0; 0]).
Proof.
  unfold fftInPlace.
  assert (E : bitReversePermutation [1; 1] [0; 0] = Some ([1; 1], [0; 0]))
    by (vm_compute; reflexivity).
  rewrite E. cbn [stages length].
  change ((2 <=? Z.of_nat 2)%Z) with true. change ((2 <=? 0)%Z) with false. cbv iota.
  change (Js.shl 2 1) with 4%Z. change ((4 <=? Z.of_nat 2)%Z) with false. cbv iota.
  unfold stage. change (Z.to_nat 2) with 2%nat.
  change ((2 + 2 - 1) / 2)%nat with 1%nat. change (2 / 2)%nat with 1%nat.
  cbn [seq fmap list_fmap foldl]. unfold block. cbn [seq foldl].
  unfold butterfly, Js.get, Js.set. simpl.
  do 2 f_equal; repeat f_equal; lra.
Qed.

Example bitReversePermutation_eight :
  bitReversePermutation [0; 1; 2; 3; 4; 5; 6; 7] [0; 0; 0; 0; 0; 0; 0; 0]
  = Some ([0; 4; 2; 6; 1; 5; 3; 7], [0; 0; 0; 0; 0; 0; 0; 0]).
Proof. vm_compute. reflexivity. Qed.

(** Why the transform is proved for lengths up to [2^29]: on arrays of
    [2^30] entries, far from the 1024 of the program's one call, the 32-bit
    shift of [len] wraps. *)
Lemma fftInPlace_does_not_return_at_2_30 :
  length zeros_2_30 = (2 ^ 30)%nat /\ fftInPlace zeros_2_30 zeros_2_30 = None.
Proof.
  unfold zeros_2_30. split; [apply length_replicate |].
  apply fftInPlace_hangs. rewrite length_replicate. apply (pow2_nat_Z 30).
Qed.

End FftCorrect.

(** ** The mel filters *)

Section MelFilters.

Import MelSpectrogram.

Lemma bin_lookup (i : nat) : (i < N_MELS + 2)%nat -> bin !! i = Some (bin_of i).
Proof.
  intros Hi. unfold bin, hzPoints, melPoints. cbv zeta.
  rewrite !list_lookup_fmap, lookup_seq_lt by exact Hi. reflexivity.
Qed.

Lemma ln_10_pos : 0 < ln 10.
Proof. rewrite <- ln_1. apply ln_increasing; lra. Qed.

Lemma hzToMel_increasing (x y : R) : 0 <= x -> x <= y -> hzToMel x <= hzToMel y.
Proof.
  intros Hx Hxy. unfold hzToMel, Math_log10. pose proof ln_10_pos as H10.
  apply Rmult_le_compat_l; [lra |].
  apply Rmult_le_compat_r; [left; apply Rinv_0_lt_compat; exact H10 |].
  destruct (Req_dec_T x y) as [-> | Hne]; [lra |].
  left. apply ln_increasing; lra.
Qed.

Lemma melToHz_increasing (x y : R) : x <= y -> melToHz x <= melToHz y.
Proof.
  intros Hxy. unfold melToHz.
  apply Rmult_le_compat_l; [lra |].
  apply Rplus_le_compat_r. apply Rle_Rpower; lra.
Qed.

Lemma mel_point_increasing (i j : nat) : (i <= j)%nat -> mel_point i <= mel_point j.
Proof.
  intros Hij. unfold mel_point.
  assert (Hspan : 0 <= hzToMel (IZR SAMPLE_RATE / 2) - hzToMel 0).
  { pose proof (hzToMel_increasing 0 (IZR SAMPLE_RATE / 2)) as H.
    unfold SAMPLE_RATE in *. lra. }
  assert (Hden : 0 < INR (N_MELS + 1)) by (apply lt_0_INR; unfold N_MELS; lia).
  apply Rplus_le_compat_l.
  apply Rmult_le_compat_r; [left; apply Rinv_0_lt_compat; exact Hden |].
  apply Rmult_le_compat_r; [exact Hspan |]. apply le_INR. exact Hij.
Qed.

(** The bin boundaries do not decrease with the band. *)
Lemma bin_of_increasing (i j : nat) : (i <= j)%nat -> (bin_of i <= bin_of j)%Z.
Proof.
  intros Hij. unfold bin_of, Js.Math_floor. apply Zfloor_le.
  assert (Hn : 0 < INR (N_FFT + 1)) by (apply lt_0_INR; unfold N_FFT; lia).
  pose proof (melToHz_increasing _ _ (mel_point_increasing i j Hij)) as Hhz.
  apply Rmult_le_compat_r; [unfold SAMPLE_RATE; lra |].
  apply Rmult_le_compat_l; [lra | exact Hhz].
Qed.

(** What a ramp leaves in the filter. *)
Lemma ramp_spec (from to : Z) (w : Z -> R) (f : list R) :
  length f = nFftBins ->
  length (ramp from to w f) = nFftBins /\
  forall x : nat,
    Js.get (ramp from to w f) x =
    if decide ((from <= Z.of_nat x < to)%Z /\ (x < nFftBins)%nat)
    then w (Z.of_nat x) else Js.get f x.
Proof.
  intros Hlen. unfold ramp, seqZ. rewrite foldl_fmap.
  pose (P := fun (m : nat) (g : list R) =>
               length g = nFftBins /\
               forall x : nat,
                 Js.get g x =
                 if decide ((from <= Z.of_nat x < from + Z.of_nat m)%Z /\ (x < nFftBins)%nat)
                 then w (Z.of_nat x) else Js.get f x).
  assert (HP : P (0 + Z.to_nat (to - from))%nat
                 (foldl (fun (g : list R) (b : nat) =>
                           if decide (0 <= Z.of_nat b + from
                                      /\ Z.of_nat b + from < Z.of_nat nFftBins)%Z
                           then Js.set g (Z.to_nat (Z.of_nat b + from)) (w (Z.of_nat b + from)%Z)
                           else g)
                        f (seq 0 (Z.to_nat (to - from))))).
  { apply foldl_invariant.
    - split; [exact Hlen |]. intros x. rewrite decide_False by lia. reflexivity.
    - intros m g _ [Hg Hx].
      destruct (decide (0 <= Z.of_nat m + from /\ Z.of_nat m + from < Z.of_nat nFftBins)%Z)
        as [Hin | Hout].
      + split; [rewrite length_set; exact Hg |]. intros x.
        destruct (decide (x = Z.to_nat (Z.of_nat m + from))) as [-> | Hne].
        * rewrite get_set_eq by lia. rewrite decide_True by lia. f_equal. lia.
        * rewrite get_set_ne by congruence. rewrite Hx.
          destruct (decide ((from <= Z.of_nat x < from + Z.of_nat m)%Z /\ (x < nFftBins)%nat));
            destruct (decide ((from <= Z.of_nat x < from + Z.of_nat (S m))%Z /\ (x < nFftBins)%nat));
            try reflexivity; lia.
      + split; [exact Hg |]. intros x. rewrite Hx.
        destruct (decide ((from <= Z.of_nat x < from + Z.of_nat m)%Z /\ (x < nFftBins)%nat));
          destruct (decide ((from <= Z.of_nat x < from + Z.of_nat (S m))%Z /\ (x < nFftBins)%nat));
          try reflexivity; lia. }
  destruct HP as [Hg Hx]. split; [exact Hg |]. intros x. rewrite Hx.
  destruct (decide ((from <= Z.of_nat x < from + Z.of_nat (0 + Z.to_nat (to - from)))%Z
                    /\ (x < nFftBins)%nat));
    destruct (decide ((from <= Z.of_nat x < to)%Z /\ (x < nFftBins)%nat));
    try reflexivity; lia.
Qed.

Lemma Rmax_1_pos (x : R) : 0 < Rmax 1 x.
Proof. pose proof (Rmax_l 1 x). lra. Qed.

(** The filter of band [m], from its three bin boundaries. *)
Lemma melFilter_spec (m : nat) :
  (1 <= m <= N_MELS)%nat ->
  let left := bin_of (m - 1) in
  let right := bin_of (m + 1) in
  length (melFilter m) = nFftBins /\
  (forall k : nat, 0 <= Js.get (melFilter m) k) /\
  (forall k : nat, (Z.of_nat k < left \/ right < Z.of_nat k)%Z -> Js.get (melFilter m) k = 0) /\
  ((right <= left)%Z -> melFilter m = Js.zeros nFftBins).
Proof.
  intros Hm left right. unfold melFilter. cbv zeta.
  rewrite !bin_lookup by (unfold N_MELS in *; lia).
  change (default 0%Z (Some (bin_of (m - 1)))) with left.
  change (default 0%Z (Some (bin_of (m + 1)))) with right.
  change (default 0%Z (Some (bin_of m))) with (bin_of m).
  set (center := bin_of m).
  assert (Hlc : (left <= center)%Z) by (apply bin_of_increasing; lia).
  assert (Hcr : (center <= right)%Z) by (apply bin_of_increasing; lia).
  assert (Hz : length (Js.zeros nFftBins) = nFftBins) by apply length_replicate.
  destruct (decide (right <= left)%Z) as [Hdeg | Hok].
  - split; [exact Hz |]. split; [intros k; rewrite get_zeros; lra |].
    split; [intros k _; apply get_zeros | reflexivity].
  - set (up := fun k : Z => IZR (k - left) / Rmax 1 (IZR (center - left))).
    set (down := fun k : Z => IZR (right - k) / Rmax 1 (IZR (right - center))).
    destruct (ramp_spec left center up (Js.zeros nFftBins) Hz) as [Hl1 Hx1].
    destruct (ramp_spec center right down _ Hl1) as [Hl2 Hx2].
    split; [exact Hl2 |].
    assert (Hget : forall k : nat,
               Js.get (ramp center right down (ramp left center up (Js.zeros nFftBins))) k =
               if decide ((center <= Z.of_nat k < right)%Z /\ (k < nFftBins)%nat)
               then down (Z.of_nat k)
               else if decide ((left <= Z.of_nat k < center)%Z /\ (k < nFftBins)%nat)
                    then up (Z.of_nat k) else 0).
    { intros k. rewrite Hx2, Hx1, get_zeros. reflexivity. }
    split; [| split].
    + intros k. rewrite Hget.
      destruct (decide ((center <= Z.of_nat k < right)%Z /\ (k < nFftBins)%nat)) as [H1 | H1].
      * unfold down. apply Rmult_le_pos; [apply IZR_le; lia |].
        left. apply Rinv_0_lt_compat, Rmax_1_pos.
      * destruct (decide ((left <= Z.of_nat k < center)%Z /\ (k < nFftBins)%nat)) as [H2 | H2];
          [| lra].
        unfold up. apply Rmult_le_pos; [apply IZR_le; lia |].
        left. apply Rinv_0_lt_compat, Rmax_1_pos.
    + intros k Hk. rewrite Hget. rewrite !decide_False by lia. reflexivity.
    + intros Hdeg. lia.
Qed.

Lemma reachable_consistent (c : Caches) :
  reachable c ->
  (cachedWindow c = None \/ cachedWindow c = Some (hannWindow N_FFT)) /\
  (cachedFilters c = None \/ cachedFilters c = Some buildMelFilters).
Proof.
  induction 1 as [| c Hc [IHw IHf] | c Hc [IHw IHf]].
  - split; left; reflexivity.
  - unfold getWindow. destruct (cachedWindow c) eqn:E; simpl; [rewrite E |]; auto.
  - unfold getMelFilters. destruct (cachedFilters c) eqn:E; simpl; [rewrite E |]; auto.
Qed.

Lemma getWindow_reachable (c : Caches) :
  reachable c -> (getWindow c).1 = hannWindow N_FFT.
Proof.
  intros Hc. destruct (reachable_consistent c Hc) as [[E | E] _];
    unfold getWindow; rewrite E; reflexivity.
Qed.

Lemma getMelFilters_reachable (c : Caches) :
  reachable c -> (getMelFilters c).1 = buildMelFilters.
Proof.
  intros Hc. destruct (reachable_consistent c Hc) as [_ [E | E]];
    unfold getMelFilters; rewrite E; reflexivity.
Qed.

Lemma buildMelFilters_lookup (m : nat) :
  (m < N_MELS)%nat -> buildMelFilters !! m = Some (melFilter (m + 1)).
Proof.
  intros Hm. unfold buildMelFilters.
  rewrite list_lookup_fmap, lookup_seq_lt by exact Hm.
  simpl. f_equal. f_equal. lia.
Qed.

(** C7.  Each of the 128 filters that [getMelFilters] gives, the one of
    band [m] with the bin boundaries [bin[m - 1]] and [bin[m + 1]], has a
    weight at least 0 at every bin and the weight 0 at every bin outside
    [[bin[m - 1], bin[m + 1]]]; when the right boundary is not above the left
    one the filter is entirely zero. *)
Theorem mel_filters_shape (c : Caches) (m : nat) :
  reachable c -> (1 <= m <= N_MELS)%nat ->
  exists (f : list R) (left right : Z),
    (getMelFilters c).1 !! (m - 1)%nat = Some f /\
    bin !! (m - 1)%nat = Some left /\ bin !! (m + 1)%nat = Some right /\
    length f = nFftBins /\
    (forall k : nat, 0 <= Js.get f k) /\
    (forall k : nat, (Z.of_nat k < left \/ right < Z.of_nat k)%Z -> Js.get f k = 0) /\
    ((right <= left)%Z -> f = Js.zeros nFftBins).
Proof.
  intros Hc Hm. exists (melFilter m), (bin_of (m - 1)), (bin_of (m + 1)).
  rewrite (getMelFilters_reachable c Hc).
  split.
  { rewrite buildMelFilters_lookup by lia. do 2 f_equal. lia. }
  split; [apply bin_lookup; unfold N_MELS in *; lia |].
  split; [apply bin_lookup; unfold N_MELS in *; lia |].
  apply melFilter_spec. exact Hm.
Qed.

Lemma mel_filters_shape_witness :
  exists (f : list R) (left right : Z),
    (getMelFilters noCaches).1 !! (1 - 1)%nat = Some f /\
    bin !! (1 - 1)%nat = Some left /\ bin !! (1 + 1)%nat = Some right /\
    length f = nFftBins /\
    (forall k : nat, 0 <= Js.get f k) /\
    (forall k : nat, (Z.of_nat k < left \/ right < Z.of_nat k)%Z -> Js.get f k = 0) /\
    ((right <= left)%Z -> f = Js.zeros nFftBins).
Proof.
  apply (mel_filters_shape noCaches 1); [apply reachable_start | unfold N_MELS; lia].
Defined.

End MelFilters.

(** ** The mel spectrogram *)

Section MelSpectrogramProperties.

Import MelSpectrogram.

Lemma N_FFT_pow2 : N_FFT = (2 ^ 10)%nat.
Proof. reflexivity. Qed.

Lemma N_FRAMES_pos : (0 < N_FRAMES)%nat.
Proof. unfold N_FRAMES. lia. Qed.

Lemma tensor_size : (N_MELS * N_FRAMES = 4096)%nat.
Proof. reflexivity. Qed.

Lemma nFftBins_below_N_FFT : (nFftBins <= N_FFT)%nat.
Proof. unfold nFftBins, N_FFT. simpl. lia. Qed.

Local Opaque N_FFT N_MELS N_FRAMES HOP_LENGTH nFftBins.

Lemma padded_copy (samples : list R) :
  copy_into (Js.zeros (length samples + N_FFT / 2 * 2)) samples (N_FFT / 2)
  = padded_signal samples.
Proof.
  unfold copy_into, padded_signal, Js.zeros.
  rewrite take_replicate, drop_replicate. do 2 f_equal; [lia |]. f_equal. f_equal. lia.
Qed.

Lemma copy_into_whole (target source : list R) :
  length source = length target -> copy_into target source 0 = source.
Proof.
  intros H. unfold copy_into. rewrite take_0, drop_ge by (simpl; lia).
  simpl. apply app_nil_r.
Qed.

Lemma fill_frame_spec (padded window frame : list R) (start : nat) :
  length frame = N_FFT ->
  length (fill_frame padded window start frame) = N_FFT /\
  forall i, (i < N_FFT)%nat ->
    Js.get (fill_frame padded window start frame) i
    = Js.get padded (start + i) * Js.get window i.
Proof.
  intros Hlen. unfold fill_frame.
  pose (P := fun (m : nat) (g : list R) =>
               length g = N_FFT /\
               forall i, (i < m)%nat -> Js.get g i = Js.get padded (start + i) * Js.get window i).
  assert (HP : P (0 + N_FFT)%nat
                 (foldl (fun g i => Js.set g i (Js.get padded (start + i) * Js.get window i))
                        frame (seq 0 N_FFT))).
  { apply foldl_invariant.
    - split; [exact Hlen | intros i Hi; lia].
    - intros m g Hm [Hg Hx]. split; [rewrite length_set; exact Hg |]. intros i Hi.
      destruct (decide (i = m)) as [-> | Hne].
      + apply get_set_eq. lia.
      + rewrite get_set_ne by congruence. apply Hx. lia. }
  exact HP.
Qed.

Lemma fill_power_spec (re im power : list R) :
  length power = nFftBins ->
  length (fill_power re im power) = nFftBins /\
  forall k, (k < nFftBins)%nat ->
    Js.get (fill_power re im power) k
    = Js.get re k * Js.get re k + Js.get im k * Js.get im k.
Proof.
  intros Hlen. unfold fill_power.
  pose (P := fun (m : nat) (g : list R) =>
               length g = nFftBins /\
               forall k, (k < m)%nat ->
                 Js.get g k = Js.get re k * Js.get re k + Js.get im k * Js.get im k).
  assert (HP : P (0 + nFftBins)%nat
                 (foldl (fun g k => let r := Js.get re k in
                                    let ii := Js.get im k in
                                    Js.set g k (r * r + ii * ii))
                        power (seq 0 nFftBins))).
  { apply foldl_invariant.
    - split; [exact Hlen | intros i Hi; lia].
    - intros m g Hm [Hg Hx]. cbv zeta. split; [rewrite length_set; exact Hg |]. intros k Hk.
      destruct (decide (k = m)) as [-> | Hne].
      + apply get_set_eq. lia.
      + rewrite get_set_ne by congruence. apply Hx. lia. }
  exact HP.
Qed.

Lemma weighted_sum_real_sum (power filt : list R) :
  weighted_sum power filt = real_sum nFftBins (fun k => Js.get power k * Js.get filt k).
Proof.
  unfold weighted_sum.
  apply (foldl_invariant (fun sum k => sum + Js.get power k * Js.get filt k)
           (fun m sum => sum = real_sum m (fun k => Js.get power k * Js.get filt k))
           nFftBins 0 0).
  - reflexivity.
  - intros m sum _ ->. reflexivity.
Qed.

Lemma tensor_index_inj (F b t m t' : nat) :
  (b * F + t = m * F + t')%nat -> (t < F)%nat -> (t' < F)%nat -> m = b /\ t' = t.
Proof.
  intros E Ht Ht'.
  assert (Hb : b = ((b * F + t) / F)%nat) by (apply Nat.div_unique with (r := t); lia).
  assert (Hm : m = ((b * F + t) / F)%nat) by (apply Nat.div_unique with (r := t'); lia).
  split; [congruence |]. subst m. rewrite <- Hb in E. lia.
Qed.

Lemma project_spec (filters : list (list R)) (power out : list R) (t : nat) :
  (t < N_FRAMES)%nat -> length out = (N_MELS * N_FRAMES)%nat ->
  length (project filters power t out) = (N_MELS * N_FRAMES)%nat /\
  forall m t', (m < N_MELS)%nat -> (t' < N_FRAMES)%nat ->
    Js.get (project filters power t out) (m * N_FRAMES + t') =
    if decide (t' = t) then weighted_sum power (default [] (filters !! m))
    else Js.get out (m * N_FRAMES + t').
Proof.
  intros Ht Hlen. unfold project.
  pose (P := fun (b : nat) (g : list R) =>
               length g = (N_MELS * N_FRAMES)%nat /\
               forall m t', (m < N_MELS)%nat -> (t' < N_FRAMES)%nat ->
                 Js.get g (m * N_FRAMES + t') =
                 if decide (t' = t /\ m < b)%nat
                 then weighted_sum power (default [] (filters !! m))
                 else Js.get out (m * N_FRAMES + t')).
  assert (HP : P (0 + N_MELS)%nat
                 (foldl (fun g m => let filt := default [] (filters !! m) in
                                    Js.set g (m * N_FRAMES + t) (weighted_sum power filt))
                        out (seq 0 N_MELS))).
  { apply foldl_invariant.
    - split; [exact Hlen |]. intros m t' _ _. rewrite decide_False by lia. reflexivity.
    - intros b g Hb [Hg Hx]. cbv zeta. split; [rewrite length_set; exact Hg |].
      intros m t' Hm Ht'.
      destruct (decide (m = b /\ t' = t)) as [[-> ->] | Hne].
      + rewrite get_set_eq by (rewrite Hg; nia).
        rewrite decide_True by lia. reflexivity.
      + rewrite get_set_ne
          by (intros E; apply tensor_index_inj in E; [tauto | assumption | assumption]).
        rewrite Hx by assumption.
        destruct (decide (t' = t /\ m < b)%nat); destruct (decide (t' = t /\ m < S b)%nat);
          try reflexivity; lia. }
  destruct HP as [Hg Hx]. split; [exact Hg |]. intros m t' Hm Ht'.
  rewrite Hx by assumption.
  destruct (decide (t' = t /\ m < 0 + N_MELS)%nat); destruct (decide (t' = t));
    try reflexivity; lia.
Qed.

(** One frame: the transform of the windowed frame returns, and the
    column [t] of the output receives the band energies of the frame. *)
Lemma frame_step_spec (samples : list R) (b : Buffers) (t : nat) :
  (t < N_FRAMES)%nat ->
  length (frame b) = N_FFT -> length (re b) = N_FFT -> length (im b) = N_FFT ->
  length (power b) = nFftBins -> length (out b) = (N_MELS * N_FRAMES)%nat ->
  exists b',
    frame_step (padded_signal samples) (hannWindow N_FFT) buildMelFilters b t = Some b' /\
    length (frame b') = N_FFT /\ length (re b') = N_FFT /\ length (im b') = N_FFT /\
    length (power b') = nFftBins /\ length (out b') = (N_MELS * N_FRAMES)%nat /\
    forall m t', (m < N_MELS)%nat -> (t' < N_FRAMES)%nat ->
      Js.get (out b') (m * N_FRAMES + t') =
      if decide (t' = t) then mel_value samples m t
      else Js.get (out b) (m * N_FRAMES + t').
Proof.
  intros Ht Hf Hre Him Hpw Hout. unfold frame_step. cbv zeta.
  destruct (fill_frame_spec (padded_signal samples) (hannWindow N_FFT) (frame b)
              (t * HOP_LENGTH) Hf) as [Hf' Hfx].
  set (fr := fill_frame (padded_signal samples) (hannWindow N_FFT) (t * HOP_LENGTH) (frame b))
    in *.
  rewrite copy_into_whole by lia. rewrite Him.
  destruct (fftInPlace_spec 10 fr (replicate N_FFT 0)) as (re' & im' & -> & Hl1 & Hl2 & Hdft);
    [lia | rewrite Hf'; apply N_FFT_pow2 | rewrite length_replicate; apply N_FFT_pow2 |].
  rewrite <- N_FFT_pow2 in Hl1, Hl2, Hdft.
  destruct (fill_power_spec re' im' (power b) Hpw) as [Hpw' Hpx].
  destruct (project_spec buildMelFilters (fill_power re' im' (power b)) (out b) t Ht Hout)
    as [Hout' Hox].
  eexists. split; [reflexivity |]. cbn [frame re im power out].
  repeat (split; [assumption |]).
  intros m t' Hm Ht'. rewrite Hox by assumption.
  destruct (decide (t' = t)) as [-> | _]; [| reflexivity].
  rewrite buildMelFilters_lookup by exact Hm.
  change (default [] (Some (melFilter (m + 1)))) with (melFilter (m + 1)).
  rewrite weighted_sum_real_sum. unfold mel_value.
  apply real_sum_ext. intros k Hk. f_equal.
  rewrite Hpx by exact Hk. unfold power_at. cbv zeta.
  assert (Hz : dft (fun i => (frame_at samples t i, 0)) N_FFT k = cget re' im' k).
  { destruct (decide (k < N_FFT)%nat) as [Hlt | Hge].
    - rewrite Hdft by exact Hlt. apply dft_ext. intros i Hi.
      unfold cget, frame_at. rewrite Hfx by exact Hi.
      fold (Js.zeros N_FFT). rewrite get_zeros. reflexivity.
    - pose proof nFftBins_below_N_FFT. lia. }
  rewrite Hz. reflexivity.
Qed.

Lemma frames_spec (samples : list R) :
  exists b,
    frames (padded_signal samples) (hannWindow N_FFT) buildMelFilters = Some b /\
    length (out b) = (N_MELS * N_FRAMES)%nat /\
    forall m t, (m < N_MELS)%nat -> (t < N_FRAMES)%nat ->
      Js.get (out b) (m * N_FRAMES + t) = mel_value samples m t.
Proof.
  unfold frames.
  destruct (forM_invariant
              (frame_step (padded_signal samples) (hannWindow N_FFT) buildMelFilters)
              (fun t b =>
                 length (frame b) = N_FFT /\ length (re b) = N_FFT /\ length (im b) = N_FFT /\
                 length (power b) = nFftBins /\ length (out b) = (N_MELS * N_FRAMES)%nat /\
                 forall m t', (m < N_MELS)%nat -> (t' < t)%nat ->
                   Js.get (out b) (m * N_FRAMES + t') = mel_value samples m t')
              N_FRAMES 0 newBuffers)
    as (b & E & _ & _ & _ & _ & Hout & Hx).
  - unfold newBuffers, Js.zeros. cbn [frame re im power out].
    rewrite !length_replicate. repeat (split; [reflexivity |]). intros m t' _ Ht'. lia.
  - intros t b Ht (Hf & Hre & Him & Hpw & Hout & Hx).
    destruct (frame_step_spec samples b t) as (b' & E & Hf' & Hre' & Him' & Hpw' & Hout' & Hx');
      try assumption; try lia.
    exists b'. split; [exact E |]. repeat (split; [assumption |]).
    intros m t' Hm Ht'. rewrite Hx' by (assumption || lia).
    destruct (decide (t' = t)) as [-> | Hne]; [reflexivity |]. apply Hx; [assumption | lia].
  - exists b. split; [exact E |]. split; [exact Hout |].
    intros m t Hm Ht. apply Hx; [assumption | lia].
Qed.

(** The mel spectrogram of any samples: the call returns, and its output
    holds the energy of band [m] in frame [t] at index [m * N_FRAMES + t]. *)
Lemma melSpectrogram_spec (samples : list R) (c : Caches) :
  reachable c ->
  exists out' c',
    melSpectrogram128x32From16k samples c = Some (out', c') /\
    reachable c' /\
    length out' = (N_MELS * N_FRAMES)%nat /\
    forall m t, (m < N_MELS)%nat -> (t < N_FRAMES)%nat ->
      Js.get out' (m * N_FRAMES + t) = mel_value samples m t.
Proof.
  intros Hc. unfold melSpectrogram128x32From16k. cbv zeta.
  rewrite padded_copy.
  pose proof (getWindow_reachable c Hc) as Hw.
  pose proof (reachable_getWindow c Hc) as Hc1.
  destruct (getWindow c) as [window c1]. simpl in Hw, Hc1. subst window.
  pose proof (getMelFilters_reachable c1 Hc1) as Hfs.
  pose proof (reachable_getMelFilters c1 Hc1) as Hc2.
  destruct (getMelFilters c1) as [filters c2]. simpl in Hfs, Hc2. subst filters.
  destruct (frames_spec samples) as (b & -> & Hout & Hx).
  exists (out b), c2. repeat split; assumption.
Qed.

(** C3.  For every array of samples, of any length, the mel spectrogram
    is a flat tensor of exactly [N_MELS * N_FRAMES = 128 * 32 = 4096] values,
    in mel-major order: the value of band [m] and frame [t] stands at index
    [m * 32 + t]. *)
Theorem melSpectrogram_shape (samples : list R) (c : Caches) :
  reachable c ->
  exists out' c',
    melSpectrogram128x32From16k samples c = Some (out', c') /\
    length out' = 4096%nat /\
    forall m t, (m < 128)%nat -> (t < 32)%nat ->
      Js.get out' (m * 32 + t) = mel_value samples m t.
Proof.
  intros Hc.
  destruct (melSpectrogram_spec samples c Hc) as (out' & c' & E & _ & Hlen & Hx).
  exists out', c'. split; [exact E |]. split; [rewrite Hlen; apply tensor_size |].
  exact Hx.
Qed.

Lemma melSpectrogram_shape_witness :
  exists out' c',
    melSpectrogram128x32From16k [] noCaches = Some (out', c') /\
    length out' = 4096%nat /\
    forall m t, (m < 128)%nat -> (t < 32)%nat ->
      Js.get out' (m * 32 + t) = mel_value [] m t.
Proof. apply melSpectrogram_shape. apply reachable_start. Defined.

Lemma sum_zero (n : nat) : Cx.sum n (fun _ => Cx.zero) = Cx.zero.
Proof.
  induction n as [| n IH]; [reflexivity |]. cbn [Cx.sum]. rewrite IH.
  apply pair_eq; simpl; ring.
Qed.

Lemma real_sum_zero (n : nat) : real_sum n (fun _ => 0) = 0.
Proof. induction n as [| n IH]; [reflexivity |]. cbn [real_sum]. rewrite IH. ring. Qed.

Lemma all_zero_replicate (samples : list R) :
  Forall (fun v => v = 0) samples -> samples = replicate (length samples) 0.
Proof.
  induction 1 as [| v l -> _ IH]; [reflexivity |]. simpl. f_equal. exact IH.
Qed.

(** The energies of a silent signal. *)
Lemma mel_value_silence (samples : list R) (m t : nat) :
  Forall (fun v => v = 0) samples -> mel_value samples m t = 0.
Proof.
  intros Hz. unfold mel_value.
  rewrite <- (real_sum_zero nFftBins). apply real_sum_ext. intros k _.
  assert (Hf : forall i, frame_at samples t i = 0).
  { intros i. unfold frame_at, padded_signal, Js.zeros.
    rewrite (all_zero_replicate samples Hz), <- !replicate_add.
    fold (Js.zeros (N_FFT / 2 + (length samples + N_FFT / 2))).
    rewrite get_zeros. ring. }
  assert (Hd : dft (fun i => (frame_at samples t i, 0)) N_FFT k = Cx.zero).
  { unfold dft. rewrite <- (sum_zero N_FFT). apply sum_ext. intros i _.
    rewrite Hf. apply pair_eq; simpl; ring. }
  unfold power_at. cbv zeta. rewrite Hd. simpl. ring.
Qed.

(** C9.  For every array of samples that are all zero, of any length, the
    mel spectrogram is entirely zero. *)
Theorem melSpectrogram_silence (samples : list R) (c : Caches) :
  reachable c -> Forall (fun v => v = 0) samples ->
  exists c', melSpectrogram128x32From16k samples c = Some (replicate 4096 0, c').
Proof.
  intros Hc Hz.
  destruct (melSpectrogram_spec samples c Hc) as (out' & c' & E & _ & Hlen & Hx).
  exists c'. rewrite E. do 2 f_equal.
  rewrite <- tensor_size.
  apply array_ext; [rewrite length_replicate; exact Hlen |].
  intros x Hxlt. fold (Js.zeros (N_MELS * N_FRAMES)). rewrite get_zeros.
  pose proof N_FRAMES_pos as HF.
  rewrite (Nat.div_mod_eq x N_FRAMES), (Nat.mul_comm N_FRAMES).
  rewrite Hx.
  - apply mel_value_silence, Hz.
  - apply Nat.Div0.div_lt_upper_bound. rewrite Nat.mul_comm. lia.
  - apply Nat.mod_upper_bound. lia.
Qed.

Lemma melSpectrogram_silence_witness :
  exists c', melSpectrogram128x32From16k [0; 0; 0] noCaches = Some (replicate 4096 0, c').
Proof.
  apply melSpectrogram_silence; [apply reachable_start | repeat constructor].
Defined.

End MelSpectrogramProperties.

(** ** Further properties of the code *)

(** *** src/lib/audio.ts *)

Section AudioFurther.

Import Audio.

Lemma Math_round_nonneg (x : R) : 0 <= x -> (0 <= Js.Math_round x)%Z.
Proof. intros Hx. unfold Js.Math_round. apply Zfloor_lub. simpl. lra. Qed.

Lemma Math_round_le (x : R) (n : Z) : x <= IZR n -> (Js.Math_round x <= n)%Z.
Proof.
  intros Hx. unfold Js.Math_round.
  pose proof (Zfloor_bound (x + / 2)) as [Hb _].
  assert (H : IZR (Zfloor (x + / 2)) < IZR (n + 1)) by (rewrite plus_IZR; lra).
  apply lt_IZR in H. lia.
Qed.

Lemma Math_round_Z (n : Z) : Js.Math_round (IZR n) = n.
Proof. unfold Js.Math_round. apply Zfloor_eq. lra. Qed.

Lemma takeOrPadToLength_eq (x : list R) (L : nat) :
  takeOrPadToLength x L = take L x ++ replicate (L - length x) 0.
Proof.
  unfold takeOrPadToLength, Js.zeros.
  destruct (decide (length x = L)) as [E | N].
  - subst L. rewrite take_ge by lia. rewrite Nat.sub_diag. simpl.
    rewrite app_nil_r. reflexivity.
  - destruct (decide (L <= length x)%nat) as [Hle | Hgt].
    + replace (L - length x)%nat with 0%nat by lia. simpl.
      rewrite app_nil_r. reflexivity.
    + rewrite take_ge by lia. reflexivity.
Qed.

Lemma takeOrPadToLength_has_length (x : list R) (L : nat) :
  length (takeOrPadToLength x L) = L.
Proof.
  rewrite takeOrPadToLength_eq, length_app, length_take, length_replicate. lia.
Qed.

Lemma takeOrPadToLength_fixed (x : list R) (L : nat) :
  length x = L -> takeOrPadToLength x L = x.
Proof.
  intros E. unfold takeOrPadToLength. rewrite decide_True by exact E. reflexivity.
Qed.

Lemma takeCenterSegment_has_length (x : list R) (L : nat) :
  length (takeCenterSegment x L) = L.
Proof.
  unfold takeCenterSegment.
  destruct (decide (length x <= L)%nat) as [Hle | Hgt].
  - apply takeOrPadToLength_has_length.
  - cbv zeta.
    pose proof (Nat.Div0.div_le_upper_bound (length x - L) 2 (length x - L) ltac:(lia)).
    rewrite length_take, length_drop. lia.
Qed.

(** The entry [i] of the output of [resampleLinear], for rates that differ. *)
Lemma resampleLinear_lookup (input : list R) (inputRate outputRate : R) (i : nat) :
  inputRate <> outputRate ->
  (i < length (resampleLinear input inputRate outputRate))%nat ->
  resampleLinear input inputRate outputRate !! i =
  Some (let pos := INR i / (outputRate / inputRate) in
        let idx := Js.Math_floor pos in
        let a := default 0 (Js.at_ input idx) in
        let b := default a (Js.at_ input (idx + 1)) in
        a + (b - a) * (pos - IZR idx)).
Proof.
  intros Hne Hi. rewrite resampleLinear_length_diff in Hi by exact Hne.
  unfold resampleLinear.
  destruct (Req_dec_T inputRate outputRate) as [e | _]; [contradiction |].
  cbv zeta. rewrite list_lookup_fmap, lookup_seq_lt by exact Hi. reflexivity.
Qed.

Lemma at_in_range (input : list R) (z : Z) :
  (0 <= z < Z.of_nat (length input))%Z ->
  exists v, Js.at_ input z = Some v /\ input !! Z.to_nat z = Some v.
Proof.
  intros Hz. unfold Js.at_.
  destruct (Z.ltb_spec z 0); [lia |].
  destruct (lookup_lt_is_Some_2 input (Z.to_nat z) ltac:(lia)) as [v Hv]. eauto.
Qed.


(** The position that an output index reads lies inside the input. *)
Lemma resample_position (n i : nat) (ratio : R) :
  0 < ratio -> (0 < n)%nat ->
  (i < Z.to_nat (Z.max 1 (Js.Math_round (INR n * ratio))))%nat ->
  0 <= INR i / ratio < INR n.
Proof.
  intros Hr Hn Hi. split.
  - apply Rmult_le_pos; [apply pos_INR | left; apply Rinv_0_lt_compat; exact Hr].
  - apply (Rmult_lt_reg_r ratio); [exact Hr |].
    replace (INR i / ratio * ratio) with (INR i) by (field; lra).
    assert (Hn' : 1 <= INR n) by (apply (le_INR 1); lia).
    destruct i as [| i'].
    + simpl. nra.
    + assert (Hlt : (Z.of_nat (S i') + 1 <= Js.Math_round (INR n * ratio))%Z) by lia.
      apply IZR_le in Hlt. rewrite plus_IZR, <- INR_IZR_INZ in Hlt.
      unfold Js.Math_round in Hlt.
      pose proof (Zfloor_bound (INR n * ratio + / 2)) as [Hb _]. lra.
Qed.

(** X1.  Resampling does not leave the range of its input: for positive
    rates and an input that is not empty, bounds [lo] and [hi] that hold
    for every sample of the input hold for every sample of the output. *)
Theorem resampleLinear_within_range (input : list R) (inputRate outputRate lo hi : R) :
  0 < inputRate -> 0 < outputRate -> input <> [] ->
  Forall (fun v => lo <= v <= hi) input ->
  Forall (fun v => lo <= v <= hi) (resampleLinear input inputRate outputRate).
Proof.
  intros Hin Hout Hne Hall.
  destruct (Req_dec_T inputRate outputRate) as [E | Hdiff].
  { subst. rewrite resampleLinear_same_rate. exact Hall. }
  apply Forall_lookup. intros i v Hv.
  assert (Hi : (i < length (resampleLinear input inputRate outputRate))%nat)
    by (apply lookup_lt_is_Some; eauto).
  rewrite resampleLinear_lookup in Hv by assumption. injection Hv as <-.
  rewrite resampleLinear_length_diff in Hi by exact Hdiff.
  assert (Hratio : 0 < outputRate / inputRate)
    by (apply Rdiv_lt_0_compat; assumption).
  assert (Hlen : (0 < length input)%nat) by (destruct input; [contradiction | simpl; lia]).
  pose proof (resample_position (length input) i _ Hratio Hlen Hi) as [Hp0 Hp1].
  cbv zeta. set (pos := INR i / (outputRate / inputRate)) in *.
  unfold Js.Math_floor. pose proof (Zfloor_bound pos) as [Hf0 Hf1].
  assert (Hidx0 : (0 <= Zfloor pos)%Z) by (apply Zfloor_lub; simpl; lra).
  assert (Hidx1 : (Zfloor pos < Z.of_nat (length input))%Z).
  { apply lt_IZR. rewrite <- INR_IZR_INZ. lra. }
  destruct (at_in_range input (Zfloor pos) ltac:(lia)) as (a & Ea & Ha).
  rewrite Ea. change (default 0 (Some a)) with a.
  pose proof (proj1 (Forall_lookup _ _) Hall _ _ Ha) as Hra. cbv beta in Hra.
  assert (Hrb : lo <= default a (Js.at_ input (Zfloor pos + 1)) <= hi).
  { unfold Js.at_. destruct (Zfloor pos + 1 <? 0)%Z; [exact Hra |].
    destruct (input !! Z.to_nat (Zfloor pos + 1)) as [b |] eqn:Eb; [| exact Hra].
    exact (proj1 (Forall_lookup _ _) Hall _ _ Eb). }
  set (b := default a (Js.at_ input (Zfloor pos + 1))) in *.
  set (frac := pos - IZR (Zfloor pos)) in *.
  assert (Hfrac : 0 <= frac <= 1) by (unfold frac; lra).
  split; nra.
Qed.

Lemma resampleLinear_within_range_witness :
  Forall (fun v => -1 <= v <= 1) (resampleLinear [1; -1; 0] 8000 16000).
Proof.
  apply (resampleLinear_within_range [1; -1; 0] 8000 16000 (-1) 1);
    [lra | lra | discriminate |].
  repeat constructor; lra.
Defined.

(** X2.  An empty input resampled to another rate gives one sample, 0:
    with no sample to read, the one position read gives 0. *)
Theorem resampleLinear_empty (inputRate outputRate : R) :
  inputRate <> outputRate -> resampleLinear [] inputRate outputRate = [0].
Proof.
  intros Hne. unfold resampleLinear.
  destruct (Req_dec_T inputRate outputRate) as [e | _]; [contradiction |].
  cbv zeta. simpl length. simpl INR. rewrite Rmult_0_l.
  replace (Js.Math_round 0) with 0%Z
    by (symmetry; unfold Js.Math_round; apply Zfloor_eq; simpl; lra).
  simpl. f_equal. unfold Js.at_.
  destruct (_ <? 0)%Z; destruct (_ <? 0)%Z; simpl;
    repeat rewrite lookup_nil; simpl; ring.
Qed.

Lemma resampleLinear_empty_witness : resampleLinear [] 44100 16000 = [0].
Proof. apply resampleLinear_empty. lra. Defined.



(** X4.  [takeOrPadToLength] returns the target number of samples: the
    sample [i] of the input where it has one, 0 where it has none. *)
Theorem takeOrPadToLength_content (x : list R) (L : nat) :
  length (takeOrPadToLength x L) = L /\
  forall i, (i < L)%nat -> takeOrPadToLength x L !! i = Some (default 0 (x !! i)).
Proof.
  split; [apply takeOrPadToLength_has_length |].
  intros i Hi. rewrite takeOrPadToLength_eq.
  destruct (decide (i < length x)%nat) as [Hlt | Hge].
  - rewrite lookup_app_l by (rewrite length_take; lia).
    rewrite lookup_take, decide_True by exact Hi.
    destruct (lookup_lt_is_Some_2 x i Hlt) as [v Hv]. rewrite Hv. reflexivity.
  - rewrite lookup_app_r by (rewrite length_take; lia).
    rewrite length_take, lookup_replicate_2 by lia.
    rewrite (proj2 (lookup_ge_None x i)) by lia. reflexivity.
Qed.

(** X5.  For an input longer than the target, [takeCenterSegment] returns
    the target number of samples, contiguous in the input, from the index
    [floor ((length - target) / 2)]. *)
Theorem takeCenterSegment_centered (x : list R) (L : nat) :
  (L < length x)%nat ->
  length (takeCenterSegment x L) = L /\
  forall i, (i < L)%nat ->
    takeCenterSegment x L !! i = x !! ((length x - L) / 2 + i)%nat.
Proof.
  intros HL. unfold takeCenterSegment.
  rewrite decide_False by lia. cbv zeta.
  pose proof (Nat.Div0.div_le_upper_bound (length x - L) 2 (length x - L) ltac:(lia)) as Hs.
  split.
  - rewrite length_take, length_drop. lia.
  - intros i Hi. rewrite lookup_take, decide_True by exact Hi. apply lookup_drop.
Qed.

Lemma takeCenterSegment_centered_witness :
  length (takeCenterSegment [1; 2; 3; 4; 5] 2) = 2%nat /\
  forall i, (i < 2)%nat ->
    takeCenterSegment [1; 2; 3; 4; 5] 2 !! i
    = [1; 2; 3; 4; 5] !! ((length [1; 2; 3; 4; 5] - 2) / 2 + i)%nat.
Proof. apply (takeCenterSegment_centered [1; 2; 3; 4; 5] 2). simpl. lia. Defined.

End AudioFurther.

Section CaptureProperties.

Import AudioCapture.

Lemma total_length (chunks : list (list R)) (n : nat) :
  foldl (fun sum c => (sum + length c)%nat) n chunks = (n + length (concat chunks))%nat.
Proof.
  revert n. induction chunks as [| c rest IH]; intros n; simpl.
  - lia.
  - rewrite IH, length_app. lia.
Qed.

Lemma copyChunks_spec (chunks : list (list R)) (pre : list R) :
  copyChunks chunks (pre ++ Js.zeros (length (concat chunks))) (length pre)
  = Some (pre ++ concat chunks).
Proof.
  revert pre. induction chunks as [| c rest IH]; intros pre; simpl.
  - reflexivity.
  - unfold typed_set, Js.zeros.
    rewrite decide_True by (rewrite !length_app, length_replicate; lia).
    unfold MelSpectrogram.copy_into.
    rewrite take_app_length.
    rewrite drop_app_ge by lia.
    rewrite length_app.
    replace (length pre + length c - length pre)%nat with (length c) by lia.
    rewrite drop_replicate.
    replace (length c + length (concat rest) - length c)%nat
      with (length (concat rest)) by lia.
    specialize (IH (pre ++ c)). rewrite length_app in IH.
    rewrite <- !app_assoc in IH. unfold Js.zeros in IH.
    rewrite IH. reflexivity.
Qed.

(** X6.  [recordMono] returns: the recording is the chunks one behind the
    other, in the order in which they came, and nothing else, at the rate
    of the audio context. *)
Theorem recordMono_concatenates (chunks : list (list R)) (contextRate : R) :
  recordMono chunks contextRate
  = Some {| samples := concat chunks; sampleRate := contextRate |}.
Proof.
  unfold recordMono. cbv zeta. rewrite total_length. simpl plus.
  pose proof (copyChunks_spec chunks []) as H. simpl in H. rewrite H. reflexivity.
Qed.

(** A loop that rewrites the entries [0 .. len - 1] of an array one by one. *)
Lemma in_place_map (f : nat -> R -> R) (len : nat) (out : list R) :
  length out = len ->
  let out' := foldl (fun out i => Js.set out i (f i (Js.get out i))) out (seq 0 len) in
  length out' = len /\ forall i, (i < len)%nat -> Js.get out' i = f i (Js.get out i).
Proof.
  intros Hlen out'.
  pose (P := fun (k : nat) (s : list R) =>
               length s = len /\
               forall i, (i < len)%nat ->
                 Js.get s i = if decide (i < k)%nat then f i (Js.get out i) else Js.get out i).
  assert (HP : P (0 + len)%nat out').
  { apply (foldl_invariant _ P).
    - split; [exact Hlen |]. intros i Hi. rewrite decide_False by lia. reflexivity.
    - intros k s Hk [Hs Hv]. split; [rewrite length_set; exact Hs |].
      intros i Hi. destruct (decide (i = k)) as [-> | Hik].
      + rewrite get_set_eq by lia. rewrite decide_True by lia.
        rewrite (Hv k Hi), decide_False by lia. reflexivity.
      + rewrite get_set_ne by congruence. rewrite (Hv i Hi).
        destruct (decide (i < k)%nat), (decide (i < S k)%nat); try lia; reflexivity. }
  destruct HP as [H1 H2]. split; [exact H1 |].
  intros i Hi. rewrite (H2 i Hi), decide_True by lia. reflexivity.
Qed.

Lemma addChannel_spec (len : nat) (out ch : list R) :
  length out = len ->
  length (addChannel len out ch) = len /\
  forall i, (i < len)%nat -> Js.get (addChannel len out ch) i = Js.get out i + Js.get ch i.
Proof.
  intros Hlen. exact (in_place_map (fun i v => v + Js.get ch i) len out Hlen).
Qed.

Lemma addChannels_spec (len : nat) (channels : list (list R)) (out : list R) :
  length out = len ->
  length (foldl (addChannel len) out channels) = len /\
  forall i, (i < len)%nat ->
    Js.get (foldl (addChannel len) out channels) i
    = Js.get out i + vector_sum ((fun ch => Js.get ch i) <$> channels).
Proof.
  revert out. induction channels as [| ch rest IH]; intros out Hlen.
  - split; [exact Hlen |]. intros i Hi. simpl. unfold vector_sum. simpl. ring.
  - destruct (addChannel_spec len out ch Hlen) as [H1 H2].
    destruct (IH _ H1) as [H3 H4].
    split; [exact H3 |]. intros i Hi.
    change (foldl (addChannel len) out (ch :: rest))
      with (foldl (addChannel len) (addChannel len out ch) rest).
    rewrite (H4 i Hi), (H2 i Hi). rewrite fmap_cons. unfold vector_sum.
    cbn [foldr]. ring.
Qed.

(** X7.  For a buffer of one channel or more, each as long as the buffer:
    the mono signal of a decoded file has the length and the rate of the
    buffer, and each of its samples is the mean of the channels. *)
Theorem decodeAudioFileToMono_mean (decoded : AudioBuffer) :
  (1 <= numberOfChannels decoded)%nat ->
  Forall (fun ch => length ch = frameCount decoded) (channelData decoded) ->
  let mono := decodeAudioFileToMono decoded in
  sampleRate mono = bufferRate decoded /\
  length (samples mono) = frameCount decoded /\
  forall i, (i < frameCount decoded)%nat ->
    samples mono !! i = Some (channel_mean (channelData decoded) i).
Proof.
  intros Hch Hall. unfold decodeAudioFileToMono, numberOfChannels in *. cbv zeta.
  destruct (decide (length (channelData decoded) = 1%nat)) as [Hone | Hmore].
  - destruct (channelData decoded) as [| ch [| ? ?]] eqn:E; try discriminate.
    rewrite Forall_singleton in Hall.
    change (default [] ([ch] !! 0%nat)) with ch. cbn [samples sampleRate].
    split; [reflexivity |]. split; [exact Hall |].
    intros i Hi. destruct (lookup_lt_is_Some_2 ch i ltac:(lia)) as [v Hv].
    rewrite Hv. f_equal. unfold channel_mean, vector_sum, Js.get. simpl.
    rewrite Hv. simpl. field.
  - cbn [samples sampleRate]. split; [reflexivity |].
    set (len := frameCount decoded) in *.
    assert (Hz : length (Js.zeros len) = len) by apply length_replicate.
    destruct (addChannels_spec len (channelData decoded) _ Hz) as [H1 H2].
    pose proof (in_place_map (fun _ v => v / INR (length (channelData decoded))) len _ H1)
      as [H3 H4].
    split; [exact H3 |].
    intros i Hi.
    match goal with |- ?l !! i = _ => destruct (lookup_lt_is_Some_2 l i ltac:(lia)) as [v Hv];
      rewrite Hv; specialize (H4 i Hi); unfold Js.get at 1 in H4; rewrite Hv in H4 end.
    f_equal. change (default 0 (Some v)) with v in H4. rewrite H4.
    rewrite (H2 i Hi), get_zeros. unfold channel_mean. f_equal. ring.
Qed.

Lemma decodeAudioFileToMono_mean_witness :
  let decoded := {| frameCount := 2; bufferRate := 44100;
                    channelData := [[1; 0]; [0; 1]] |} in
  let mono := decodeAudioFileToMono decoded in
  sampleRate mono = bufferRate decoded /\
  length (samples mono) = frameCount decoded /\
  forall i, (i < frameCount decoded)%nat ->
    samples mono !! i = Some (channel_mean (channelData decoded) i).
Proof.
  apply (decodeAudioFileToMono_mean
           {| frameCount := 2; bufferRate := 44100; channelData := [[1; 0]; [0; 1]] |}).
  - unfold numberOfChannels. simpl. lia.
  - repeat constructor.
Defined.

End CaptureProperties.

(** *** src/lib/melSpectrogram.ts *)

Section MelScale.

Import MelSpectrogram.

Lemma melToHz_hzToMel (hz : R) : -700 < hz -> melToHz (hzToMel hz) = hz.
Proof.
  intros Hhz. pose proof ln_10_pos as H10.
  unfold melToHz, hzToMel, Math_log10, Rpower.
  replace (2595 * (ln (1 + hz / 700) / ln 10) / 2595 * ln 10)
    with (ln (1 + hz / 700)) by (field; lra).
  rewrite exp_ln by lra. field.
Qed.

Lemma hzToMel_melToHz (mel : R) : hzToMel (melToHz mel) = mel.
Proof.
  pose proof ln_10_pos as H10.
  unfold melToHz, hzToMel, Math_log10, Rpower.
  replace (1 + 700 * (exp (mel / 2595 * ln 10) - 1) / 700)
    with (exp (mel / 2595 * ln 10)) by field.
  rewrite ln_exp. field. lra.
Qed.

(** X8.  The two conversions undo each other: [melToHz (hzToMel hz) = hz]
    for [hz > -700], and [hzToMel (melToHz mel) = mel]. *)
Theorem mel_scale_round_trip (hz mel : R) :
  -700 < hz ->
  melToHz (hzToMel hz) = hz /\ hzToMel (melToHz mel) = mel.
Proof.
  intros Hhz. split; [apply melToHz_hzToMel; exact Hhz | apply hzToMel_melToHz].
Qed.

Lemma mel_scale_round_trip_witness :
  melToHz (hzToMel 440) = 440 /\ hzToMel (melToHz 1000) = 1000.
Proof. apply (mel_scale_round_trip 440 1000). lra. Defined.

Lemma hannWindow_get (n i : nat) :
  (i < n)%nat ->
  Js.get (hannWindow n) i = 0.5 - 0.5 * cos ((2 * PI * INR i) / (INR n - 1)).
Proof.
  intros Hi. unfold Js.get, hannWindow.
  rewrite list_lookup_fmap, lookup_seq_lt by exact Hi. reflexivity.
Qed.

(** X9.  The window of [n >= 2] weights: as long as asked, between 0 and
    1, the same read from either end, and 0 at both ends. *)
Theorem hannWindow_shape (n : nat) :
  (2 <= n)%nat ->
  length (hannWindow n) = n /\
  Js.get (hannWindow n) 0 = 0 /\
  forall i, (i < n)%nat ->
    0 <= Js.get (hannWindow n) i <= 1 /\
    Js.get (hannWindow n) (n - 1 - i) = Js.get (hannWindow n) i.
Proof.
  intros Hn. split; [unfold hannWindow; rewrite length_fmap; apply length_seq |].
  assert (Hn' : 2 <= INR n) by (apply (le_INR 2); exact Hn).
  split.
  - rewrite hannWindow_get by lia. simpl INR.
    replace (2 * PI * 0 / (INR n - 1)) with 0 by (field; lra).
    rewrite cos_0. lra.
  - intros i Hi. rewrite !hannWindow_get by lia. split.
    + pose proof (COS_bound (2 * PI * INR i / (INR n - 1))) as [H1 H2]. lra.
    + do 2 f_equal.
      rewrite !minus_INR by lia. simpl INR.
      replace (2 * PI * (INR n - 1 - INR i) / (INR n - 1))
        with (2 * PI - 2 * PI * INR i / (INR n - 1)) by (field; lra).
      rewrite cos_minus, cos_2PI, sin_2PI. ring.
Qed.

Lemma hannWindow_shape_witness :
  length (hannWindow N_FFT) = N_FFT /\
  Js.get (hannWindow N_FFT) 0 = 0 /\
  forall i, (i < N_FFT)%nat ->
    0 <= Js.get (hannWindow N_FFT) i <= 1 /\
    Js.get (hannWindow N_FFT) (N_FFT - 1 - i) = Js.get (hannWindow N_FFT) i.
Proof. apply (hannWindow_shape N_FFT). unfold N_FFT. lia. Defined.

End MelScale.

Section RealInput.

Import MelSpectrogram.

Lemma real_sum_opp (n : nat) (f : nat -> R) :
  real_sum n (fun t => - f t) = - real_sum n f.
Proof.
  induction n as [| n IH]; cbn [real_sum]; [ring | rewrite IH; ring].
Qed.

(** The twiddle factor of [n - k] is the conjugate of that of [k]. *)
Lemma twiddle_mirror (n t k : nat) :
  (0 < n)%nat -> (k <= n)%nat ->
  twiddle n (t * (n - k)) = ((twiddle n (t * k)).1, - (twiddle n (t * k)).2).
Proof.
  intros Hn Hk. unfold twiddle, Cx.cis. cbn [fst snd].
  assert (Hn' : 0 < INR n) by (apply lt_0_INR; exact Hn).
  rewrite !mult_INR, minus_INR by exact Hk.
  replace (INR t * (INR n - INR k) * (-2 * PI / INR n))
    with (- (INR t * INR k * (-2 * PI / INR n) + 2 * INR t * PI)) by (field; lra).
  rewrite cos_neg, sin_neg, cos_period, sin_period. reflexivity.
Qed.

Lemma dft_real_mirror (r : nat -> R) (n k : nat) :
  (0 < n)%nat -> (k <= n)%nat ->
  dft (fun t => (r t, 0)) n (n - k)
  = ((dft (fun t => (r t, 0)) n k).1, - (dft (fun t => (r t, 0)) n k).2).
Proof.
  intros Hn Hk. unfold dft. rewrite !sum_components. cbn [fst snd].
  f_equal.
  - apply real_sum_ext. intros t _. rewrite twiddle_mirror by assumption.
    simpl. ring.
  - rewrite <- real_sum_opp. apply real_sum_ext. intros t _.
    rewrite twiddle_mirror by assumption. simpl. ring.
Qed.

(** X10.  The transform of a real signal of [N = 2^p] samples, [p <= 29]:
    the call returns, and the bin [N - k] is the conjugate of the bin [k]. *)
Theorem fftInPlace_real_input (p : nat) (re : list R) :
  (p <= 29)%nat -> length re = (2 ^ p)%nat ->
  exists re' im',
    fftInPlace re (Js.zeros (2 ^ p)) = Some (re', im') /\
    forall k, (0 < k < 2 ^ p)%nat ->
      Js.get re' (2 ^ p - k) = Js.get re' k /\
      Js.get im' (2 ^ p - k) = - Js.get im' k.
Proof.
  intros Hp Hre.
  destruct (fftInPlace_spec p re (Js.zeros (2 ^ p)) Hp Hre (length_replicate _ _))
    as (re' & im' & E & _ & _ & H).
  exists re', im'. split; [exact E |].
  intros k Hk.
  assert (Hx : forall j, (j < 2 ^ p)%nat ->
             cget re' im' j = dft (fun t => (Js.get re t, 0)) (2 ^ p) j).
  { intros j Hj. rewrite (H j Hj). apply dft_ext. intros t _.
    unfold cget. rewrite get_zeros. reflexivity. }
  pose proof (Hx (2 ^ p - k)%nat ltac:(lia)) as H1.
  pose proof (Hx k ltac:(lia)) as H2.
  rewrite dft_real_mirror in H1 by lia. rewrite <- H2 in H1.
  unfold cget in H1. cbn [fst snd] in H1. injection H1 as -> ->. split; reflexivity.
Qed.

Lemma fftInPlace_real_input_witness :
  exists re' im',
    fftInPlace [1; 2; 3; 4] (Js.zeros (2 ^ 2)) = Some (re', im') /\
    forall k, (0 < k < 2 ^ 2)%nat ->
      Js.get re' (2 ^ 2 - k) = Js.get re' k /\
      Js.get im' (2 ^ 2 - k) = - Js.get im' k.
Proof. apply (fftInPlace_real_input 2 [1; 2; 3; 4]); [lia | reflexivity]. Defined.

(** X11.  On arrays of [2^p] entries, [p <= 30], [bitReversePermutation]
    returns, and it has put at every index the entries of the index with the
    [p] bits reversed. *)
Theorem bitReversePermutation_reverses (p : nat) (re im : list R) :
  (p <= 30)%nat -> length re = (2 ^ p)%nat -> length im = (2 ^ p)%nat ->
  exists re' im',
    bitReversePermutation re im = Some (re', im') /\
    length re' = length re /\ length im' = length im /\
    forall x, (x < 2 ^ p)%nat ->
      Js.get re' x = Js.get re (bitrev p x) /\ Js.get im' x = Js.get im (bitrev p x).
Proof.
  intros Hp Hre Him.
  destruct (bitReversePermutation_spec p re im Hp Hre Him) as (re' & im' & E & H1 & H2 & H).
  exists re', im'. split; [exact E |]. split; [lia |]. split; [lia |].
  intros x Hx. specialize (H x Hx). unfold cget in H. injection H as Hr Hi. auto.
Qed.

Lemma bitReversePermutation_reverses_witness :
  exists re' im',
    bitReversePermutation [0; 1; 2; 3; 4; 5; 6; 7] [0; 0; 0; 0; 0; 0; 0; 0]
    = Some (re', im') /\
    length re' = length [0; 1; 2; 3; 4; 5; 6; 7] /\
    length im' = length [0; 0; 0; 0; 0; 0; 0; 0] /\
    forall x, (x < 2 ^ 3)%nat ->
      Js.get re' x = Js.get [0; 1; 2; 3; 4; 5; 6; 7] (bitrev 3 x) /\
      Js.get im' x = Js.get [0; 0; 0; 0; 0; 0; 0; 0] (bitrev 3 x).
Proof.
  apply (bitReversePermutation_reverses 3); [lia | reflexivity | reflexivity].
Defined.

(** Reversing the bits twice gives the arrays back. *)
Lemma bitReversePermutation_involutive (p : nat) (re im : list R) :
  (p <= 30)%nat -> length re = (2 ^ p)%nat -> length im = (2 ^ p)%nat ->
  exists re' im',
    bitReversePermutation re im = Some (re', im') /\
    bitReversePermutation re' im' = Some (re, im).
Proof.
  intros Hp Hre Him.
  destruct (bitReversePermutation_spec p re im Hp Hre Him) as (re1 & im1 & E1 & Hre1 & Him1 & H1).
  destruct (bitReversePermutation_spec p re1 im1 Hp Hre1 Him1)
    as (re2 & im2 & E2 & Hre2 & Him2 & H2).
  exists re1, im1. split; [exact E1 |]. rewrite E2.
  assert (Hback : forall x, (x < 2 ^ p)%nat -> cget re2 im2 x = cget re im x).
  { intros x Hx. rewrite (H2 x Hx), (H1 _ (bitrev_lt p x)), bitrev_involutive by exact Hx.
    reflexivity. }
  assert (re2 = re) as ->.
  { apply array_ext; [lia |]. intros x Hx. rewrite Hre2 in Hx.
    specialize (Hback x Hx). unfold cget in Hback. congruence. }
  assert (im2 = im) as ->.
  { apply array_ext; [lia |]. intros x Hx. rewrite Him2 in Hx.
    specialize (Hback x Hx). unfold cget in Hback. congruence. }
  reflexivity.
Qed.

Lemma bitReversePermutation_involutive_witness :
  exists re' im',
    bitReversePermutation [0; 1; 2; 3] [4; 5; 6; 7] = Some (re', im') /\
    bitReversePermutation re' im' = Some ([0; 1; 2; 3], [4; 5; 6; 7]).
Proof.
  apply (bitReversePermutation_involutive 2); [lia | reflexivity | reflexivity].
Defined.

End RealInput.

Section FilterbankFurther.

Import MelSpectrogram.

Lemma mel_point_first : mel_point 0 = hzToMel 0.
Proof. unfold mel_point. cbv zeta. simpl INR. unfold Rdiv. ring. Qed.

Lemma mel_point_last : mel_point (N_MELS + 1) = hzToMel (IZR SAMPLE_RATE / 2).
Proof.
  unfold mel_point. cbv zeta.
  assert (H : 0 < INR (N_MELS + 1)) by (apply lt_0_INR; unfold N_MELS; lia).
  field. lra.
Qed.

Lemma bin_of_first : bin_of 0 = 0%Z.
Proof.
  unfold bin_of. rewrite mel_point_first.
  rewrite (melToHz_hzToMel 0) by lra.
  unfold Js.Math_floor. apply Zfloor_eq. unfold SAMPLE_RATE. simpl. lra.
Qed.

Lemma bin_of_last : bin_of (N_MELS + 1) = 512%Z.
Proof.
  unfold bin_of. rewrite mel_point_last.
  rewrite melToHz_hzToMel by (unfold SAMPLE_RATE; lra).
  unfold Js.Math_floor. apply Zfloor_eq.
  replace (INR (N_FFT + 1)) with 1025 by (unfold N_FFT; rewrite (INR_IZR_INZ (1024 + 1)); reflexivity).
  unfold SAMPLE_RATE. lra.
Qed.

Lemma bin_of_range (i : nat) : (i <= N_MELS + 1)%nat -> (0 <= bin_of i <= 512)%Z.
Proof.
  intros Hi. rewrite <- bin_of_first, <- bin_of_last.
  split; apply bin_of_increasing; lia.
Qed.

(** The weights of a filter that is not flat, bin by bin. *)
Lemma melFilter_values (m : nat) :
  (1 <= m <= N_MELS)%nat ->
  let left := bin_of (m - 1) in
  let center := bin_of m in
  let right := bin_of (m + 1) in
  (left < right)%Z ->
  forall k : nat,
    Js.get (melFilter m) k =
    if decide (center <= Z.of_nat k < right)%Z
    then IZR (right - Z.of_nat k) / IZR (right - center)
    else if decide (left <= Z.of_nat k < center)%Z
         then IZR (Z.of_nat k - left) / IZR (center - left)
         else 0.
Proof.
  intros Hm left center right Hlr k.
  pose proof (bin_of_range (m - 1) ltac:(lia)) as Hl.
  pose proof (bin_of_range m ltac:(lia)) as Hc.
  pose proof (bin_of_range (m + 1) ltac:(lia)) as Hr.
  fold left in Hl. fold center in Hc. fold right in Hr.
  unfold melFilter. cbv zeta.
  rewrite !bin_lookup by (unfold N_MELS in *; lia).
  change (default 0%Z (Some (bin_of (m - 1)))) with left.
  change (default 0%Z (Some (bin_of (m + 1)))) with right.
  change (default 0%Z (Some (bin_of m))) with center.
  rewrite decide_False by lia.
  assert (Hz : length (Js.zeros nFftBins) = nFftBins) by apply length_replicate.
  set (up := fun k : Z => IZR (k - left) / Rmax 1 (IZR (center - left))).
  set (down := fun k : Z => IZR (right - k) / Rmax 1 (IZR (right - center))).
  destruct (ramp_spec left center up (Js.zeros nFftBins) Hz) as [Hl1 Hx1].
  destruct (ramp_spec center right down _ Hl1) as [_ Hx2].
  rewrite Hx2, Hx1, get_zeros.
  assert (Hbins : nFftBins = 513%nat) by reflexivity.
  destruct (decide (center <= Z.of_nat k < right)%Z) as [H1 | H1].
  - rewrite decide_True by (split; [exact H1 | lia]).
    unfold down. rewrite Rmax_right; [reflexivity |]. apply (IZR_le 1). lia.
  - rewrite decide_False by tauto.
    destruct (decide (left <= Z.of_nat k < center)%Z) as [H2 | H2].
    + rewrite decide_True by (split; [exact H2 | lia]).
      unfold up. rewrite Rmax_right; [reflexivity |]. apply (IZR_le 1). lia.
    + rewrite decide_False by tauto. reflexivity.
Qed.

Lemma melFilter_le_1 (m k : nat) : (1 <= m <= N_MELS)%nat -> Js.get (melFilter m) k <= 1.
Proof.
  intros Hm.
  destruct (Z_lt_le_dec (bin_of (m - 1)) (bin_of (m + 1))) as [Hlr | Hdeg].
  - rewrite (melFilter_values m Hm Hlr).
    destruct (decide (bin_of m <= Z.of_nat k < bin_of (m + 1))%Z) as [H1 | H1].
    + apply (Rmult_le_reg_r (IZR (bin_of (m + 1) - bin_of m))); [apply (IZR_lt 0); lia |].
      unfold Rdiv. rewrite Rmult_assoc, Rinv_l, Rmult_1_r, Rmult_1_l.
      * apply IZR_le. lia.
      * apply not_0_IZR. lia.
    + destruct (decide (bin_of (m - 1) <= Z.of_nat k < bin_of m)%Z) as [H2 | H2]; [| lra].
      apply (Rmult_le_reg_r (IZR (bin_of m - bin_of (m - 1)))); [apply (IZR_lt 0); lia |].
      unfold Rdiv. rewrite Rmult_assoc, Rinv_l, Rmult_1_r, Rmult_1_l.
      * apply IZR_le. lia.
      * apply not_0_IZR. lia.
  - destruct (melFilter_spec m Hm) as (_ & _ & _ & Hzero).
    rewrite (Hzero Hdeg), get_zeros. lra.
Qed.

(** X12.  The filterbank: 128 filters of 513 weights, no weight above 1,
    and a filter whose centre bin lies below its right boundary has the
    weight 1 at the centre bin. *)
Theorem mel_filterbank_peak (c : Caches) (m : nat) :
  reachable c -> (m < N_MELS)%nat ->
  length (getMelFilters c).1 = N_MELS /\
  exists f,
    (getMelFilters c).1 !! m = Some f /\
    length f = nFftBins /\
    (forall k, Js.get f k <= 1) /\
    ((bin_of (m + 1) < bin_of (m + 2))%Z -> Js.get f (Z.to_nat (bin_of (m + 1))) = 1).
Proof.
  intros Hc Hm. rewrite (getMelFilters_reachable c Hc).
  split; [unfold buildMelFilters; rewrite length_fmap; apply length_seq |].
  exists (melFilter (m + 1)). split; [apply buildMelFilters_lookup; exact Hm |].
  assert (Hm1 : (1 <= m + 1 <= N_MELS)%nat) by lia.
  destruct (melFilter_spec (m + 1) Hm1) as (Hlen & _ & _ & _).
  split; [exact Hlen |]. split; [intros k; apply melFilter_le_1; exact Hm1 |].
  intros Hpeak.
  pose proof (bin_of_range (m + 1) ltac:(lia)) as Hc0.
  pose proof (bin_of_increasing m (m + 1) ltac:(lia)) as Hlc.
  replace (m + 2)%nat with (m + 1 + 1)%nat in Hpeak by lia.
  rewrite (melFilter_values (m + 1) Hm1)
    by (replace (m + 1 - 1)%nat with m by lia; lia).
  rewrite Z2Nat.id by lia. rewrite decide_True by lia.
  apply Rinv_r. apply not_0_IZR. lia.
Qed.

Lemma mel_filterbank_peak_witness :
  length (getMelFilters noCaches).1 = N_MELS /\
  exists f,
    (getMelFilters noCaches).1 !! 0%nat = Some f /\
    length f = nFftBins /\
    (forall k, Js.get f k <= 1) /\
    ((bin_of (0 + 1) < bin_of (0 + 2))%Z -> Js.get f (Z.to_nat (bin_of (0 + 1))) = 1).
Proof.
  apply (mel_filterbank_peak noCaches 0); [apply reachable_start | unfold N_MELS; lia].
Defined.

(** The boundaries of the bands: 130 bins from 0 to 512, none below the one
    before: the test [k >= 0 && k < nFftBins] of [getMelFilters] never
    fails. *)
Lemma bin_boundaries :
  length bin = (N_MELS + 2)%nat /\
  bin !! 0%nat = Some 0%Z /\
  bin !! (N_MELS + 1)%nat = Some 512%Z /\
  forall i j a b, (i <= j)%nat -> bin !! i = Some a -> bin !! j = Some b -> (a <= b)%Z.
Proof.
  assert (Hlen : length bin = (N_MELS + 2)%nat).
  { unfold bin, hzPoints, melPoints. cbv zeta. rewrite !length_fmap. apply length_seq. }
  split; [exact Hlen |].
  split; [rewrite bin_lookup by (unfold N_MELS; lia); f_equal; apply bin_of_first |].
  split; [rewrite bin_lookup by lia; f_equal; apply bin_of_last |].
  intros i j a b Hij Ha Hb.
  assert (Hj : (j < N_MELS + 2)%nat) by (rewrite <- Hlen; apply lookup_lt_is_Some; eauto).
  rewrite bin_lookup in Ha, Hb by lia.
  injection Ha as <-. injection Hb as <-. apply bin_of_increasing. exact Hij.
Qed.

End FilterbankFurther.

Section MelSpectrogramFurther.

Import MelSpectrogram.

Lemma half_window_is_hop : (N_FFT / 2 = HOP_LENGTH)%nat.
Proof. reflexivity. Qed.

Lemma window_is_two_hops : N_FFT = (2 * HOP_LENGTH)%nat.
Proof. reflexivity. Qed.

Local Opaque N_FFT N_MELS N_FRAMES HOP_LENGTH nFftBins.

(** The run of the function, with the caches it leaves. *)
Lemma melSpectrogram_run (samples : list R) (c : Caches) :
  reachable c ->
  exists out',
    melSpectrogram128x32From16k samples c
    = Some (out', (getMelFilters (getWindow c).2).2) /\
    length out' = (N_MELS * N_FRAMES)%nat /\
    forall m t, (m < N_MELS)%nat -> (t < N_FRAMES)%nat ->
      Js.get out' (m * N_FRAMES + t) = mel_value samples m t.
Proof.
  intros Hc. unfold melSpectrogram128x32From16k. cbv zeta.
  rewrite padded_copy.
  pose proof (getWindow_reachable c Hc) as Hw.
  pose proof (reachable_getWindow c Hc) as Hc1.
  destruct (getWindow c) as [window c1]. simpl in Hw, Hc1. subst window.
  pose proof (getMelFilters_reachable c1 Hc1) as Hfs.
  cbn [snd].
  destruct (getMelFilters c1) as [filters c2]. simpl in Hfs. subst filters.
  destruct (frames_spec samples) as (b & -> & Hout & Hx).
  exists (out b). repeat split; assumption.
Qed.

(** Two tensors with the same entries are the same tensor. *)
Lemma tensor_ext (a b : list R) :
  length a = (N_MELS * N_FRAMES)%nat -> length b = (N_MELS * N_FRAMES)%nat ->
  (forall m t, (m < N_MELS)%nat -> (t < N_FRAMES)%nat ->
     Js.get a (m * N_FRAMES + t) = Js.get b (m * N_FRAMES + t)) ->
  a = b.
Proof.
  intros Ha Hb H. apply array_ext; [lia |].
  intros x Hx. rewrite Ha in Hx. pose proof N_FRAMES_pos as HF.
  pose proof (Nat.div_mod_eq x N_FRAMES) as Hdm.
  pose proof (Nat.mod_upper_bound x N_FRAMES ltac:(lia)) as Hmod.
  rewrite Hdm at 1 2. rewrite (Nat.mul_comm N_FRAMES).
  apply H; [| exact Hmod].
  apply Nat.Div0.div_lt_upper_bound. lia.
Qed.

Lemma padded_get (samples : list R) (j : nat) :
  Js.get (padded_signal samples) j
  = if decide (j < HOP_LENGTH)%nat then 0 else Js.get samples (j - HOP_LENGTH).
Proof.
  unfold padded_signal. rewrite half_window_is_hop. unfold Js.get, Js.zeros.
  destruct (decide (j < HOP_LENGTH)%nat) as [Hj | Hj].
  - rewrite lookup_app_l by (rewrite length_replicate; exact Hj).
    rewrite lookup_replicate_2 by exact Hj. reflexivity.
  - rewrite lookup_app_r by (rewrite length_replicate; lia).
    rewrite length_replicate.
    destruct (decide (j - HOP_LENGTH < length samples)%nat) as [Hs | Hs].
    + rewrite lookup_app_l by exact Hs. reflexivity.
    + rewrite lookup_app_r by lia.
      rewrite (proj2 (lookup_ge_None samples _)) by lia.
      destruct (replicate HOP_LENGTH 0 !! (j - HOP_LENGTH - length samples)%nat) as [v |] eqn:E;
        [| reflexivity].
      apply lookup_replicate in E. destruct E as [-> _]. reflexivity.
Qed.

Lemma mel_value_ext (s s' : list R) (m t : nat) :
  (forall i, (i < N_FRAMES * HOP_LENGTH)%nat -> Js.get s i = Js.get s' i) ->
  (t < N_FRAMES)%nat ->
  mel_value s m t = mel_value s' m t.
Proof.
  intros Hs Ht. unfold mel_value. apply real_sum_ext. intros k _. f_equal.
  unfold power_at. cbv zeta.
  assert (Hd : dft (fun i => (frame_at s t i, 0)) N_FFT k
               = dft (fun i => (frame_at s' t i, 0)) N_FFT k).
  { apply dft_ext. intros i Hi. f_equal. unfold frame_at. f_equal.
    rewrite !padded_get.
    destruct (decide (t * HOP_LENGTH + i < HOP_LENGTH)%nat) as [Hj | Hj]; [reflexivity |].
    apply Hs. rewrite window_is_two_hops in Hi. nia. }
  rewrite Hd. reflexivity.
Qed.

Lemma get_scaled (a : R) (s : list R) (j : nat) :
  Js.get (Rmult a <$> s) j = a * Js.get s j.
Proof.
  unfold Js.get. rewrite list_lookup_fmap. destruct (s !! j); simpl; ring.
Qed.

Lemma mel_value_scaled (a : R) (s : list R) (m t : nat) :
  mel_value (Rmult a <$> s) m t = a * a * mel_value s m t.
Proof.
  unfold mel_value.
  assert (Hsum : forall n (f : nat -> R) (c : R),
             real_sum n (fun k => c * f k) = c * real_sum n f).
  { intros n f c. induction n as [| n IH]; cbn [real_sum]; [ring | rewrite IH; ring]. }
  rewrite <- Hsum. apply real_sum_ext. intros k _.
  unfold power_at. cbv zeta.
  assert (Hd : dft (fun i => (frame_at (Rmult a <$> s) t i, 0)) N_FFT k
               = Cx.mul (a, 0) (dft (fun i => (frame_at s t i, 0)) N_FFT k)).
  { unfold dft. rewrite <- sum_scale. apply sum_ext. intros i _.
    unfold frame_at. rewrite !padded_get.
    destruct (decide (t * HOP_LENGTH + i < HOP_LENGTH)%nat);
      [| rewrite get_scaled]; apply pair_eq; simpl; ring. }
  rewrite Hd. simpl. ring.
Qed.

Lemma mel_value_nonneg (s : list R) (m t : nat) :
  (m < N_MELS)%nat -> 0 <= mel_value s m t.
Proof.
  intros Hm. unfold mel_value.
  assert (Hsum : forall n (f : nat -> R), (forall k, 0 <= f k) -> 0 <= real_sum n f).
  { intros n f Hf. induction n as [| n IH]; cbn [real_sum]; [lra |].
    specialize (Hf n). lra. }
  apply Hsum. intros k.
  destruct (melFilter_spec (m + 1) ltac:(lia)) as (_ & Hpos & _ & _).
  apply Rmult_le_pos; [| apply Hpos].
  unfold power_at. cbv zeta. nra.
Qed.

(** X13.  The call returns for every input, and none of the values it
    returns is negative. *)
Theorem melSpectrogram_nonnegative (samples : list R) (c : Caches) :
  reachable c ->
  exists out' c',
    melSpectrogram128x32From16k samples c = Some (out', c') /\
    Forall (fun v => 0 <= v) out'.
Proof.
  intros Hc. destruct (melSpectrogram_run samples c Hc) as (out' & E & Hlen & Hx).
  exists out', (getMelFilters (getWindow c).2).2. split; [exact E |].
  apply Forall_lookup. intros x v Hv.
  assert (Hlt : (x < N_MELS * N_FRAMES)%nat) by (rewrite <- Hlen; apply lookup_lt_is_Some; eauto).
  pose proof N_FRAMES_pos as HF.
  pose proof (Nat.div_mod_eq x N_FRAMES) as Hdm.
  pose proof (Nat.mod_upper_bound x N_FRAMES ltac:(lia)) as Hmod.
  assert (Hdiv : (x / N_FRAMES < N_MELS)%nat) by (apply Nat.Div0.div_lt_upper_bound; lia).
  specialize (Hx _ _ Hdiv Hmod).
  rewrite (Nat.mul_comm _ N_FRAMES), <- Hdm in Hx.
  unfold Js.get in Hx. rewrite Hv in Hx. simpl in Hx. rewrite Hx.
  apply mel_value_nonneg. exact Hdiv.
Qed.

Lemma melSpectrogram_nonnegative_witness :
  exists out' c',
    melSpectrogram128x32From16k [1; -1] noCaches = Some (out', c') /\
    Forall (fun v => 0 <= v) out'.
Proof. apply melSpectrogram_nonnegative. apply reachable_start. Defined.

(** X14.  The result is a function of the first [N_FRAMES * HOP_LENGTH]
    = 16384 samples, a missing sample read as 0: neither what comes after
    them nor the state of the caches changes it. *)
Theorem melSpectrogram_first_samples (s s' : list R) (c c' : Caches) :
  reachable c -> reachable c' ->
  (forall i, (i < N_FRAMES * HOP_LENGTH)%nat -> Js.get s i = Js.get s' i) ->
  exists out' c1 c2,
    melSpectrogram128x32From16k s c = Some (out', c1) /\
    melSpectrogram128x32From16k s' c' = Some (out', c2).
Proof.
  intros Hc Hc' Hs.
  destruct (melSpectrogram_run s c Hc) as (o1 & E1 & L1 & X1).
  destruct (melSpectrogram_run s' c' Hc') as (o2 & E2 & L2 & X2).
  exists o1, (getMelFilters (getWindow c).2).2, (getMelFilters (getWindow c').2).2.
  split; [exact E1 |]. rewrite E2. do 2 f_equal.
  apply tensor_ext; [exact L2 | exact L1 |].
  intros m t Hm Ht. rewrite X1, X2 by assumption. symmetry. apply mel_value_ext; assumption.
Qed.

Lemma melSpectrogram_first_samples_witness :
  exists out' c1 c2,
    melSpectrogram128x32From16k [1; 2] noCaches = Some (out', c1) /\
    melSpectrogram128x32From16k [1; 2; 0] (getWindow noCaches).2 = Some (out', c2).
Proof.
  apply melSpectrogram_first_samples.
  - apply reachable_start.
  - apply reachable_getWindow, reachable_start.
  - intros i _. destruct i as [| [| [| i]]]; reflexivity.
Defined.

(** X15.  A signal [a] times as loud has [a * a] times the energy in every
    band and frame. *)
Theorem melSpectrogram_scaling (a : R) (samples : list R) (c : Caches) :
  reachable c ->
  exists out' c1 c2,
    melSpectrogram128x32From16k samples c = Some (out', c1) /\
    melSpectrogram128x32From16k (Rmult a <$> samples) c
    = Some (Rmult (a * a) <$> out', c2).
Proof.
  intros Hc.
  destruct (melSpectrogram_run samples c Hc) as (o1 & E1 & L1 & X1).
  destruct (melSpectrogram_run (Rmult a <$> samples) c Hc) as (o2 & E2 & L2 & X2).
  exists o1, (getMelFilters (getWindow c).2).2, (getMelFilters (getWindow c).2).2.
  split; [exact E1 |]. rewrite E2. do 2 f_equal.
  apply tensor_ext; [exact L2 | rewrite length_fmap; exact L1 |].
  intros m t Hm Ht. rewrite get_scaled, X1, X2 by assumption. apply mel_value_scaled.
Qed.

Lemma melSpectrogram_scaling_witness :
  exists out' c1 c2,
    melSpectrogram128x32From16k [1; 2] noCaches = Some (out', c1) /\
    melSpectrogram128x32From16k (Rmult 2 <$> [1; 2]) noCaches
    = Some (Rmult (2 * 2) <$> out', c2).
Proof. apply melSpectrogram_scaling. apply reachable_start. Defined.

End MelSpectrogramFurther.

(** *** src/pages/VoicePage.tsx: the input of the speech model *)

Section SpeechInput.

Import Audio AudioCapture VoicePage.

(** X16.  The input of the speech model has 16000 samples, whatever the
    length and the rate of the audio, and the tensor made of it has the
    [1 * 1 * 128 * 32] values of its declared shape.  From a decoded file
    the last [takeOrPadToLength] has nothing to do; from a recording at
    16 kHz the input is the samples recorded, cut or filled to 16000. *)
Theorem speech_input_shape (audio : AudioCaptureResult) (c : MelSpectrogram.Caches) :
  0 < sampleRate audio -> MelSpectrogram.reachable c ->
  let n := Z.to_nat MelSpectrogram.SAMPLE_RATE in
  length (fixed16k_recorded audio) = n /\
  length (fixed16k_decoded audio) = n /\
  fixed16k_decoded audio
  = takeCenterSegment
      (resampleLinear (samples audio) (sampleRate audio) (IZR MelSpectrogram.SAMPLE_RATE)) n /\
  (sampleRate audio = IZR MelSpectrogram.SAMPLE_RATE ->
   fixed16k_recorded audio = takeOrPadToLength (samples audio) n) /\
  Forall (fun input =>
            exists mel c',
              MelSpectrogram.melSpectrogram128x32From16k input c = Some (mel, c') /\
              length mel = (1 * 1 * MelSpectrogram.N_MELS * MelSpectrogram.N_FRAMES)%nat)
         [fixed16k_recorded audio; fixed16k_decoded audio].
Proof.
  intros Hrate Hc n.
  split; [apply takeOrPadToLength_has_length |].
  split; [apply takeOrPadToLength_has_length |].
  split; [apply takeOrPadToLength_fixed, takeCenterSegment_has_length |].
  split.
  - intros E. unfold fixed16k_recorded. cbv zeta. rewrite E.
    rewrite resampleLinear_same_rate.
    replace (IZR MelSpectrogram.SAMPLE_RATE * 1.0) with (IZR MelSpectrogram.SAMPLE_RATE) by lra.
    rewrite Math_round_Z. fold n.
    apply takeOrPadToLength_fixed, takeOrPadToLength_has_length.
  - assert (Hmel : forall input,
               exists mel c',
                 MelSpectrogram.melSpectrogram128x32From16k input c = Some (mel, c') /\
                 length mel = (1 * 1 * MelSpectrogram.N_MELS * MelSpectrogram.N_FRAMES)%nat).
    { intros input. destruct (melSpectrogram_run input c Hc) as (mel & E & Hlen & _).
      exists mel, (MelSpectrogram.getMelFilters (MelSpectrogram.getWindow c).2).2.
      split; [exact E |]. rewrite Hlen. lia. }
    repeat constructor; apply Hmel.
Qed.

Lemma speech_input_shape_witness :
  let audio := {| samples := [1; 0; -1]; sampleRate := 8000 |} in
  let n := Z.to_nat MelSpectrogram.SAMPLE_RATE in
  length (fixed16k_recorded audio) = n /\
  length (fixed16k_decoded audio) = n /\
  fixed16k_decoded audio
  = takeCenterSegment
      (resampleLinear (samples audio) (sampleRate audio) (IZR MelSpectrogram.SAMPLE_RATE)) n /\
  (sampleRate audio = IZR MelSpectrogram.SAMPLE_RATE ->
   fixed16k_recorded audio = takeOrPadToLength (samples audio) n) /\
  Forall (fun input =>
            exists mel c',
              MelSpectrogram.melSpectrogram128x32From16k input MelSpectrogram.noCaches
              = Some (mel, c') /\
              length mel = (1 * 1 * MelSpectrogram.N_MELS * MelSpectrogram.N_FRAMES)%nat)
         [fixed16k_recorded audio; fixed16k_decoded audio].
Proof.
  apply (speech_input_shape {| samples := [1; 0; -1]; sampleRate := 8000 |}
                            MelSpectrogram.noCaches).
  - simpl. lra.
  - apply MelSpectrogram.reachable_start.
Defined.

End SpeechInput.

(** *** src/lib/preprocessMnist.ts *)

Section PreprocessFurther.

Import PreprocessMnist.

Variables (w h : nat) (data : list Z).

Ltac split_ltb :=
  repeat match goal with |- context [(?a <? ?b)%Z] => destruct (Z.ltb_spec a b) end.

Lemma scan_pixel_scanned (seen : nat -> nat -> Prop) (b : Box) (x y : nat) :
  (x < w)%nat -> (y < h)%nat -> scanned w h data seen b ->
  scanned w h data (fun x' y' => seen x' y' \/ (x' = x /\ y' = y)) (scan_pixel data w y b x).
Proof.
  intros Hx Hy [HA HB]. unfold scan_pixel. cbv zeta.
  destruct (data !! ((y * w + x) * 4)%nat) as [v |] eqn:Ev.
  2:{ split; [| exact HB]. intros x' y' [Hs | [-> ->]] Hink; [auto |].
      destruct Hink as (_ & _ & v & Hv & _). congruence. }
  destruct (Rgt_dec (1 - IZR v / 255) threshold) as [Hink | Hno].
  2:{ split; [| exact HB]. intros x' y' [Hs | [-> ->]] Hink'; [auto |].
      destruct Hink' as (_ & _ & v' & Hv' & Hgt). congruence. }
  assert (Hxy : inked w h data x y) by (repeat split; eauto).
  split.
  - intros x' y' Hs Hink'. unfold encloses. cbn [minX minY maxX maxY].
    destruct Hs as [Hs | [-> ->]].
    + destruct (HA x' y' Hs Hink') as [[? ?] [? ?]]. split_ltb; lia.
    + split_ltb; lia.
  - right. unfold attained. cbn [minX minY maxX maxY].
    destruct HB as [-> | (H1 & H2 & H3 & H4)].
    + unfold empty_box. cbn [minX minY maxX maxY]. split_ltb; try lia.
      repeat split; exists x, y; auto.
    + repeat split;
        match goal with |- context [(?a <? ?b)%Z] => destruct (Z.ltb_spec a b) end;
        try assumption; exists x, y; auto.
Qed.

Lemma scanned_ext (seen seen' : nat -> nat -> Prop) (b : Box) :
  (forall x y, inked w h data x y -> seen' x y -> seen x y) ->
  scanned w h data seen b -> scanned w h data seen' b.
Proof.
  intros H [HA HB]. split; [| exact HB].
  intros x y Hs Hink. apply HA; [apply H |]; assumption.
Qed.

Lemma scan_row_scanned (b : Box) (y : nat) :
  (y < h)%nat ->
  scanned w h data (fun x' y' => (y' < y)%nat) b ->
  scanned w h data (fun x' y' => (y' < S y)%nat) (scan_row data w b y).
Proof.
  intros Hy Hb. unfold scan_row.
  pose proof (foldl_invariant (scan_pixel data w y)
                (fun x b => scanned w h data
                              (fun x' y' => (y' < y)%nat \/ (y' = y /\ x' < x)%nat) b)
                w 0 b) as H.
  cbv beta in H.
  eapply scanned_ext; [| apply H].
  - intros x' y' (Hx' & _ & _) Hlt. destruct (decide (y' < y)%nat); [left; assumption |].
    right. split; lia.
  - eapply scanned_ext; [| exact Hb]. intros x' y' _ [Hlt | [_ Hlt]]; [exact Hlt | lia].
  - intros x b' Hx Hb'.
    apply (scanned_ext
             (fun x' y' => ((y' < y)%nat \/ (y' = y /\ x' < x)%nat) \/ (x' = x /\ y' = y)));
      [| apply scan_pixel_scanned; [lia | exact Hy | exact Hb']].
    intros x' y' _ [Hlt | [-> Hlt]]; [left; left; exact Hlt |].
    destruct (decide (x' = x)) as [-> | Hne];
      [right; auto | left; right; split; [reflexivity | lia]].
Qed.

Lemma boundingBox_scanned :
  scanned w h data (fun _ _ => True) (boundingBox data w h).
Proof.
  unfold boundingBox.
  pose proof (foldl_invariant (scan_row data w)
                (fun y b => scanned w h data (fun x' y' => (y' < y)%nat) b)
                h 0 (empty_box w h)) as H.
  cbv beta in H.
  eapply scanned_ext; [| apply H].
  - intros x y (_ & Hy & _) _. simpl. exact Hy.
  - split; [intros x y Hlt; lia | left; reflexivity].
  - intros y b Hy Hb. apply scan_row_scanned; [lia | exact Hb].
Qed.

(** X17.  When some pixel has ink, the bounding box is the smallest box
    around the pixels with ink: it encloses every one of them, and each of
    its four bounds is the coordinate of one of them. *)
Theorem boundingBox_tight (x0 y0 : nat) :
  inked w h data x0 y0 ->
  (forall x y, inked w h data x y -> encloses (boundingBox data w h) x y) /\
  attained w h data (boundingBox data w h).
Proof.
  intros H0. destruct boundingBox_scanned as [HA HB].
  split; [intros x y Hxy; apply HA; [exact I | exact Hxy] |].
  destruct HB as [E | HB]; [| exact HB].
  destruct (HA x0 y0 I H0) as [[_ Hmax] _]. rewrite E in Hmax. simpl in Hmax. lia.
Qed.

End PreprocessFurther.

Lemma dark_pixel_inked : inked 1 1 [0; 0; 0; 255]%Z 0 0.
Proof.
  split; [lia |]. split; [lia |]. exists 0%Z. split; [reflexivity |].
  unfold PreprocessMnist.threshold. lra.
Qed.

Lemma boundingBox_tight_witness :
  (forall x y, inked 1 1 [0; 0; 0; 255]%Z x y ->
               encloses (PreprocessMnist.boundingBox [0; 0; 0; 255]%Z 1 1) x y) /\
  attained 1 1 [0; 0; 0; 255]%Z (PreprocessMnist.boundingBox [0; 0; 0; 255]%Z 1 1).
Proof. apply (boundingBox_tight 1 1 [0; 0; 0; 255]%Z 0 0). apply dark_pixel_inked. Defined.

Section PreprocessGeometry.

Import PreprocessMnist.

(** The side of the crop after scaling: between 1 and 20, and 20 for the
    longer side. *)
Lemma scaled_side (a m : Z) :
  (1 <= a <= m)%Z ->
  let s := Z.max 1 (Js.Math_round (IZR a * (20 / IZR m))) in
  (1 <= s <= 20)%Z /\ (a = m -> s = 20%Z).
Proof.
  intros Ham s.
  assert (Hm : 0 < IZR m) by (apply (IZR_lt 0); lia).
  assert (Ha : 0 < IZR a <= IZR m) by (split; [apply (IZR_lt 0) | apply IZR_le]; lia).
  assert (Hle : IZR a * (20 / IZR m) <= 20).
  { apply (Rmult_le_reg_r (IZR m)); [exact Hm |].
    replace (IZR a * (20 / IZR m) * IZR m) with (20 * IZR a) by (field; lra). lra. }
  pose proof (Math_round_le _ 20 Hle) as H20.
  split; [subst s; lia |].
  intros ->. subst s.
  replace (IZR m * (20 / IZR m)) with (IZR 20) by (field; lra).
  rewrite Math_round_Z. reflexivity.
Qed.

(** X18.  A readable canvas with ink, in a browser that gives every new
    canvas a context: the function returns with [hasInk]; the crop lies on
    the canvas and holds every pixel with ink; the scaled crop is at most
    20 by 20, its longer side 20; and it is drawn inside the middle 20 by
    20 square of the preview. *)
Theorem preprocess_ink_geometry (env : Browser) (c : Canvas) (data : list Z) (x0 y0 : nat) :
  context2d c = Some data ->
  inked (width c) (height c) data x0 y0 ->
  (forall a b, newContext2d env a b = true) ->
  exists cropX cropY cropW cropH scaledW scaledH offsetX offsetY : Z,
    let finalData :=
      composed env c (cropX, cropY, cropW, cropH) (scaledW, scaledH) (offsetX, offsetY) in
    preprocessMnistFromCanvas env c
    = Returns {| tensorData := normalize finalData;
                 previewCanvas := ComposedPreview finalData;
                 hasInk := true |} /\
    (0 <= cropX /\ 0 <= cropY /\
     cropX + cropW <= Z.of_nat (width c) /\ cropY + cropH <= Z.of_nat (height c))%Z /\
    (forall x y, inked (width c) (height c) data x y ->
       (cropX <= Z.of_nat x < cropX + cropW /\ cropY <= Z.of_nat y < cropY + cropH)%Z) /\
    (1 <= scaledW <= 20 /\ 1 <= scaledH <= 20 /\ (scaledW = 20 \/ scaledH = 20))%Z /\
    (4 <= offsetX /\ offsetX + scaledW <= 24 /\ 4 <= offsetY /\ offsetY + scaledH <= 24)%Z.
Proof.
  intros Hctx H0 Henv.
  destruct (boundingBox_scanned (width c) (height c) data) as [Hin Hat].
  assert (Hin' : forall x y, inked (width c) (height c) data x y ->
                   encloses (boundingBox data (width c) (height c)) x y)
    by (intros x y Hxy; apply Hin; [exact I | exact Hxy]).
  clear Hin. rename Hin' into Hin.
  destruct Hat as [Hempty | Hat].
  { destruct (Hin x0 y0 H0) as [[_ Hmax] _]. rewrite Hempty in Hmax. simpl in Hmax. lia. }
  unfold preprocessMnistFromCanvas. rewrite Hctx. cbv zeta.
  rewrite (getImageData_positive data (width c) (height c))
    by (destruct H0 as (? & ? & _); lia).
  set (b := boundingBox data (width c) (height c)) in *.
  destruct Hat as ((x1 & y1 & I1 & E1) & (x2 & y2 & I2 & E2)
                   & (x3 & y3 & I3 & E3) & (x4 & y4 & I4 & E4)).
  destruct (Hin x1 y1 I1) as [[_ B1] _]. destruct (Hin x3 y3 I3) as [_ [_ B3]].
  destruct I1 as (W1 & _ & _). destruct I2 as (W2 & _ & _).
  destruct I3 as (_ & W3 & _). destruct I4 as (_ & W4 & _).
  rewrite !Henv. cbn [negb].
  destruct (Z.ltb_spec (maxX b) 0) as [Hneg | _]; [lia |].
  destruct (Z.ltb_spec (maxY b) 0) as [Hneg | _]; [lia |].
  cbn [orb].
  set (boxSize := Z.max (maxX b - minX b + 1) (maxY b - minY b + 1)).
  assert (Hbox : (1 <= boxSize)%Z) by (unfold boxSize; lia).
  set (margin := Js.Math_round (IZR boxSize * 0.2)).
  assert (Hmargin : (0 <= margin)%Z).
  { apply Math_round_nonneg. apply Rmult_le_pos; [apply (IZR_le 0); lia | lra]. }
  set (cropX := clamp (minX b - margin) 0 (Z.of_nat (width c) - 1)).
  set (cropY := clamp (minY b - margin) 0 (Z.of_nat (height c) - 1)).
  set (cropMaxX := clamp (maxX b + margin) 0 (Z.of_nat (width c) - 1)).
  set (cropMaxY := clamp (maxY b + margin) 0 (Z.of_nat (height c) - 1)).
  assert (HcX : (0 <= cropX <= minX b)%Z) by (unfold cropX, clamp; lia).
  assert (HcY : (0 <= cropY <= minY b)%Z) by (unfold cropY, clamp; lia).
  assert (HmX : (maxX b <= cropMaxX <= Z.of_nat (width c) - 1)%Z)
    by (unfold cropMaxX, clamp; lia).
  assert (HmY : (maxY b <= cropMaxY <= Z.of_nat (height c) - 1)%Z)
    by (unfold cropMaxY, clamp; lia).
  set (cropW := (cropMaxX - cropX + 1)%Z).
  set (cropH := (cropMaxY - cropY + 1)%Z).
  set (m := Z.max cropW cropH).
  destruct (scaled_side cropW m ltac:(unfold m, cropW; lia)) as [HsW HsW'].
  destruct (scaled_side cropH m ltac:(unfold m, cropH; lia)) as [HsH HsH'].
  cbv zeta in HsW, HsW', HsH, HsH'.
  set (scaledW := Z.max 1 (Js.Math_round (IZR cropW * (20 / IZR m)))) in *.
  set (scaledH := Z.max 1 (Js.Math_round (IZR cropH * (20 / IZR m)))) in *.
  exists cropX, cropY, cropW, cropH, scaledW, scaledH,
    ((28 - scaledW) / 2)%Z, ((28 - scaledH) / 2)%Z.
  cbv zeta. split; [reflexivity |].
  split; [unfold cropW, cropH; lia |].
  split.
  { intros x y Hxy. destruct (Hin x y Hxy) as [[? ?] [? ?]]. unfold cropW, cropH. lia. }
  split.
  { split; [exact HsW |]. split; [exact HsH |].
    destruct (Z.max_spec cropW cropH) as [[_ Hm] | [_ Hm]]; fold m in Hm.
    - right. apply HsH'. symmetry. exact Hm.
    - left. apply HsW'. symmetry. exact Hm. }
  pose proof (Z.div_mod (28 - scaledW) 2 ltac:(lia)).
  pose proof (Z.mod_pos_bound (28 - scaledW) 2 ltac:(lia)).
  pose proof (Z.div_mod (28 - scaledH) 2 ltac:(lia)).
  pose proof (Z.mod_pos_bound (28 - scaledH) 2 ltac:(lia)).
  lia.
Qed.

End PreprocessGeometry.

Lemma preprocess_ink_geometry_witness :
  exists cropX cropY cropW cropH scaledW scaledH offsetX offsetY : Z,
    let finalData :=
      PreprocessMnist.composed (plain_browser true) dark_pixel
        (cropX, cropY, cropW, cropH) (scaledW, scaledH) (offsetX, offsetY) in
    PreprocessMnist.preprocessMnistFromCanvas (plain_browser true) dark_pixel
    = PreprocessMnist.Returns
        {| PreprocessMnist.tensorData := PreprocessMnist.normalize finalData;
           PreprocessMnist.previewCanvas := PreprocessMnist.ComposedPreview finalData;
           PreprocessMnist.hasInk := true |} /\
    (0 <= cropX /\ 0 <= cropY /\
     cropX + cropW <= Z.of_nat (PreprocessMnist.width dark_pixel) /\
     cropY + cropH <= Z.of_nat (PreprocessMnist.height dark_pixel))%Z /\
    (forall x y,
       inked (PreprocessMnist.width dark_pixel) (PreprocessMnist.height dark_pixel)
             [0; 0; 0; 255]%Z x y ->
       (cropX <= Z.of_nat x < cropX + cropW /\ cropY <= Z.of_nat y < cropY + cropH)%Z) /\
    (1 <= scaledW <= 20 /\ 1 <= scaledH <= 20 /\ (scaledW = 20 \/ scaledH = 20))%Z /\
    (4 <= offsetX /\ offsetX + scaledW <= 24 /\ 4 <= offsetY /\ offsetY + scaledH <= 24)%Z.
Proof.
  apply (preprocess_ink_geometry (plain_browser true) dark_pixel [0; 0; 0; 255]%Z 0 0);
    [reflexivity | apply dark_pixel_inked | intros a b; reflexivity].
Defined.

Section TensorProperties.

Import PreprocessMnist.

Local Opaque Nat.div Nat.mul.

Lemma normalize_spec (finalData : list Z) :
  length finalData = (28 * 28 * 4)%nat ->
  length (normalize finalData) = (28 * 28)%nat /\
  forall j, (j < 28 * 28)%nat ->
    Js.get (normalize finalData) j
    = (1 - IZR (default 0%Z (finalData !! (j * 4)%nat)) / 255 - MNIST_MEAN) / MNIST_STD.
Proof.
  intros Hlen. unfold normalize. rewrite Hlen.
  replace ((28 * 28 * 4 + 3) / 4)%nat with (28 * 28)%nat by (vm_compute; reflexivity).
  exact (in_place_map
           (fun p _ => (1 - IZR (default 0%Z (finalData !! (p * 4)%nat)) / 255 - MNIST_MEAN)
                       / MNIST_STD)
           (28 * 28) (Js.zeros (28 * 28)) (length_replicate _ _)).
Qed.

(** X19.  The tensor of a preview of 28 by 28 pixels: 784 values, the
    value of pixel [j] computed from its red byte, between the value of
    white and the value of black. *)
Theorem normalize_tensor (finalData : list Z) :
  length finalData = (28 * 28 * 4)%nat ->
  Forall (fun v => (0 <= v <= 255)%Z) finalData ->
  length (normalize finalData) = (28 * 28)%nat /\
  forall j, (j < 28 * 28)%nat ->
    exists r, finalData !! (j * 4)%nat = Some r /\
      Js.get (normalize finalData) j = (1 - IZR r / 255 - MNIST_MEAN) / MNIST_STD /\
      - MNIST_MEAN / MNIST_STD <= Js.get (normalize finalData) j
      <= (1 - MNIST_MEAN) / MNIST_STD.
Proof.
  intros Hlen Hbytes. destruct (normalize_spec finalData Hlen) as [H1 H2].
  split; [exact H1 |]. intros j Hj.
  destruct (lookup_lt_is_Some_2 finalData (j * 4)%nat ltac:(rewrite Hlen; lia)) as [r Hr].
  exists r. split; [exact Hr |]. rewrite (H2 j Hj), Hr.
  change (default 0%Z (Some r)) with r. split; [reflexivity |].
  pose proof (proj1 (Forall_lookup _ _) Hbytes _ _ Hr) as [Hr0 Hr1]. cbv beta in *.
  apply IZR_le in Hr0, Hr1.
  unfold MNIST_MEAN, MNIST_STD.
  assert (H0 : 0 <= IZR r / 255 <= 1) by (split; lra).
  split.
  - apply (Rmult_le_reg_r 0.3081); [lra |].
    replace ((1 - IZR r / 255 - 0.1307) / 0.3081 * 0.3081) with (1 - IZR r / 255 - 0.1307)
      by (field; lra).
    replace (- 0.1307 / 0.3081 * 0.3081) with (- 0.1307) by (field; lra). lra.
  - apply (Rmult_le_reg_r 0.3081); [lra |].
    replace ((1 - IZR r / 255 - 0.1307) / 0.3081 * 0.3081) with (1 - IZR r / 255 - 0.1307)
      by (field; lra).
    replace ((1 - 0.1307) / 0.3081 * 0.3081) with (1 - 0.1307) by (field; lra). lra.
Qed.

Lemma normalize_tensor_witness :
  length (normalize (replicate (28 * 28 * 4) 255%Z)) = (28 * 28)%nat /\
  forall j, (j < 28 * 28)%nat ->
    exists r, replicate (28 * 28 * 4) 255%Z !! (j * 4)%nat = Some r /\
      Js.get (normalize (replicate (28 * 28 * 4) 255%Z)) j
      = (1 - IZR r / 255 - MNIST_MEAN) / MNIST_STD /\
      - MNIST_MEAN / MNIST_STD <= Js.get (normalize (replicate (28 * 28 * 4) 255%Z)) j
      <= (1 - MNIST_MEAN) / MNIST_STD.
Proof.
  apply (normalize_tensor (replicate (28 * 28 * 4) 255%Z)).
  - apply length_replicate.
  - apply Forall_replicate. lia.
Defined.

(** X20.  The two pages feed the model on the same scale: a preview whose
    red bytes are the inverse of the pixels of a sample of the data set
    gives the tensor that the evaluation computes from the sample. *)
Theorem normalize_agrees_with_evaluation (pixels finalData : list Z) :
  length pixels = (28 * 28)%nat ->
  length finalData = (28 * 28 * 4)%nat ->
  (forall j v, pixels !! j = Some v -> finalData !! (j * 4)%nat = Some (255 - v)%Z) ->
  normalize finalData = EvalPage.normalize pixels.
Proof.
  intros Hp Hlen Hinv. destruct (normalize_spec finalData Hlen) as [H1 H2].
  apply array_ext.
  - rewrite H1. unfold EvalPage.normalize. rewrite length_fmap, length_seq. reflexivity.
  - intros j Hj. rewrite H1 in Hj. rewrite (H2 j Hj).
    unfold EvalPage.normalize, Js.get at 1.
    rewrite list_lookup_fmap, lookup_seq_lt by exact Hj.
    destruct (lookup_lt_is_Some_2 pixels j ltac:(lia)) as [v Hv].
    cbn [fmap option_fmap option_map default from_option id plus].
    rewrite Hv, (Hinv j v Hv). cbv [default from_option Datatypes.id]. rewrite minus_IZR.
    unfold MNIST_MEAN, MNIST_STD. field. lra.
Qed.

Lemma normalize_agrees_with_evaluation_witness :
  normalize (replicate (28 * 28 * 4) 255%Z) = EvalPage.normalize (replicate (28 * 28) 0%Z).
Proof.
  apply normalize_agrees_with_evaluation.
  - apply length_replicate.
  - apply length_replicate.
  - intros j v Hv. apply lookup_replicate in Hv as [-> Hj].
    apply lookup_replicate_2. lia.
Defined.

End TensorProperties.

Section EvalFurther.

Import EvalPage.

(** The loop of [argmax], run to its end. *)
Lemma argmax_loop (logits : list R) :
  logits <> [] ->
  let st := foldl (argmax_step logits) (0%nat, logits !! 0%nat) (seq 1 (length logits - 1)) in
  (st.1 < length logits)%nat /\ st.2 = Some (Js.get logits st.1) /\
  (forall j, (j < length logits)%nat -> Js.get logits j <= Js.get logits st.1) /\
  (forall j, (j < st.1)%nat -> Js.get logits j < Js.get logits st.1).
Proof.
  intros Hne.
  assert (Hn : (1 <= length logits)%nat) by (destruct logits; [contradiction | simpl; lia]).
  pose (P := fun (k : nat) (st : nat * option R) =>
               (st.1 < k)%nat /\ st.2 = Some (Js.get logits st.1) /\
               (forall j, (j < k)%nat -> Js.get logits j <= Js.get logits st.1) /\
               (forall j, (j < st.1)%nat -> Js.get logits j < Js.get logits st.1)).
  assert (HP : P (1 + (length logits - 1))%nat
                 (foldl (argmax_step logits) (0%nat, logits !! 0%nat)
                        (seq 1 (length logits - 1)))).
  { apply (foldl_invariant _ P).
    - unfold P. cbn [fst snd]. split; [lia |]. split.
      + unfold Js.get. destruct logits; [contradiction | reflexivity].
      + split; intros j Hj; [| lia]. replace j with 0%nat by lia. lra.
    - intros i [idx best] Hi (H1 & H2 & H3 & H4). cbn [fst snd] in *. subst best.
      unfold argmax_step.
      destruct (Rgt_dec (Js.get logits i) (Js.get logits idx)) as [Hgt | Hle];
        unfold P; cbn [fst snd].
      + split; [lia |]. split; [reflexivity |]. split.
        * intros j Hj. destruct (decide (j = i)) as [-> | Hji]; [lra |].
          specialize (H3 j ltac:(lia)). lra.
        * intros j Hj. specialize (H3 j Hj). lra.
      + split; [lia |]. split; [reflexivity |]. split; [| exact H4].
        intros j Hj. destruct (decide (j = i)) as [-> | Hji]; [lra |].
        apply H3. lia. }
  destruct HP as (H1 & H2 & H3 & H4).
  split; [lia |]. split; [exact H2 |]. split; [| exact H4].
  intros j Hj. apply H3. lia.
Qed.

(** X21.  On a vector that is not empty, [argmax] gives the first index of
    the largest score: an index of the vector, no score above its score,
    and every score before it below. *)
Theorem argmax_first_maximum (logits : list R) :
  logits <> [] ->
  (argmax logits < length logits)%nat /\
  (forall j, (j < length logits)%nat -> Js.get logits j <= Js.get logits (argmax logits)) /\
  (forall j, (j < argmax logits)%nat -> Js.get logits j < Js.get logits (argmax logits)).
Proof.
  intros Hne. destruct (argmax_loop logits Hne) as (Hlt & _ & Hmax & Hfirst).
  unfold argmax. auto.
Qed.

Lemma argmax_first_maximum_witness :
  (argmax [1; 3; 3; 2]%R < length [1; 3; 3; 2]%R)%nat /\
  (forall j, (j < length [1; 3; 3; 2]%R)%nat ->
     Js.get [1; 3; 3; 2] j <= Js.get [1; 3; 3; 2] (argmax [1; 3; 3; 2])) /\
  (forall j, (j < argmax [1; 3; 3; 2]%R)%nat ->
     Js.get [1; 3; 3; 2] j < Js.get [1; 3; 3; 2] (argmax [1; 3; 3; 2])).
Proof. apply (argmax_first_maximum [1; 3; 3; 2]). discriminate. Defined.

Variable session : list R -> list R.

Lemma accumulate_cell (m m' : Matrix) (y pred y' p' : nat) :
  accumulate m y pred = Some m' ->
  cell (default [] (m' !! y')) p'
  = (cell (default [] (m !! y')) p' + if decide (y' = y /\ p' = pred) then 1 else 0)%nat.
Proof.
  unfold accumulate. destruct (m !! y) as [row |] eqn:Hrow; [| discriminate].
  intros [= <-].
  assert (Hy : (y < length m)%nat) by (apply lookup_lt_is_Some; eauto).
  destruct (decide (y' = y)) as [-> | Hne].
  - rewrite list_lookup_insert_eq by exact Hy. rewrite Hrow.
    change (default [] (Some ?r)) with r. rewrite cell_row_set.
    destruct (decide (pred = p')) as [-> | Hp].
    + rewrite decide_True by auto. reflexivity.
    + rewrite decide_False by (intros [_ ->]; contradiction). lia.
  - rewrite list_lookup_insert_ne by congruence.
    rewrite decide_False by (intros [-> _]; contradiction). lia.
Qed.

Lemma hits_snoc (l : list Sample) (s : Sample) (y p : nat) :
  hits session (l ++ [s]) y p
  = (hits session l y p + if decide (y = label s /\ p = predicted session s) then 1 else 0)%nat.
Proof.
  unfold hits. rewrite filter_app, length_app. f_equal.
  rewrite filter_cons.
  destruct (decide (label s = y /\ predicted session s = p)) as [[<- <-] | Hno].
  - rewrite decide_True by auto. reflexivity.
  - rewrite decide_False by (intros [-> ->]; apply Hno; auto). reflexivity.
Qed.

Lemma conf_after_cells (l : list Sample) (y p : nat) :
  Forall (fun s => (label s < 10)%nat) l ->
  cell (default [] (conf_after session l !! y)) p = hits session l y p.
Proof.
  induction l as [| s l IH] using rev_ind; intros Hl.
  - change (conf_after session []) with emptyConf.
    change (hits session [] y p) with 0%nat. unfold emptyConf.
    destruct (decide (y < 10)%nat) as [Hy | Hy].
    + rewrite lookup_replicate_2 by exact Hy.
      change (default [] (Some ?r)) with r. unfold cell.
      destruct (decide (p < 10)%nat) as [Hp | Hp].
      * rewrite lookup_replicate_2 by exact Hp. reflexivity.
      * rewrite (proj2 (lookup_ge_None _ _)) by (rewrite length_replicate; lia). reflexivity.
    + rewrite (proj2 (lookup_ge_None _ _)) by (rewrite length_replicate; lia). reflexivity.
  - apply Forall_app in Hl as [Hl Hs]. rewrite Forall_singleton in Hs.
    pose proof (conf_after_snoc session l s Hl Hs) as E.
    rewrite (accumulate_cell _ _ _ _ y p E), (IH Hl), hits_snoc. reflexivity.
Qed.

(** X22.  A run over labels from 0 to 9 returns.  The page then shows all
    the samples as done, the number of right predictions, and the matrix
    whose cell [(y, p)] counts the samples with the label [y] taken for
    [p]. *)
Theorem runEval_final_state (samples : list Sample) :
  Forall (fun s => (label s < 10)%nat) samples ->
  exists loc ui,
    runEval session samples = Some (loc, ui) /\
    done ui = length samples /\ total ui = length samples /\
    correct ui = correct_count session samples /\
    forall y p, cell (default [] (conf ui !! y)) p = hits session samples y p.
Proof.
  intros Hl. unfold runEval.
  rewrite (runEval_upto_state session samples (length samples) Hl (le_n _)).
  rewrite firstn_all. unfold state_after. cbv zeta.
  assert (E : last_refresh (length samples) (length samples) = length samples)
    by (unfold last_refresh; rewrite decide_True by reflexivity; reflexivity).
  rewrite E, firstn_all.
  eexists _, _. split; [reflexivity |]. cbn [done total correct conf].
  repeat split. intros y p. apply conf_after_cells. exact Hl.
Qed.

(** The run up to a sample whose label has no row in the matrix, and at
    that sample. *)
Lemma loop_label_without_row (n : nat) (s : Sample) (post rest pre : list Sample) :
  (10 <= label s)%nat ->
  Forall (fun s => (label s < 10)%nat) (pre ++ rest) ->
  (length (pre ++ rest) < n)%nat ->
  loop session n (length pre) (rest ++ s :: post) (state_after session n pre) = None.
Proof.
  intros Hbad. revert pre. induction rest as [| r rest IH]; intros pre Hall Hlen.
  - rewrite app_nil_r in Hall, Hlen. simpl. unfold step, state_after. cbv zeta.
    cbn [localConf]. unfold accumulate.
    destruct (conf_after_spec session pre Hall) as [Hc _].
    rewrite (proj2 (lookup_ge_None _ _)) by lia. reflexivity.
  - apply Forall_app in Hall as Hall'. destruct Hall' as [H0 Hr].
    apply Forall_cons in Hr as [Hr Hrest].
    rewrite length_app in Hlen. simpl in Hlen.
    cbn [app loop].
    rewrite step_state_after by (try assumption; lia).
    replace (S (length pre)) with (length (pre ++ [r])) by (rewrite length_app; simpl; lia).
    apply IH.
    + rewrite <- app_assoc. exact Hall.
    + rewrite !length_app. simpl. lia.
Qed.

Lemma start_state_after (samples : list Sample) :
  start samples = state_after session (length samples) [].
Proof.
  unfold start, state_after, last_refresh. simpl length.
  destruct (decide (0%nat = length samples)); reflexivity.
Qed.

(** X23.  The engine answering every sample: in a data set whose first
    sample with a label above 9 comes after the samples [pre], the run
    processes [pre] as it does in any run (the counts, the matrix and the
    refreshes of the page are those of [state_after]), and it throws at that
    sample, whose label has no row in the matrix: however many samples
    follow, none is processed, and [runEval] does not return. *)
Theorem runEval_stops_at_label_without_row (pre post : list Sample) (s : Sample) :
  Forall (fun s => (label s < 10)%nat) pre -> (10 <= label s)%nat ->
  let samples := pre ++ s :: post in
  (forall k, (k <= length pre)%nat ->
     runEval_upto session samples k
     = Some (state_after session (length samples) (take k pre))) /\
  (forall k, (length pre < k)%nat -> runEval_upto session samples k = None) /\
  runEval session samples = None.
Proof.
  intros Hpre Hbad samples.
  assert (Hn : (length pre < length samples)%nat)
    by (unfold samples; rewrite length_app; simpl; lia).
  assert (Hlater : forall k, (length pre < k)%nat -> runEval_upto session samples k = None).
  { intros k Hk. unfold runEval_upto. rewrite start_state_after.
    assert (E : take k samples = pre ++ s :: take (k - length pre - 1) post).
    { unfold samples. rewrite take_app_ge by lia.
      destruct (k - length pre)%nat as [| d] eqn:Ed; [lia |].
      simpl. rewrite Nat.sub_0_r. reflexivity. }
    rewrite E.
    apply (loop_label_without_row (length samples) s _ pre [] Hbad); simpl; assumption. }
  split; [| split].
  - intros k Hk. unfold runEval_upto. rewrite start_state_after.
    assert (E : take k samples = take k pre) by (unfold samples; apply take_app_le; exact Hk).
    rewrite E.
    apply (loop_state_after session (length samples) (take k pre) []).
    + simpl. apply Forall_take, Hpre.
    + simpl. rewrite length_take. lia.
  - exact Hlater.
  - unfold runEval. apply Hlater. exact Hn.
Qed.

End EvalFurther.

Lemma runEval_final_state_witness :
  exists loc ui,
    EvalPage.runEval always_zero twenty_zeros = Some (loc, ui) /\
    EvalPage.done ui = length twenty_zeros /\ EvalPage.total ui = length twenty_zeros /\
    EvalPage.correct ui = correct_count always_zero twenty_zeros /\
    forall y p, EvalPage.cell (default [] (EvalPage.conf ui !! y)) p
                = hits always_zero twenty_zeros y p.
Proof. apply (runEval_final_state always_zero twenty_zeros). apply twenty_zeros_labels. Defined.

Lemma runEval_stops_at_label_without_row_witness :
  let samples := twenty_zeros ++ label_ten :: twenty_zeros in
  (forall k, (k <= length twenty_zeros)%nat ->
     EvalPage.runEval_upto always_zero samples k
     = Some (state_after always_zero (length samples) (take k twenty_zeros))) /\
  (forall k, (length twenty_zeros < k)%nat ->
     EvalPage.runEval_upto always_zero samples k = None) /\
  EvalPage.runEval always_zero samples = None.
Proof.
  apply (runEval_stops_at_label_without_row always_zero twenty_zeros twenty_zeros label_ten).
  - apply twenty_zeros_labels.
  - simpl. lia.
Defined.

(** Accumulating (true 3, predicted 3), (3, 5) and (7, 7) from the
    all-zero matrix gives a matrix with 1 in the cells (3, 3), (3, 5) and
    (7, 7); its cells sum to 3 and its diagonal to 2. *)
Example accumulate_three_samples :
  exists m1 m2 m3,
    EvalPage.accumulate EvalPage.emptyConf 3 3 = Some m1 /\
    EvalPage.accumulate m1 3 5 = Some m2 /\
    EvalPage.accumulate m2 7 7 = Some m3 /\
    EvalPage.cell (default [] (m3 !! 3%nat)) 3 = 1%nat /\
    EvalPage.cell (default [] (m3 !! 3%nat)) 5 = 1%nat /\
    EvalPage.cell (default [] (m3 !! 7%nat)) 7 = 1%nat /\
    EvalPage.cells_sum m3 = 3%nat /\ EvalPage.diagonal_sum m3 = 2%nat.
Proof.
  eexists _, _, _. repeat split; reflexivity.
Qed.

(** *** The list of probabilities of the pages *)

Section RankingProperties.

Import Scoring.

Lemma insertDescending_perm (x : Prob) (l : list Prob) : insertDescending x l ≡ₚ x :: l.
Proof.
  induction l as [| y l IH]; simpl; [reflexivity |].
  destruct (Rlt_dec (p x) (p y)); [| reflexivity].
  rewrite IH. apply Permutation_swap.
Qed.

Lemma sortDescending_perm (l : list Prob) : sortDescending l ≡ₚ l.
Proof.
  induction l as [| x l IH]; simpl; [reflexivity |].
  rewrite insertDescending_perm, IH. reflexivity.
Qed.

Lemma insertDescending_sorted (x : Prob) (l : list Prob) :
  StronglySorted ranks_before l ->
  Forall (fun y => (digit x < digit y)%nat) l ->
  StronglySorted ranks_before (insertDescending x l).
Proof.
  induction l as [| y l IH]; intros Hs Hd; simpl.
  - repeat constructor.
  - apply StronglySorted_cons in Hs as [Hy Hs].
    apply Forall_cons in Hd as [Hxy Hd].
    destruct (Rlt_dec (p x) (p y)) as [Hlt | Hge].
    + apply StronglySorted_cons. split; [| apply IH; assumption].
      rewrite insertDescending_perm. constructor; [left; lra | exact Hy].
    + apply StronglySorted_cons. split; [| apply StronglySorted_cons; auto].
      constructor.
      * unfold ranks_before. destruct (Rle_lt_or_eq_dec (p y) (p x) ltac:(lra)); [left; lra | right; auto].
      * rewrite Forall_forall in Hy, Hd |- *. intros z Hz.
        specialize (Hy z Hz). specialize (Hd z Hz). unfold ranks_before in *.
        destruct Hy as [Hy | [Hy _]];
          destruct (Rle_lt_or_eq_dec (p y) (p x) ltac:(lra)); try (left; lra); right; split; [lra | lia].
Qed.

Lemma sortDescending_sorted (l : list Prob) :
  StronglySorted (fun a b => (digit a < digit b)%nat) l ->
  StronglySorted ranks_before (sortDescending l).
Proof.
  induction l as [| x l IH]; intros Hs; simpl; [constructor |].
  apply StronglySorted_cons in Hs as [Hx Hs].
  apply insertDescending_sorted; [apply IH; exact Hs |].
  rewrite sortDescending_perm. exact Hx.
Qed.

Lemma indexed_lookup (probs : list R) (i : nat) :
  indexed probs !! i = (fun v => {| digit := i; p := v |}) <$> probs !! i.
Proof. unfold indexed. apply list_lookup_imap. Qed.

Lemma sorted_by_lookup {A : Type} (R' : A -> A -> Prop) (l : list A) :
  (forall i j a b, (i < j)%nat -> l !! i = Some a -> l !! j = Some b -> R' a b) ->
  StronglySorted R' l.
Proof.
  induction l as [| x l IH]; intros H; [constructor |].
  apply StronglySorted_cons. split.
  - apply Forall_lookup. intros j b Hb. apply (H 0%nat (S j) x b); [lia | reflexivity | exact Hb].
  - apply IH. intros i j a b Hij Ha Hb. apply (H (S i) (S j)); [lia | exact Ha | exact Hb].
Qed.

Lemma lookup_of_sorted {A : Type} (R' : A -> A -> Prop) (l : list A) :
  StronglySorted R' l ->
  forall i j a b, (i < j)%nat -> l !! i = Some a -> l !! j = Some b -> R' a b.
Proof.
  induction l as [| x l IH]; intros Hs i j a b Hij Ha Hb; [rewrite lookup_nil in Ha; discriminate |].
  apply StronglySorted_cons in Hs as [Hx Hs].
  destruct j as [| j]; [lia |]. simpl in Hb.
  destruct i as [| i].
  - simpl in Ha. injection Ha as <-. exact (proj1 (Forall_lookup _ _) Hx j b Hb).
  - simpl in Ha. apply (IH Hs i j); [lia | exact Ha | exact Hb].
Qed.

Lemma indexed_sorted (probs : list R) :
  StronglySorted (fun a b => (digit a < digit b)%nat) (indexed probs).
Proof.
  apply sorted_by_lookup. intros i j a b Hij Ha Hb.
  rewrite indexed_lookup in Ha, Hb.
  destruct (probs !! i); [| discriminate]. destruct (probs !! j); [| discriminate].
  simpl in Ha, Hb. injection Ha as <-. injection Hb as <-. exact Hij.
Qed.

Lemma elem_of_indexed (probs : list R) (e : Prob) :
  e ∈ indexed probs <-> probs !! digit e = Some (p e).
Proof.
  rewrite list_elem_of_lookup. split.
  - intros [i Hi]. rewrite indexed_lookup in Hi.
    destruct (probs !! i) as [v |] eqn:E; [| discriminate].
    simpl in Hi. injection Hi as <-. exact E.
  - intros H. exists (digit e). rewrite indexed_lookup, H. destruct e; reflexivity.
Qed.

(** X24.  The list shown: five entries, or as many as there are
    probabilities, each a digit with its probability, in the order of
    [ranks_before]; whatever is not shown comes after all that is shown. *)
Theorem ranked_top_five (probs : list R) :
  length (ranked probs) = Nat.min 5 (length probs) /\
  (forall e, e ∈ ranked probs -> probs !! digit e = Some (p e)) /\
  (forall i j a b, (i < j)%nat -> ranked probs !! i = Some a -> ranked probs !! j = Some b ->
     ranks_before a b) /\
  (forall d v, probs !! d = Some v ->
     {| digit := d; p := v |} ∈ ranked probs \/
     forall e, e ∈ ranked probs -> ranks_before e {| digit := d; p := v |}).
Proof.
  unfold ranked. fold (indexed probs).
  pose proof (sortDescending_perm (indexed probs)) as Hperm.
  pose proof (sortDescending_sorted _ (indexed_sorted probs)) as Hsorted.
  set (s := sortDescending (indexed probs)) in *.
  split; [| split; [| split]].
  - rewrite length_take, (Permutation_length Hperm). unfold indexed.
    rewrite length_imap. reflexivity.
  - intros e He. apply elem_of_indexed. rewrite <- Hperm.
    rewrite <- (take_drop 5 s). apply elem_of_app. left. exact He.
  - apply lookup_of_sorted. rewrite <- (take_drop 5 s) in Hsorted.
    eapply StronglySorted_app_1_l. exact Hsorted.
  - intros d v Hv.
    assert (Hin : {| digit := d; p := v |} ∈ s) by (rewrite Hperm; apply elem_of_indexed; exact Hv).
    rewrite <- (take_drop 5 s) in Hin, Hsorted.
    apply elem_of_app in Hin as [Hin | Hin]; [left; exact Hin | right].
    intros e He. exact (StronglySorted_app_1_elem_of _ _ _ _ _ Hsorted He Hin).
Qed.

Lemma head_sortDescending (l : list Prob) :
  l <> [] ->
  exists i h,
    l !! i = Some h /\ head (sortDescending l) = Some h /\
    (forall y, y ∈ l -> p y <= p h) /\
    (forall j y, (j < i)%nat -> l !! j = Some y -> p y < p h).
Proof.
  induction l as [| x l IH]; intros Hne; [contradiction |].
  destruct l as [| x' l'].
  - exists 0%nat, x. simpl. split; [reflexivity |]. split; [reflexivity |]. split.
    + intros y Hy. apply list_elem_of_singleton in Hy as ->. lra.
    + intros j y Hj. lia.
  - destruct (IH ltac:(discriminate)) as (i & h & Hi & Hh & Hmax & Hfirst).
    change (sortDescending (x :: x' :: l'))
      with (insertDescending x (sortDescending (x' :: l'))).
    destruct (sortDescending (x' :: l')) as [| y s] eqn:Es; [discriminate |].
    simpl in Hh. injection Hh as ->. simpl.
    destruct (Rlt_dec (p x) (p h)) as [Hlt | Hge].
    + exists (S i), h. split; [exact Hi |]. split; [reflexivity |]. split.
      * intros z Hz. apply elem_of_cons in Hz as [-> | Hz]; [lra | apply Hmax; exact Hz].
      * intros j z Hj Hz. destruct j as [| j]; simpl in Hz.
        -- injection Hz as <-. exact Hlt.
        -- apply (Hfirst j); [lia | exact Hz].
    + exists 0%nat, x. split; [reflexivity |]. split; [reflexivity |]. split.
      * intros z Hz. apply elem_of_cons in Hz as [-> | Hz]; [lra |].
        specialize (Hmax z Hz). lra.
      * intros j z Hj. lia.
Qed.

(** X25.  Of probabilities that are not empty, the first entry of the list
    shown (the digit that the recognition pages display) is the first index
    of the largest probability, with that probability: the index that
    [argmax] of the evaluation page gives on the same numbers. *)
Theorem ranked_first_is_argmax (probs : list R) :
  probs <> [] ->
  exists d v,
    head (ranked probs) = Some {| digit := d; p := v |} /\
    probs !! d = Some v /\
    (forall j w, probs !! j = Some w -> w <= v) /\
    (forall j w, (j < d)%nat -> probs !! j = Some w -> w < v) /\
    d = EvalPage.argmax probs.
Proof.
  intros Hne.
  assert (Hidx : indexed probs <> []).
  { intros E. apply (f_equal length) in E. unfold indexed in E.
    rewrite length_imap in E. destruct probs; [contradiction | discriminate]. }
  destruct (head_sortDescending _ Hidx) as (i & h & Hi & Hh & Hmax & Hfirst).
  rewrite indexed_lookup in Hi.
  destruct (probs !! i) as [v |] eqn:Ei; [| discriminate].
  simpl in Hi. injection Hi as <-. cbn [p] in Hmax, Hfirst.
  assert (Hilt : (i < length probs)%nat) by (apply lookup_lt_is_Some; eauto).
  assert (Hmax' : forall j w, probs !! j = Some w -> w <= v).
  { intros j w Hw. apply (Hmax {| digit := j; p := w |}).
    apply elem_of_indexed. exact Hw. }
  assert (Hfirst' : forall j w, (j < i)%nat -> probs !! j = Some w -> w < v).
  { intros j w Hj Hw. apply (Hfirst j {| digit := j; p := w |} Hj).
    rewrite indexed_lookup, Hw. reflexivity. }
  exists i, v. split; [| split; [exact Ei | split; [exact Hmax' | split; [exact Hfirst' |]]]].
  - unfold ranked. fold (indexed probs).
    destruct (sortDescending (indexed probs)) as [| y l] eqn:Es; [discriminate |].
    simpl in Hh. injection Hh as ->. reflexivity.
  - destruct (argmax_loop probs Hne) as (Ha & _ & Hamax & Hafirst).
    fold (EvalPage.argmax probs) in Ha, Hamax, Hafirst.
    assert (Hgi : Js.get probs i = v) by (unfold Js.get; rewrite Ei; reflexivity).
    destruct (Nat.lt_trichotomy i (EvalPage.argmax probs)) as [Hlt | [Heq | Hgt]];
      [| exact Heq |]; exfalso.
    + specialize (Hafirst i Hlt). rewrite Hgi in Hafirst.
      destruct (lookup_lt_is_Some_2 probs _ Ha) as [w Hw].
      specialize (Hmax' _ _ Hw).
      assert (Js.get probs (EvalPage.argmax probs) = w) by (unfold Js.get; rewrite Hw; reflexivity).
      lra.
    + specialize (Hamax i Hilt). rewrite Hgi in Hamax.
      destruct (lookup_lt_is_Some_2 probs _ Ha) as [w Hw].
      specialize (Hfirst' _ _ Hgt Hw).
      assert (Js.get probs (EvalPage.argmax probs) = w) by (unfold Js.get; rewrite Hw; reflexivity).
      lra.
Qed.

Lemma ranked_first_is_argmax_witness :
  exists d v,
    head (ranked [0.2; 0.4; 0.4]) = Some {| digit := d; p := v |} /\
    [0.2; 0.4; 0.4] !! d = Some v /\
    (forall j w, [0.2; 0.4; 0.4] !! j = Some w -> w <= v) /\
    (forall j w, (j < d)%nat -> [0.2; 0.4; 0.4] !! j = Some w -> w < v) /\
    d = EvalPage.argmax [0.2; 0.4; 0.4].
Proof. apply (ranked_first_is_argmax [0.2; 0.4; 0.4]). discriminate. Defined.

End RankingProperties.

Example ranked_example :
  Scoring.ranked [0.1; 0.4; 0.1; 0.4]
  = [ {| Scoring.digit := 1; Scoring.p := 0.4 |}; {| Scoring.digit := 3; Scoring.p := 0.4 |};
      {| Scoring.digit := 0; Scoring.p := 0.1 |}; {| Scoring.digit := 2; Scoring.p := 0.1 |} ].
Proof.
  unfold Scoring.ranked, Scoring.sortDescending. simpl.
  repeat (destruct (Rlt_dec _ _); try lra; simpl). reflexivity.
Qed.

(** *** src/pages/VoicePage.tsx: extractDigit *)

Section ExtractDigitProperties.

Import VoicePage.

Variable trim toLowerCase : list N -> list N.

Lemma own_elem_of (m : list (list N * nat)) (k : list N) (v : nat) :
  own m k = Some v -> (k, v) ∈ m.
Proof.
  induction m as [| [k' v'] m IH]; simpl; [discriminate |].
  destruct (decide (k' = k)) as [-> | Hne].
  - intros [= ->]. left.
  - intros H. right. apply IH, H.
Qed.

Lemma own_keys (m : list (list N * nat)) (k : list N) :
  k ∈ (fst <$> m) -> exists v, own m k = Some v.
Proof.
  induction m as [| [k' v'] m IH]; simpl; intros Hk; [apply elem_of_nil in Hk; contradiction |].
  destruct (decide (k' = k)) as [-> | Hne]; [eauto |].
  apply elem_of_cons in Hk as [-> | Hk]; [contradiction | apply IH, Hk].
Qed.

Lemma map_values : Forall (fun kv => (kv.2 <= 9)%nat) map.
Proof. unfold map. repeat (constructor; [simpl; lia |]). constructor. Qed.

Lemma map_digits :
  Forall (fun kv => matchDigit kv.1 = None \/ matchDigit kv.1 = Some kv.2) map.
Proof. unfold map. repeat (constructor; [vm_compute; auto |]). constructor. Qed.

Lemma inherited_digits : Forall (fun k => matchDigit k = None) inherited.
Proof. unfold inherited. repeat (constructor; [reflexivity |]). constructor. Qed.

Lemma inherited_not_own : Forall (fun k => own map k = None) inherited.
Proof. unfold inherited. repeat (constructor; [reflexivity |]). constructor. Qed.

Lemma matchDigit_range (s : list N) (d : nat) : matchDigit s = Some d -> (d <= 9)%nat.
Proof.
  induction s as [| c s IH]; simpl; [discriminate |].
  destruct (N.leb_spec 48 c), (N.leb_spec c 57); simpl; try exact IH.
  intros [= <-]. lia.
Qed.

Lemma matchDigit_first (pre rest : list N) (c : N) :
  Forall (fun u => ~ isDigit u) pre -> isDigit c ->
  matchDigit (pre ++ c :: rest) = Some (N.to_nat (c - 48)).
Proof.
  intros Hpre [Hc0 Hc1]. induction pre as [| u pre IH]; simpl.
  - destruct (N.leb_spec 48 c), (N.leb_spec c 57); simpl; try lia. reflexivity.
  - apply Forall_cons in Hpre as [Hu Hpre]. unfold isDigit in Hu.
    destruct (N.leb_spec 48 u), (N.leb_spec u 57); simpl; try lia; apply IH, Hpre.
Qed.

Lemma matchDigit_none (s : list N) :
  Forall (fun u => ~ isDigit u) s -> matchDigit s = None.
Proof.
  induction s as [| u s IH]; intros Hs; simpl; [reflexivity |].
  apply Forall_cons in Hs as [Hu Hs]. unfold isDigit in Hu.
  destruct (N.leb_spec 48 u), (N.leb_spec u 57); simpl; try lia; apply IH, Hs.
Qed.

Lemma includes_unit (s : list N) (c : N) : includes s [c] = bool_decide (c ∈ s).
Proof.
  induction s as [| b s IH]; [reflexivity |].
  cbn [includes startsWith]. rewrite IH.
  destruct (decide (c = b)) as [-> | Hne].
  - rewrite bool_decide_eq_true_2 by reflexivity.
    destruct s; simpl; symmetry; apply bool_decide_eq_true_2; left.
  - rewrite (bool_decide_eq_false_2 (c = b)) by exact Hne. simpl.
    apply bool_decide_ext. rewrite elem_of_cons. tauto.
Qed.

(** X26.  What [extractDigit] can return: the inherited property when the
    normalized text is the name of one, and otherwise [null] or a number
    from 0 to 9. *)
Theorem extractDigit_result (text : list N) :
  let normalized := toLowerCase (trim text) in
  (normalized ∈ inherited ->
     extractDigit trim toLowerCase text = Inherited normalized) /\
  (normalized ∉ inherited ->
     extractDigit trim toLowerCase text = Null \/
     exists d, (d <= 9)%nat /\ extractDigit trim toLowerCase text = Number d).
Proof.
  intros normalized. unfold extractDigit. fold normalized. cbv zeta. split.
  - intros Hin. unfold has, lookup_or_null.
    rewrite (proj1 (Forall_forall _ _) inherited_not_own _ Hin).
    rewrite (bool_decide_eq_true_2 _ Hin). reflexivity.
  - intros Hnot. unfold has, lookup_or_null.
    rewrite (bool_decide_eq_false_2 _ Hnot), orb_false_r.
    destruct (own map normalized) as [v |] eqn:Eown.
    + rewrite bool_decide_eq_true_2 by eauto. right. exists v. split; [| reflexivity].
      exact (proj1 (Forall_forall _ _) map_values _ (own_elem_of _ _ _ Eown)).
    + rewrite bool_decide_eq_false_2 by (intros [? ?]; discriminate).
      destruct (matchDigit normalized) as [d |] eqn:Ed.
      * right. exists d. split; [exact (matchDigit_range _ _ Ed) | reflexivity].
      * destruct (firstKeyIncluded (fst <$> map) normalized) as [k |] eqn:Ek; [| left; reflexivity].
        assert (Hk : k ∈ (fst <$> map)).
        { clear -Ek. induction (fst <$> map) as [| k' ks IH]; simpl in Ek; [discriminate |].
          destruct ((length k' =? 1)%nat && includes normalized k').
          - injection Ek as ->. left.
          - right. apply IH, Ek. }
        destruct (own_keys map k Hk) as [v Ev]. rewrite Ev. right. exists v.
        split; [| reflexivity].
        exact (proj1 (Forall_forall _ _) map_values _ (own_elem_of _ _ _ Ev)).
Qed.

Lemma extractDigit_first_digit (text pre rest : list N) (c : N) :
  toLowerCase (trim text) = pre ++ c :: rest ->
  Forall (fun u => ~ isDigit u) pre -> isDigit c ->
  extractDigit trim toLowerCase text = Number (N.to_nat (c - 48)).
Proof.
  intros Hnorm Hpre Hc. unfold extractDigit. cbv zeta.
  pose proof (matchDigit_first pre rest c Hpre Hc) as Hmatch. rewrite <- Hnorm in Hmatch.
  set (normalized := toLowerCase (trim text)) in *.
  unfold has, lookup_or_null.
  destruct (own map normalized) as [v |] eqn:Eown.
  - rewrite bool_decide_eq_true_2 by eauto. simpl.
    pose proof (proj1 (Forall_forall _ _) map_digits _ (own_elem_of _ _ _ Eown)) as [H | H];
      simpl in H; congruence.
  - rewrite bool_decide_eq_false_2 by (intros [? ?]; discriminate). simpl.
    destruct (bool_decide (normalized ∈ inherited)) eqn:Einh.
    + apply bool_decide_eq_true_1 in Einh.
      pose proof (proj1 (Forall_forall _ _) inherited_digits _ Einh). congruence.
    + rewrite Hmatch. reflexivity.
Qed.

Lemma firstKeyIncluded_units (ns : list (N * nat)) (others : list (list N)) (s : list N) :
  firstKeyIncluded (((fun cv => [cv.1]) <$> ns) ++ others) s
  = match list_find (fun cv => cv.1 ∈ s) ns with
    | Some (_, cv) => Some [cv.1]
    | None => firstKeyIncluded others s
    end.
Proof.
  induction ns as [| [c v] ns IH]; [reflexivity |].
  rewrite fmap_cons. cbn [app firstKeyIncluded length Nat.eqb andb fst list_find].
  rewrite includes_unit.
  destruct (decide (c ∈ s)) as [Hc | Hc].
  - rewrite (bool_decide_eq_true_2 _ Hc). reflexivity.
  - rewrite (bool_decide_eq_false_2 _ Hc), IH.
    destruct (list_find (fun cv => cv.1 ∈ s) ns) as [[i cv] |]; reflexivity.
Qed.

Lemma numerals_own : Forall (fun cv => lookup_or_null [cv.1] = Number cv.2) numerals.
Proof. unfold numerals. repeat (constructor; [reflexivity |]). constructor. Qed.

Lemma extractDigit_numeral (text : list N) :
  let normalized := toLowerCase (trim text) in
  own map normalized = None -> normalized ∉ inherited ->
  Forall (fun u => ~ isDigit u) normalized ->
  extractDigit trim toLowerCase text
  = match list_find (fun cv => cv.1 ∈ normalized) numerals with
    | Some (_, (_, v)) => Number v
    | None => Null
    end.
Proof.
  intros normalized Hown Hinh Hdig. unfold extractDigit. fold normalized. cbv zeta.
  unfold has. rewrite Hown.
  rewrite bool_decide_eq_false_2 by (intros [? ?]; discriminate).
  rewrite (bool_decide_eq_false_2 _ Hinh). cbn [orb].
  rewrite (matchDigit_none _ Hdig).
  pose (digits := [(48, 0); (49, 1); (50, 2); (51, 3); (52, 4);
                   (53, 5); (54, 6); (55, 7); (56, 8); (57, 9)]%N).
  pose (words := units <$> ["zero"; "one"; "two"; "three"; "four"; "five"; "six"; "seven";
                            "eight"; "nine"]%string).
  change (fst <$> map)
    with (((fun cv : N * N => [cv.1]) <$> digits)
          ++ ((fun cv : N * nat => [cv.1]) <$> numerals) ++ words).
  assert (Hdigits : forall others,
             firstKeyIncluded (((fun cv : N * N => [cv.1]) <$> digits) ++ others) normalized
             = firstKeyIncluded others normalized).
  { intros others. unfold digits.
    assert (Hno : forall c, isDigit c -> includes normalized [c] = false).
    { intros c Hc. rewrite includes_unit. apply bool_decide_eq_false_2.
      intros Hin. exact (proj1 (Forall_forall _ _) Hdig c Hin Hc). }
    cbn [fmap list_fmap app firstKeyIncluded length Nat.eqb andb fst].
    rewrite !Hno by (unfold isDigit; lia). reflexivity. }
  rewrite Hdigits, firstKeyIncluded_units.
  destruct (list_find (fun cv => cv.1 ∈ normalized) numerals) as [[i [c v]] |] eqn:Efind.
  - apply list_find_Some in Efind as (Hi & _ & _).
    apply list_elem_of_lookup_2 in Hi.
    exact (proj1 (Forall_forall _ _) numerals_own _ Hi).
  - reflexivity.
Qed.

(** X27.  A text with an ASCII digit in it gives its first ASCII digit.  A
    text without one that is no key of the map gives the first of the ten
    numerals, in the order of their values, that stands in it, and [null]
    when none does: the English words count only as the whole text. *)
Theorem extractDigit_text (text : list N) :
  let normalized := toLowerCase (trim text) in
  (forall pre c rest,
     normalized = pre ++ c :: rest -> Forall (fun u => ~ isDigit u) pre -> isDigit c ->
     extractDigit trim toLowerCase text = Number (N.to_nat (c - 48))) /\
  (Forall (fun u => ~ isDigit u) normalized ->
   own map normalized = None -> normalized ∉ inherited ->
   extractDigit trim toLowerCase text
   = match list_find (fun cv => cv.1 ∈ normalized) numerals with
     | Some (_, (_, v)) => Number v
     | None => Null
     end).
Proof.
  intros normalized. split.
  - intros pre c rest. apply extractDigit_first_digit.
  - intros Hdig Hown Hinh. apply extractDigit_numeral; assumption.
Qed.

End ExtractDigitProperties.

Example extractDigit_examples :
  let extract := VoicePage.extractDigit (fun s => s) (fun s => s) in
  extract (VoicePage.units "room 42") = VoicePage.Number 4 /\
  extract [0x4E5D; 0x4E00]%N = VoicePage.Number 1 /\
  extract (VoicePage.units "seven") = VoicePage.Number 7 /\
  extract (VoicePage.units "seven up") = VoicePage.Null /\
  extract (VoicePage.units "constructor") = VoicePage.Inherited (VoicePage.units "constructor").
Proof. repeat split; vm_compute; reflexivity. Qed.

(** *** src/pages/HandwritingPage.tsx *)

Section PlacementProperties.

Import HandwritingPage.

Lemma floor_half (n : Z) : Js.Math_floor (IZR n / 2) = (n / 2)%Z.
Proof.
  unfold Js.Math_floor. apply Zfloor_eq.
  pose proof (Z.div_mod n 2 ltac:(lia)) as Hdm.
  pose proof (Z.mod_pos_bound n 2 ltac:(lia)) as Hmod.
  assert (Hn : IZR n = 2 * IZR (n / 2) + IZR (n mod 2)).
  { rewrite Hdm at 1. rewrite plus_IZR, mult_IZR. reflexivity. }
  assert (H0 : 0 <= IZR (n mod 2) <= 1) by (split; [apply (IZR_le 0) | apply (IZR_le _ 1)]; lia).
  lra.
Qed.

(** The side of the image after scaling: at least 1, at most the room
    [m], and the room itself when the scale is [m / a]. *)
Lemma fitted_side (a m : Z) (scale : R) :
  (1 <= a)%Z -> (1 <= m)%Z -> 0 < scale -> scale <= IZR m / IZR a ->
  let s := Z.max 1 (Js.Math_round (IZR a * scale)) in
  (1 <= s <= m)%Z /\ (scale = IZR m / IZR a -> s = m).
Proof.
  intros Ha Hm Hs Hle s.
  assert (Ha' : 0 < IZR a) by (apply (IZR_lt 0); lia).
  assert (Hprod : IZR a * scale <= IZR m).
  { apply (Rmult_le_compat_l (IZR a)) in Hle; [| lra].
    replace (IZR a * (IZR m / IZR a)) with (IZR m) in Hle by (field; lra). exact Hle. }
  pose proof (Math_round_le _ m Hprod) as Hr.
  split; [subst s; lia |].
  intros ->. subst s.
  replace (IZR a * (IZR m / IZR a)) with (IZR m) by (field; lra).
  rewrite Math_round_Z. lia.
Qed.

(** X28.  An uploaded image of one pixel or more, on a canvas wider and
    higher than twice the margin, is drawn inside the margin of a tenth of
    the canvas width, at least one pixel wide and high, as large as the
    room allows in one direction, and in the middle. *)
Theorem imagePlacement_fits (cw ch iw ih : Z) :
  (1 <= iw)%Z -> (1 <= ih)%Z ->
  let pad := Js.Math_round (IZR cw * 0.1) in
  (2 * pad < cw)%Z -> (2 * pad < ch)%Z ->
  let '(x, y, w, h) := imagePlacement cw ch iw ih in
  (pad <= x /\ x + w <= cw - pad /\ pad <= y /\ y + h <= ch - pad)%Z /\
  (1 <= w /\ 1 <= h /\ (w = cw - 2 * pad \/ h = ch - 2 * pad))%Z /\
  (x = (cw - w) / 2 /\ y = (ch - h) / 2)%Z.
Proof.
  intros Hiw Hih pad Hcw Hch. unfold imagePlacement. fold pad. cbv zeta.
  set (maxW := (cw - pad * 2)%Z). set (maxH := (ch - pad * 2)%Z).
  set (scale := Rmin (IZR maxW / IZR iw) (IZR maxH / IZR ih)).
  assert (Hiw' : 0 < IZR iw) by (apply (IZR_lt 0); lia).
  assert (Hih' : 0 < IZR ih) by (apply (IZR_lt 0); lia).
  assert (HmW : 0 < IZR maxW) by (apply (IZR_lt 0); unfold maxW; lia).
  assert (HmH : 0 < IZR maxH) by (apply (IZR_lt 0); unfold maxH; lia).
  assert (Hscale : 0 < scale).
  { unfold scale. apply Rmin_glb_lt; apply Rdiv_lt_0_compat; assumption. }
  destruct (fitted_side iw maxW scale Hiw ltac:(unfold maxW; lia) Hscale (Rmin_l _ _))
    as [Hw Hw'].
  destruct (fitted_side ih maxH scale Hih ltac:(unfold maxH; lia) Hscale (Rmin_r _ _))
    as [Hh Hh'].
  cbv zeta in Hw, Hw', Hh, Hh'.
  set (w := Z.max 1 (Js.Math_round (IZR iw * scale))) in *.
  set (h := Z.max 1 (Js.Math_round (IZR ih * scale))) in *.
  rewrite !floor_half.
  assert (Hfull : (w = maxW \/ h = maxH)%Z).
  { unfold scale in Hw', Hh'. unfold Rmin in *.
    destruct (Rle_dec (IZR maxW / IZR iw) (IZR maxH / IZR ih));
      [left; apply Hw' | right; apply Hh']; reflexivity. }
  pose proof (Z.div_mod (cw - w) 2 ltac:(lia)).
  pose proof (Z.mod_pos_bound (cw - w) 2 ltac:(lia)).
  pose proof (Z.div_mod (ch - h) 2 ltac:(lia)).
  pose proof (Z.mod_pos_bound (ch - h) 2 ltac:(lia)).
  unfold maxW, maxH in *. repeat split; lia.
Qed.

End PlacementProperties.

Lemma imagePlacement_fits_witness :
  let pad := Js.Math_round (IZR 320 * 0.1) in
  let '(x, y, w, h) := HandwritingPage.imagePlacement 320 320 640 480 in
  (pad <= x /\ x + w <= 320 - pad /\ pad <= y /\ y + h <= 320 - pad)%Z /\
  (1 <= w /\ 1 <= h /\ (w = 320 - 2 * pad \/ h = 320 - 2 * pad))%Z /\
  (x = (320 - w) / 2 /\ y = (320 - h) / 2)%Z.
Proof.
  assert (Hpad : Js.Math_round (IZR 320 * 0.1) = 32%Z) by (apply Zfloor_eq; lra).
  apply (imagePlacement_fits 320 320 640 480); [lia | lia | rewrite Hpad; lia | rewrite Hpad; lia].
Defined.

Section DrawingProperties.

Import HandwritingPage.

Variable ImageData : Type.
Variable white : ImageData.

Lemma snapshotForUndo_length (d : Drawing ImageData) :
  (length (history d) <= 20)%nat ->
  (length (history (snapshotForUndo d)) <= 20)%nat.
Proof.
  intros H. unfold snapshotForUndo. cbn [history].
  destruct (decide (20 < length (history d ++ [canvas d]))%nat) as [Hlt | Hge].
  - rewrite length_drop, length_app. simpl. lia.
  - lia.
Qed.

Lemma undo_length (d : Drawing ImageData) :
  (length (history (undo d)) <= length (history d))%nat.
Proof.
  unfold undo. destruct (last (history d)); cbn [history]; [| lia].
  rewrite length_take. lia.
Qed.

Lemma perform_length (d : Drawing ImageData) (a : Action ImageData) :
  (length (history d) <= 20)%nat ->
  (length (history (perform white d a)) <= 20)%nat.
Proof.
  intros H. destruct a; cbn [perform history].
  - apply snapshotForUndo_length, H.
  - exact H.
  - apply snapshotForUndo_length, H.
  - pose proof (undo_length d). lia.
  - simpl. lia.
Qed.

(** X29.  Whatever the user does from the mounted page, no more than 20
    snapshots are kept. *)
Theorem history_bounded (actions : list (Action ImageData)) :
  (length (history (foldl (perform white) (mounted white) actions)) <= 20)%nat.
Proof.
  assert (H : forall d, (length (history d) <= 20)%nat ->
                        (length (history (foldl (perform white) d actions)) <= 20)%nat).
  { induction actions as [| a actions IH]; intros d Hd; [exact Hd |].
    simpl. apply IH, perform_length, Hd. }
  apply H. simpl. lia.
Qed.

Lemma moves_keep_history (d : Drawing ImageData) (moves : list (ImageData -> ImageData)) :
  history (foldl (perform white) d (PointerMove <$> moves)) = history d.
Proof.
  revert d. induction moves as [| f moves IH]; intros d; [reflexivity |].
  simpl. rewrite IH. reflexivity.
Qed.

(** The history after a sequence of strokes: the snapshots of before, then
    the canvas as it was before each stroke, of which the last 20 are
    kept. *)
Lemma strokes_history (strokes : list (list (ImageData -> ImageData))) (d : Drawing ImageData) :
  (length (history d) <= 20)%nat ->
  exists before : list ImageData,
    length before = length strokes /\
    head (before ++ [canvas (foldl (perform white) d (concat (stroke_actions <$> strokes)))])
    = Some (canvas d) /\
    history (foldl (perform white) d (concat (stroke_actions <$> strokes)))
    = drop (length (history d) + length strokes - 20) (history d ++ before).
Proof.
  revert d. induction strokes as [| moves strokes IH]; intros d Hd.
  - exists []. simpl. split; [reflexivity |]. split; [reflexivity |].
    rewrite app_nil_r. replace (length (history d) + 0 - 20)%nat with 0%nat by lia.
    reflexivity.
  - rewrite fmap_cons. cbn [concat]. rewrite foldl_app.
    set (d1 := foldl (perform white) d (stroke_actions moves)).
    assert (Hh1 : history d1 = history (snapshotForUndo d)).
    { unfold d1, stroke_actions. cbn [foldl perform]. apply moves_keep_history. }
    assert (Hlen1 : (length (history d1) <= 20)%nat)
      by (rewrite Hh1; apply snapshotForUndo_length, Hd).
    destruct (IH d1 Hlen1) as (before & Hb & Hhead & Hhist).
    exists (canvas d :: before). split; [simpl; lia |]. split; [reflexivity |].
    rewrite Hhist, Hh1. unfold snapshotForUndo. cbn [history].
    assert (Hsnoc : length (history d ++ [canvas d]) = S (length (history d)))
      by (rewrite length_app; simpl; lia).
    destruct (decide (20 < length (history d ++ [canvas d]))%nat) as [Hfull | Hroom].
    + rewrite length_drop, Hsnoc. rewrite Hsnoc in Hfull.
      rewrite <- drop_app_le by lia. rewrite drop_drop, <- app_assoc.
      cbn [length]. f_equal. lia.
    + rewrite Hsnoc, <- app_assoc. rewrite Hsnoc in Hroom.
      cbn [length]. f_equal. lia.
Qed.

Lemma undo_pops (l : list ImageData) (x c : ImageData) :
  undo {| canvas := c; history := l ++ [x] |} = {| canvas := x; history := l |}.
Proof.
  unfold undo. cbn [history]. rewrite last_snoc, length_app. simpl.
  replace (length l + 1 - 1)%nat with (length l) by lia.
  rewrite take_app_length. reflexivity.
Qed.

Lemma undo_all (l before : list ImageData) (c : ImageData) :
  before <> [] ->
  canvas (Nat.iter (length before) undo {| canvas := c; history := l ++ before |})
  = default c (head before).
Proof.
  revert c. induction before as [| x before IH] using rev_ind; intros c Hne; [contradiction |].
  rewrite length_app. simpl length. rewrite Nat.add_comm. simpl plus.
  rewrite Nat.iter_succ_r, app_assoc, undo_pops.
  destruct before as [| y before']; [reflexivity |].
  rewrite IH by discriminate. reflexivity.
Qed.

(** X30.  Undo takes back whole strokes: after up to 20 strokes, as many
    undos give back the canvas as it was before the first of them. *)
Theorem undo_restores (strokes : list (list (ImageData -> ImageData))) (d : Drawing ImageData) :
  (length (history d) <= 20)%nat -> (length strokes <= 20)%nat ->
  canvas (Nat.iter (length strokes) undo
              (foldl (perform white) d (concat (stroke_actions <$> strokes))))
  = canvas d.
Proof.
  intros Hd Hn. destruct strokes as [| moves strokes]; [reflexivity |].
  destruct (strokes_history (moves :: strokes) d Hd) as (before & Hb & Hhead & Hhist).
  set (d' := foldl (perform white) d (concat (stroke_actions <$> moves :: strokes))) in *.
  destruct before as [| x before]; [discriminate |].
  simpl in Hhead. injection Hhead as ->.
  assert (Hsplit : history d'
                   = drop (length (history d) + length (moves :: strokes) - 20) (history d)
                     ++ (canvas d :: before)).
  { rewrite Hhist. apply drop_app_le. simpl in *. lia. }
  destruct d' as [c' h']. cbn [history] in Hsplit. rewrite Hsplit, <- Hb.
  rewrite undo_all by discriminate. reflexivity.
Qed.

End DrawingProperties.

Lemma undo_restores_witness :
  HandwritingPage.canvas
    (Nat.iter (length [[S]; [S; S]]) HandwritingPage.undo
       (foldl (HandwritingPage.perform 0%nat) (HandwritingPage.mounted 0%nat)
              (concat (stroke_actions <$> [[S]; [S; S]]))))
  = HandwritingPage.canvas (HandwritingPage.mounted 0%nat).
Proof. apply (undo_restores nat 0%nat [[S]; [S; S]]); simpl; lia. Defined.
